(** * CV Foundry: sanitizers, skill grouping, ATS linter and rule packs

    A shallow embedding of the text sanitizers and the bullet handlers of
    [webapp/js/main.js], of [webapp/js/lib/skills.js] and of
    [webapp/js/lib/ats.js], followed by the properties established about
    them.

    JavaScript strings are sequences of UTF-16 code units; they are
    modelled as lists of [N].  Every regular expression of the source is
    transcribed as a first-order matcher over such lists, next to the
    literal it stands for. *)

From Stdlib Require Import NArith ZArith List Bool Ascii String Lia.
From stdpp Require Import base list gmap sets.

Open Scope N_scope.

(** ** Strings of code units *)

Abbreviation jsstring := (list N).

(** Code units of an ASCII literal. *)
Fixpoint lit (s : string) : jsstring :=
  match s with
  | EmptyString => []
  | String a r => N_of_ascii a :: lit r
  end.

(** The parts of the JavaScript runtime that depend on Unicode tables or
    on the locale.  The development is parametric in them. *)
Class Host := {
  (** [String.prototype.toLowerCase] *)
  toLowerCase : jsstring → jsstring;
  (** membership of a code point in [\p{L}] or [\p{N}] *)
  isLetterOrNumber : N → bool;
  (** sign of [a.localeCompare(b)] *)
  localeCompare : jsstring → jsstring → Z
}.

Module Js.

(** [\s], which is also the set removed by [trim()]: WhiteSpace and
    LineTerminator of ECMAScript. *)
Definition isSpace (c : N) : bool :=
  ((9 <=? c) && (c <=? 13)) || (c =? 32) || (c =? 160) || (c =? 5760)
  || ((8192 <=? c) && (c <=? 8202)) || (c =? 8232) || (c =? 8233)
  || (c =? 8239) || (c =? 8287) || (c =? 12288) || (c =? 65279).

Definition isUpperAZ (c : N) : bool := (65 <=? c) && (c <=? 90).
Definition isLowerAZ (c : N) : bool := (97 <=? c) && (c <=? 122).
Definition isDigit (c : N) : bool := (48 <=? c) && (c <=? 57).

(** [\w] *)
Definition isWordChar (c : N) : bool :=
  isUpperAZ c || isLowerAZ c || isDigit c || (c =? 95).

(** Truthiness of a string: [Boolean(s)], [!!s], [s || ...]. *)
Definition truthy (s : jsstring) : bool :=
  match s with [] => false | _ :: _ => true end.

(** Remove the longest prefix (suffix) of characters satisfying [p]. *)
Fixpoint stripStart (p : N → bool) (s : jsstring) : jsstring :=
  match s with
  | [] => []
  | c :: r => if p c then stripStart p r else s
  end.

Fixpoint stripEnd (p : N → bool) (s : jsstring) : jsstring :=
  match s with
  | [] => []
  | c :: r =>
      match stripEnd p r with
      | [] => if p c then [] else [c]
      | r' => c :: r'
      end
  end.

(** [s.trim()] *)
Definition trim (s : jsstring) : jsstring :=
  stripEnd isSpace (stripStart isSpace s).

(** [s.replace(/X+/g, ' ')] for a character class [X]: every maximal
    run of [X] becomes one space.  [inRun] tells that the previous
    character belonged to the run being replaced. *)
Fixpoint collapseRuns (p : N → bool) (inRun : bool) (s : jsstring)
  : jsstring :=
  match s with
  | [] => []
  | c :: r =>
      if p c then
        if inRun then collapseRuns p true r
        else 32 :: collapseRuns p true r
      else c :: collapseRuns p false r
  end.

(** [s.replace(/\s+/g, ' ')] *)
Definition collapseSpaces (s : jsstring) : jsstring :=
  collapseRuns isSpace false s.

(** [s.replace(/\r?\n+/g, ' ')]: a match is an optional CR followed by
    a maximal run of LF.  A CR that no LF follows is kept; a CR met
    inside a run of LF starts a new match when an LF follows it. *)
Fixpoint replaceNewlines (inRun : bool) (s : jsstring) : jsstring :=
  match s with
  | [] => []
  | c :: r =>
      if c =? 10 then
        if inRun then replaceNewlines true r
        else 32 :: replaceNewlines true r
      else if (c =? 13) && match r with d :: _ => d =? 10 | [] => false end
      then 32 :: replaceNewlines true r
      else c :: replaceNewlines false r
  end.

(** [s.split(sep)] for a one-character separator class [p] (for
    instance [s.split(' ')], [s.split('\n')]). *)
Fixpoint splitOn (p : N → bool) (s : jsstring) : list jsstring :=
  match s with
  | [] => [[]]
  | c :: r =>
      if p c then [] :: splitOn p r
      else match splitOn p r with
           | w :: ws => (c :: w) :: ws
           | [] => [[c]]
           end
  end.

(** [s.split(/X+/)] for a character class [X]: the separators are the
    maximal runs of [X]. *)
Fixpoint splitRuns (p : N → bool) (inRun : bool) (s : jsstring)
  : list jsstring :=
  match s with
  | [] => [[]]
  | c :: r =>
      if p c then
        if inRun then splitRuns p true r else [] :: splitRuns p true r
      else match splitRuns p false r with
           | w :: ws => (c :: w) :: ws
           | [] => [[c]]
           end
  end.

(** [l.filter(Boolean)] on an array of strings *)
Definition filterBoolean (l : list jsstring) : list jsstring :=
  List.filter truthy l.

(** [l.join(sep)] *)
Fixpoint join (sep : jsstring) (l : list jsstring) : jsstring :=
  match l with
  | [] => []
  | [w] => w
  | w :: ws => w ++ sep ++ join sep ws
  end.

Definition eqb_str (a b : jsstring) : bool := bool_decide (a = b).

(** [s.startsWith(p)] and [s.includes(p)] *)
Fixpoint startsWith (p s : jsstring) : bool :=
  match p, s with
  | [], _ => true
  | a :: p', c :: s' => (a =? c) && startsWith p' s'
  | _ :: _, [] => false
  end.

Fixpoint includes (p s : jsstring) : bool :=
  startsWith p s || match s with [] => false | _ :: r => includes p r end.

(** Canonicalize of a case-insensitive (non-unicode) regular
    expression, on Basic Latin and Latin-1 letters.  The patterns of the
    source contain ASCII characters and [é] only, and for those the
    characters with the same canonical form are exactly the two cases
    of the letter (no character outside ASCII canonicalizes into it). *)
Definition canonicalize (c : N) : N :=
  if isLowerAZ c then c - 32
  else if (224 <=? c) && (c <=? 254) && negb (c =? 247) then c - 32
  else c.

(** Match of a literal at the head of [s] under the [i] flag; the
    remainder of [s] is returned. *)
Fixpoint prefixCI (pat s : jsstring) : option jsstring :=
  match pat, s with
  | [], _ => Some s
  | p :: pat', c :: s' =>
      if canonicalize p =? canonicalize c then prefixCI pat' s' else None
  | _ :: _, [] => None
  end.

(** [\b] at a position: [prevWord] tells whether the character before
    it is a word character, [rest] is what follows. *)
Definition startsWord (rest : jsstring) : bool :=
  match rest with c :: _ => isWordChar c | [] => false end.

Definition boundary (prevWord : bool) (rest : jsstring) : bool :=
  xorb prevWord (startsWord rest).

Definition endsWord (w : jsstring) : bool :=
  match rev w with c :: _ => isWordChar c | [] => false end.

(** [s.startsWith(p)], returning what follows [p]. *)
Fixpoint afterPrefix (p s : jsstring) : option jsstring :=
  match p, s with
  | [], _ => Some s
  | a :: p', c :: s' => if a =? c then afterPrefix p' s' else None
  | _ :: _, [] => None
  end.

(** Does [\b(w1|...|wn)\b] match at the head of [s]?  [pm] matches one
    literal ([prefixCI] under the [i] flag, [afterPrefix] without). *)
Definition altAt (pm : jsstring → jsstring → option jsstring)
    (alts : list jsstring) (prevWord : bool) (s : jsstring) : bool :=
  boundary prevWord s
  && existsb (fun w => match pm w s with
                       | Some rest => boundary (endsWord w) rest
                       | None => false
                       end) alts.

(** [/\b(w1|...|wn)\b/.test(s)]: a match at some position of [s]. *)
Fixpoint altFrom (pm : jsstring → jsstring → option jsstring)
    (alts : list jsstring) (prevWord : bool) (s : jsstring) : bool :=
  altAt pm alts prevWord s
  || match s with
     | [] => false
     | c :: r => altFrom pm alts (isWordChar c) r
     end.

(** [[...new Set(l)]]: the members in the order of their first
    occurrence. *)
Fixpoint uniqLoop {A} `{Countable A} (seen : gset A) (l : list A) : list A :=
  match l with
  | [] => []
  | x :: r =>
      if bool_decide (x ∈ seen) then uniqLoop seen r
      else x :: uniqLoop ({[x]} ∪ seen) r
  end.

Definition uniq {A} `{Countable A} (l : list A) : list A := uniqLoop ∅ l.

(** [l.sort(cmp)] for a comparator that returns a sign.  The sort of
    the language is stable; for a comparator that orders its arguments
    consistently, as [localeCompare] does, every stable sort returns the
    list that this insertion sort returns. *)
Fixpoint insertBy {A} (cmp : A → A → Z) (x : A) (l : list A) : list A :=
  match l with
  | [] => [x]
  | y :: r => if (cmp x y <=? 0)%Z then x :: l else y :: insertBy cmp x r
  end.

Definition sortBy {A} (cmp : A → A → Z) (l : list A) : list A :=
  foldr (fun x acc => insertBy cmp x acc) [] l.

(** A value parsed from JSON, as far as the source looks at it: a
    string, or another value with the string that [String(v)] gives. *)
Inductive jsval :=
| JString (s : jsstring)
| JOther (asString : jsstring).

(** [String(v)] *)
Definition toStr (v : jsval) : jsstring :=
  match v with JString s => s | JOther s => s end.

End Js.

(** ** main.js: guards and sanitizers *)

Module Sanitizers.
Import Js.

Definition MAX_ROLE_WORDS : nat := 10.
Definition MAX_TITLE_WORDS : nat := 12.
Definition MAX_BULLET_WORDS : nat := 22.

(** [SENTENCE_PUNCT_RE = /[.?!:;]/] *)
Definition isSentencePunct (c : N) : bool :=
  (c =? 46) || (c =? 63) || (c =? 33) || (c =? 58) || (c =? 59).

(** [BULLET_MARK_RE = /^\s*[-–—•]\s*/] *)
Definition isBulletMark (c : N) : bool :=
  (c =? 45) || (c =? 8211) || (c =? 8212) || (c =? 8226).

(** [s.replace(BULLET_MARK_RE, '')] *)
Definition stripBulletMark (s : jsstring) : jsstring :=
  match stripStart isSpace s with
  | c :: r => if isBulletMark c then stripStart isSpace r else s
  | [] => s
  end.

(** [function sanitizeOneLine(s)] *)
Definition sanitizeOneLine (s : jsstring) : jsstring :=
  trim (collapseSpaces (replaceNewlines false s)).

(** [String(s).split(SENTENCE_PUNCT_RE)[0]] *)
Fixpoint beforePunct (s : jsstring) : jsstring :=
  match s with
  | [] => []
  | c :: r => if isSentencePunct c then [] else c :: beforePunct r
  end.

(** [function firstClause(s)] *)
Definition firstClause (s : jsstring) : jsstring :=
  sanitizeOneLine (beforePunct s).

(** [function capWords(s, n)] *)
Definition capWords (s : jsstring) (n : nat) : jsstring :=
  let parts := filterBoolean (splitOn (N.eqb 32) (sanitizeOneLine s)) in
  join [32] (take n parts).


(** [ACTION_VERB_RE =
    /\b(developed|implemented|improved|collaborated|built|designed|
    contributed|deployed|led|optimized|analysed|analyzed|managed|
    reduced|increased|resolved|created)\b/i] *)
Definition ACTION_VERBS : list jsstring :=
  map lit ["developed"; "implemented"; "improved"; "collaborated";
           "built"; "designed"; "contributed"; "deployed"; "led";
           "optimized"; "analysed"; "analyzed"; "managed"; "reduced";
           "increased"; "resolved"; "created"]%string.

(** [ACTION_VERB_RE.test(s)] *)
Definition ACTION_VERB_RE_test (s : jsstring) : bool :=
  altFrom prefixCI ACTION_VERBS false s.

(** [BAD_PHRASES]; [é] is code unit 233. *)
Definition BAD_PHRASES : list jsstring :=
  [ lit "Original R" ++ [233] ++ lit "sum" ++ [233] ++ lit " Text";
    lit "Corrected R" ++ [233] ++ lit "sum" ++ [233] ++ lit " Text";
    lit "Here is the corrected text";
    lit "I am an AI";
    lit "as an AI" ].

(** [CODE_FENCE_RE = /^`{3,}|`{3,}$/g], replaced by [''] *)
Definition isBacktick (c : N) : bool := c =? 96.

Definition dropFenceStart (s : jsstring) : jsstring :=
  let r := stripStart isBacktick s in
  if (3 <=? length s - length r)%nat then r else s.

Definition dropFenceEnd (s : jsstring) : jsstring :=
  let r := stripEnd isBacktick s in
  if (3 <=? length s - length r)%nat then r else s.

Definition stripCodeFence (s : jsstring) : jsstring :=
  dropFenceEnd (dropFenceStart s).

(** [(?:original|corrected)] under the [i] flag *)
Definition afterLabelWord (s : jsstring) : option jsstring :=
  match prefixCI (lit "original") s with
  | Some r => Some r
  | None => prefixCI (lit "corrected") s
  end.

(** [[^:]*:] : everything up to and including the first colon *)
Fixpoint afterColon (s : jsstring) : option jsstring :=
  match s with
  | [] => None
  | c :: r => if c =? 58 then Some r else afterColon r
  end.

(** [t.replace(/^\s*\*\*(?:original|corrected)[^:]*:\*\*\s*/i, '')] *)
Definition stripBoldLabel (s : jsstring) : jsstring :=
  match afterPrefix (lit "**") (stripStart isSpace s) with
  | Some r1 =>
      match afterLabelWord r1 with
      | Some r2 =>
          match afterColon r2 with
          | Some r3 =>
              match afterPrefix (lit "**") r3 with
              | Some r4 => stripStart isSpace r4
              | None => s
              end
          | None => s
          end
      | None => s
      end
  | None => s
  end.

(** [t.replace(/^\s*(?:original|corrected)[^:]*:\s*/i, '')] *)
Definition stripLabel (s : jsstring) : jsstring :=
  match afterLabelWord (stripStart isSpace s) with
  | Some r2 =>
      match afterColon r2 with
      | Some r3 => stripStart isSpace r3
      | None => s
      end
  | None => s
  end.

(** [t.replace(new RegExp(p, 'ig'), '')] for a literal [p]: every
    occurrence, scanning from the left, is removed.  [skip] counts the
    characters of the current occurrence still to be dropped. *)
Fixpoint removeAllCI (pat : jsstring) (skip : nat) (s : jsstring)
  : jsstring :=
  match s with
  | [] => []
  | c :: r =>
      match skip with
      | S k => removeAllCI pat k r
      | O =>
          match pat, prefixCI pat s with
          | _ :: _, Some _ => removeAllCI pat (length pat - 1) r
          | _, _ => c :: removeAllCI pat 0 r
          end
      end
  end.

(** [function stripMeta(text)] *)
Definition stripMeta (text : jsstring) : jsstring :=
  let t := stripCodeFence text in
  let t := stripBoldLabel t in
  let t := stripLabel t in
  let t := fold_left (fun t p => removeAllCI p 0 t) BAD_PHRASES t in
  trim t.

(** [META_LINE_RE =
    /^\s*(here('?s)? (the )?(correct(ed)?|fixed) text|
    original (résumé|resume) text|corrected (résumé|resume) text|
    as an ai|note:)/i]: the literals of the group, in the order in
    which backtracking tries them. *)
Definition META_LINE_ALTS : list jsstring :=
  flat_map (fun x =>
    flat_map (fun y =>
      map (fun z => lit "here" ++ x ++ lit " " ++ y ++ z ++ lit " text")
          [lit "corrected"; lit "correct"; lit "fixed"])
      [lit "the "; []])
    [lit "'s"; lit "s"; []]
  ++ [ lit "original r" ++ [233] ++ lit "sum" ++ [233] ++ lit " text";
       lit "original resume text";
       lit "corrected r" ++ [233] ++ lit "sum" ++ [233] ++ lit " text";
       lit "corrected resume text";
       lit "as an ai";
       lit "note:" ].

Fixpoint firstMatchCI (alts : list jsstring) (s : jsstring)
  : option jsstring :=
  match alts with
  | [] => None
  | a :: alts' =>
      match prefixCI a s with
      | Some r => Some r
      | None => firstMatchCI alts' s
      end
  end.

(** The match of [META_LINE_RE], if any: what follows it. *)
Definition metaLineMatch (s : jsstring) : option jsstring :=
  firstMatchCI META_LINE_ALTS (stripStart isSpace s).

(** [.] of a regular expression without the [s] flag excludes the
    line terminators. *)
Definition isLineTerminator (c : N) : bool :=
  (c =? 10) || (c =? 13) || (c =? 8232) || (c =? 8233).

(** [.*?(,|\.)]: what follows the first comma or full stop, when no
    line terminator comes before it. *)
Fixpoint afterClause (s : jsstring) : option jsstring :=
  match s with
  | [] => None
  | c :: r =>
      if (c =? 44) || (c =? 46) then Some r
      else if isLineTerminator c then None
      else afterClause r
  end.

(** Match of [/\bnot\b.*?(,|\.)/i] at the head of [s]. *)
Definition notClauseAt (prevWord : bool) (s : jsstring)
  : option jsstring :=
  if boundary prevWord s then
    match prefixCI (lit "not") s with
    | Some rest => if boundary true rest then afterClause rest else None
    | None => None
    end
  else None.

(** [out.replace(/\bnot\b.*?(,|\.)/i, '')]: the leftmost match is
    removed. *)
Fixpoint dropNotClause (prevWord : bool) (s : jsstring) : jsstring :=
  match notClauseAt prevWord s with
  | Some rem => rem
  | None =>
      match s with
      | [] => []
      | c :: r => c :: dropNotClause (isWordChar c) r
      end
  end.

(** the class [[.;:,-]] *)
Definition isTrailPunct (c : N) : bool :=
  (c =? 46) || (c =? 59) || (c =? 58) || (c =? 44) || (c =? 45).

(** [out.replace(/\s*[.;:,-]\s*$/, '')]: the punctuation character must
    be the last character that is not white space; the match extends to
    the left over the white space before it. *)
Definition stripTrailPunctWs (s : jsstring) : jsstring :=
  match rev (stripEnd isSpace s) with
  | c :: r => if isTrailPunct c then stripEnd isSpace (rev r) else s
  | [] => s
  end.

(** [out.replace(/[.:;,-]\s*$/, '')] *)
Definition stripTrailPunct (s : jsstring) : jsstring :=
  match rev (stripEnd isSpace s) with
  | c :: r => if isTrailPunct c then rev r else s
  | [] => s
  end.

(** the class of quote characters of the last replacement: backtick,
    double quote, apostrophe, and the two curly double quotes
    U+201C and U+201D *)
Definition isQuote (c : N) : bool :=
  (c =? 96) || (c =? 34) || (c =? 39) || (c =? 8220) || (c =? 8221).

(** [out.replace(/^[Q]+|[Q]+$/g, '')], with [Q] the class above: the
    leading run of quotes and the trailing run of quotes are removed. *)
Definition stripQuotes (s : jsstring) : jsstring :=
  stripEnd isQuote (stripStart isQuote s).

(** [out.split(' ').filter(Boolean)] *)
Definition spaceWords (s : jsstring) : list jsstring :=
  filterBoolean (splitOn (N.eqb 32) s).

(** The word cap of [sanitizeBulletLine]. *)
Definition capBullet (out : jsstring) : jsstring :=
  let words := spaceWords out in
  if (MAX_BULLET_WORDS <? length words)%nat
  then join [32] (take MAX_BULLET_WORDS words)
  else out.

(** [function sanitizeBulletLine(s)] *)
Definition sanitizeBulletLine (s : jsstring) : jsstring :=
  let out := stripMeta s in
  let out := stripBulletMark out in
  let out := trim (collapseSpaces out) in
  let out := match metaLineMatch out with
             | Some rest => trim rest
             | None => out
             end in
  let out := trim (dropNotClause false out) in
  let out := capBullet out in
  let out := trim (stripTrailPunctWs out) in
  stripQuotes out.

(** Surrogate pairs: a regular expression with the [u] flag reads code
    points. *)
Definition isHighSurrogate (c : N) : bool := (55296 <=? c) && (c <=? 56319).
Definition isLowSurrogate (c : N) : bool := (56320 <=? c) && (c <=? 57343).
Definition codePoint (hi lo : N) : N :=
  65536 + (hi - 55296) * 1024 + (lo - 56320).

Section WithHost.
Context `{Host}.

(** the complement of [[^\p{L}\p{N}&+\-/.,\s]] *)
Definition isFieldChar (cp : N) : bool :=
  isLetterOrNumber cp || (cp =? 38) || (cp =? 43) || (cp =? 45)
  || (cp =? 47) || (cp =? 46) || (cp =? 44) || isSpace cp.

(** [out.replace(/[^\p{L}\p{N}&+\-/.,\s]/gu, '')] *)
Fixpoint keepFieldChars (s : jsstring) : jsstring :=
  match s with
  | [] => []
  | c :: r =>
      match r with
      | d :: r' =>
          if isHighSurrogate c && isLowSurrogate d then
            if isFieldChar (codePoint c d)
            then c :: d :: keepFieldChars r'
            else keepFieldChars r'
          else if isFieldChar c then c :: keepFieldChars r
          else keepFieldChars r
      | [] => if isFieldChar c then [c] else []
      end
  end.

(** [a || b] on strings *)
Definition orElse (a b : jsstring) : jsstring :=
  if truthy a then a else b.

(** [function sanitizeRoleText(next, prev='')] *)
Definition sanitizeRoleText (next prev : jsstring) : jsstring :=
  let out := stripBulletMark (sanitizeOneLine next) in
  let out := firstClause out in
  if ACTION_VERB_RE_test out then
    let cleanedPrev := stripBulletMark (firstClause prev) in
    sanitizeOneLine (orElse cleanedPrev (capWords out MAX_ROLE_WORDS))
  else
    let out := trim (stripTrailPunct (capWords out MAX_ROLE_WORDS)) in
    let out := trim (keepFieldChars out) in
    orElse out prev.

(** [function sanitizeTitleText(next, prev='')] *)
Definition sanitizeTitleText (next prev : jsstring) : jsstring :=
  let out := sanitizeOneLine next in
  let out := firstClause out in
  let out := trim (stripTrailPunct (capWords out MAX_TITLE_WORDS)) in
  let out := if ACTION_VERB_RE_test out then capWords out 6 else out in
  let out := trim (keepFieldChars out) in
  orElse out prev.

(** [BAD_PHRASES.some(p => s.toLowerCase().includes(p.toLowerCase()))] *)
Definition hasBadPhrase (s : jsstring) : bool :=
  existsb (fun p => includes (toLowerCase p) (toLowerCase s)) BAD_PHRASES.

(** The loop of [sanitizeBulletList]; [seen] is the [Set] of the
    lower-cased lines kept so far. *)
Fixpoint sanitizeBulletLoop (seen : gset jsstring) (lines : list jsstring)
  : list jsstring :=
  match lines with
  | [] => []
  | l :: rest =>
      let s := sanitizeBulletLine l in
      if negb (truthy s) then sanitizeBulletLoop seen rest
      else if hasBadPhrase s then sanitizeBulletLoop seen rest
      else if bool_decide (toLowerCase s ∈ seen)
           then sanitizeBulletLoop seen rest
           else s :: sanitizeBulletLoop ({[toLowerCase s]} ∪ seen) rest
  end.

(** [function sanitizeBulletList(lines)] *)
Definition sanitizeBulletList (lines : list jsstring) : list jsstring :=
  sanitizeBulletLoop ∅ lines.

End WithHost.

End Sanitizers.

(** ** lib/skills.js: tokenizer and skill grouping *)

Module Skills.
Import Js.

Definition ORDER : list jsstring :=
  map lit ["Programming"; "Frontend"; "Backend"; "Data & ML";
           "Cloud & DevOps"; "Databases"; "Testing"; "Tools"; "Languages";
           "Other"]%string.

(** [/[\n,;]+/] *)
Definition isSkillSep (c : N) : bool := (c =? 10) || (c =? 44) || (c =? 59).

(** [w1\s+w2\s+...wn] under the [i] flag, at the head of [s]. *)
Fixpoint phraseWords (ws : list jsstring) (s : jsstring) : option jsstring :=
  match ws with
  | [] => Some s
  | [w] => prefixCI w s
  | w :: ws' =>
      match prefixCI w s with
      | Some (c :: r) =>
          if isSpace c then phraseWords ws' (stripStart isSpace (c :: r))
          else None
      | _ => None
      end
  end.

(** [\b(W1)\s+(W2)\b] at the head of [s]. *)
Definition phraseAt (ws : list jsstring) (prevWord : bool) (s : jsstring)
  : option jsstring :=
  if boundary prevWord s then
    match phraseWords ws s with
    | Some rest => if boundary true rest then Some rest else None
    | None => None
    end
  else None.

(** [s.replace(/\b(W1)\s+(W2)\b/gi, repl)]: every match, scanning from
    the left, is replaced.  [skip] counts the characters of the current
    match still to be passed. *)
Fixpoint replacePhrase (ws : list jsstring) (repl : jsstring) (skip : nat)
    (prevWord : bool) (s : jsstring) : jsstring :=
  match s with
  | [] => []
  | c :: r =>
      match skip with
      | S k => replacePhrase ws repl k (isWordChar c) r
      | O =>
          match phraseAt ws prevWord s with
          | Some rest =>
              repl ++ replacePhrase ws repl (length s - length rest - 1)
                                    (isWordChar c) r
          | None => c :: replacePhrase ws repl 0 (isWordChar c) r
          end
      end
  end.

(** The multi-word patterns joined by [tokenizeSkills], in the order of
    the chained [replace] calls. *)
Definition MULTI_WORD : list (list jsstring) :=
  map (map lit)
    [ ["Machine"; "Learning"]; ["Deep"; "Learning"];
      ["Natural"; "Language"; "Processing"]; ["Computer"; "Vision"];
      ["Reinforcement"; "Learning"]; ["Data"; "Science"];
      ["Artificial"; "Intelligence"]; ["Cloud"; "Computing"] ]%string.

Definition joinMultiWord (s : jsstring) : jsstring :=
  fold_left (fun s ws => replacePhrase ws (join [32] ws) 0 false s)
            MULTI_WORD s.

(** [export function tokenizeSkills(text)] *)
Definition tokenizeSkills (text : jsstring) : list jsstring :=
  if negb (truthy text) then []
  else
    let raw := filterBoolean (map trim (splitRuns isSkillSep false text)) in
    let merged := map joinMultiWord raw in
    uniq (map trim merged).

Section WithHost.
Context `{Host}.

(** [const norm = s => String(s).trim().toLowerCase()
      .replace(/\s+/g," ").replace(/^nodejs$/,"node.js")] *)
Definition norm (s : jsstring) : jsstring :=
  let n := collapseSpaces (toLowerCase (trim s)) in
  if bool_decide (n = lit "nodejs") then lit "node.js" else n.

End WithHost.

(** How a call ends: with a value, with a [TypeError], or in a way that
    the source leaves to the engine. *)
Inductive outcome (A : Type) :=
| Returns (x : A)
| RaisesTypeError
| EngineDependent.

Arguments Returns {A} x.
Arguments RaisesTypeError {A}.
Arguments EngineDependent {A}.

(** A value held by a bucket: a string, or one of the two objects that
    [PRETTY[k]] finds on [Object.prototype] for an all-lower-case key
    ([constructor] and [__proto__]). *)
Inductive skillval :=
| SkillStr (s : jsstring)
| ObjectConstructor
| ObjectPrototype.

#[global] Instance skillval_eq_dec : EqDecision skillval.
Proof. solve_decision. Defined.

Definition skillval_enc (v : skillval) : jsstring + bool :=
  match v with
  | SkillStr s => inl s
  | ObjectConstructor => inr true
  | ObjectPrototype => inr false
  end.

Definition skillval_dec (x : jsstring + bool) : skillval :=
  match x with
  | inl s => SkillStr s
  | inr true => ObjectConstructor
  | inr false => ObjectPrototype
  end.

#[global] Instance skillval_countable : Countable skillval.
Proof.
  apply (inj_countable' skillval_enc skillval_dec).
  intros []; reflexivity.
Defined.

(** [const PRETTY = {...}] read as [PRETTY[k]] *)
Definition PRETTY_own : list (jsstring * jsstring) :=
  [ (lit "js", lit "JavaScript"); (lit "ts", lit "TypeScript");
    (lit "node", lit "Node.js"); (lit "node.js", lit "Node.js");
    (lit "postgres", lit "PostgreSQL"); (lit "postgresql", lit "PostgreSQL");
    (lit "gcp", lit "GCP") ].

Fixpoint assoc {V} (k : jsstring) (l : list (jsstring * V)) : option V :=
  match l with
  | [] => None
  | (k', v) :: r => if bool_decide (k = k') then Some v else assoc k r
  end.

Definition PRETTY_get (k : jsstring) : option skillval :=
  match assoc k PRETTY_own with
  | Some v => Some (SkillStr v)
  | None =>
      if bool_decide (k = lit "constructor") then Some ObjectConstructor
      else if bool_decide (k = lit "__proto__") then Some ObjectPrototype
      else None
  end.

(** [c.toUpperCase()] on a character of [\w] *)
Definition upperAZ (c : N) : N := if isLowerAZ c then c - 32 else c.

(** [s.replace(/\b\w/g, c => c.toUpperCase())] *)
Fixpoint capitalizeWords (prevWord : bool) (s : jsstring) : jsstring :=
  match s with
  | [] => []
  | c :: r =>
      (if isWordChar c && negb prevWord then upperAZ c else c)
        :: capitalizeWords (isWordChar c) r
  end.

Definition CATS_LOCAL : list (jsstring * list jsstring) :=
  [ (lit "Programming",
     map lit ["c"; "c++"; "cpp"; "c#"; "java"; "python"; "javascript"; "js";
              "typescript"; "ts"; "go"; "golang"; "rust"; "kotlin"; "swift";
              "ruby"; "php"; "r"; "matlab"; "scala"; "perl"; "bash"; "shell";
              "powershell"; "solidity"]%string);
    (lit "Frontend",
     map lit ["html"; "css"; "sass"; "less"; "tailwind"; "bootstrap";
              "react"; "next.js"; "nextjs"; "angular"; "vue"; "nuxt";
              "svelte"]%string);
    (lit "Backend",
     map lit ["node"; "node.js"; "express"; "fastify"; "nestjs"; "nest";
              "django"; "flask"; "spring"; "spring boot"; ".net";
              ".net core"; "asp.net"; "rails"; "laravel"; "fastapi"]%string);
    (lit "Data & ML",
     map lit ["pandas"; "numpy"; "scikit-learn"; "sklearn"; "tensorflow";
              "pytorch"; "keras"; "xgboost"; "lightgbm"; "spark"; "hadoop";
              "airflow"; "dbt"; "sql"; "machine learning"; "ml";
              "deep learning"; "dl"; "nlp"; "natural language processing";
              "computer vision"; "llm"; "large language models";
              "transformer"; "transformers"; "generative ai"; "genai";
              "recommender"; "recommendation"]%string);
    (lit "Cloud & DevOps",
     map lit ["aws"; "azure"; "gcp"; "google cloud"; "docker"; "kubernetes";
              "k8s"; "terraform"; "ansible"; "jenkins"; "github actions";
              "gitlab ci"; "circleci"; "linux"; "nginx"; "apache"; "grafana";
              "prometheus"]%string);
    (lit "Databases",
     map lit ["postgres"; "postgresql"; "mysql"; "sqlite"; "mongodb";
              "redis"; "elasticsearch"; "dynamodb"; "oracle"; "snowflake";
              "redshift"; "bigquery"; "cassandra"; "neo4j"]%string);
    (lit "Testing",
     map lit ["jest"; "mocha"; "chai"; "cypress"; "playwright"; "selenium";
              "junit"; "pytest"; "vitest"]%string);
    (lit "Tools",
     map lit ["git"; "figma"; "jira"; "confluence"; "notion"; "slack";
              "excel"; "word"; "powerpoint"]%string) ].

(** [list.includes(n)] *)
Definition listIncludes (n : jsstring) (l : list jsstring) : bool :=
  bool_decide (n ∈ l).

(** The [for] loop of [detectLocalCategory]. *)
Fixpoint firstCategory (n : jsstring) (cats : list (jsstring * list jsstring))
  : option jsstring :=
  match cats with
  | [] => None
  | (cat, l) :: r => if listIncludes n l then Some cat else firstCategory n r
  end.

(** [function detectLocalCategory(n)] *)
Definition detectLocalCategory (n : jsstring) : jsstring :=
  match firstCategory n CATS_LOCAL with
  | Some cat => cat
  | None =>
      if altFrom afterPrefix [lit "sql"; lit "nosql"] false n
      then lit "Databases"
      else if altFrom afterPrefix [lit "ci/cd"] false n
      then lit "Cloud & DevOps"
      else lit "Other"
  end.

(** A property of the object parsed from the model's answer. *)
Inductive field :=
| FArray (items : list jsval)
| FNotArray.

(** [JSON.parse(raw)]: [null], or a value whose properties are read (a
    value that is not an object has none of the category names). *)
Inductive parsed :=
| ParsedNull
| ParsedObject (fields : gmap jsstring field).

Section WithHost.
Context `{Host}.

(** [const pretty = s => PRETTY[norm(s)] ||
      s.trim().replace(/\b\w/g,c=>c.toUpperCase())] *)
Definition pretty (s : jsstring) : skillval :=
  match PRETTY_get (norm s) with
  | Some v => v
  | None => SkillStr (capitalizeWords false (trim s))
  end.

Definition isStr (v : skillval) : bool :=
  match v with SkillStr _ => true | _ => false end.

Definition strOf (v : skillval) : jsstring :=
  match v with SkillStr s => s | _ => [] end.

(** [l.sort((a,b)=>a.localeCompare(b))] on a bucket.  Only strings have
    [localeCompare], and the comparator raises [TypeError] when its
    first argument is one of the two inherited objects.  A bucket of one
    value is never compared.  A bucket of two or more values that are
    all objects raises whatever the engine compares first; for a bucket
    that mixes strings and objects the outcome depends on the order in
    which the engine passes the arguments. *)
Definition sortBucket (l : list skillval) : outcome (list skillval) :=
  if forallb isStr l then
    Returns (map SkillStr (sortBy localeCompare (map strOf l)))
  else if (length l <=? 1)%nat then Returns l
  else if forallb (fun v => negb (isStr v)) l then RaisesTypeError
  else EngineDependent.

(** The first loop of [groupSkillsLocal]: [seen] and [buckets] after the
    skills of [rawSkills]. *)
Definition initialBuckets : gmap jsstring (list skillval) :=
  list_to_map (map (fun c => (c, [])) ORDER).

Definition pushSkill (st : gset jsstring * gmap jsstring (list skillval))
    (raw : jsstring) : gset jsstring * gmap jsstring (list skillval) :=
  let '(seen, buckets) := st in
  let n := norm raw in
  if negb (truthy n) || bool_decide (n ∈ seen) then st
  else
    let cat := detectLocalCategory n in
    ({[n]} ∪ seen,
     <[cat := default [] (buckets !! cat) ++ [pretty raw]]> buckets).

Definition fillBuckets (rawSkills : list jsstring)
  : gset jsstring * gmap jsstring (list skillval) :=
  fold_left pushSkill rawSkills (∅, initialBuckets).

(** The second loop: the non-empty buckets, without duplicates, sorted,
    are added to [pruned] in the order of [ORDER]. *)
Fixpoint pruneBuckets (buckets : gmap jsstring (list skillval))
    (cats : list jsstring) (pruned : gmap jsstring (list skillval))
  : outcome (gmap jsstring (list skillval)) :=
  match cats with
  | [] => Returns pruned
  | cat :: r =>
      match default [] (buckets !! cat) with
      | [] => pruneBuckets buckets r pruned
      | b =>
          match sortBucket (uniq b) with
          | Returns sorted => pruneBuckets buckets r (<[cat := sorted]> pruned)
          | RaisesTypeError => RaisesTypeError
          | EngineDependent => EngineDependent
          end
      end
  end.

(** [export function groupSkillsLocal(rawSkills = [])] *)
Definition groupSkillsLocal (rawSkills : list jsstring)
  : outcome (gmap jsstring (list skillval)) :=
  pruneBuckets (snd (fillBuckets rawSkills)) ORDER ∅.

(** [Array.isArray(obj[cat]) ? obj[cat].map(String).filter(Boolean) : []] *)
Definition categoryArray (fields : gmap jsstring field) (cat : jsstring)
  : list jsstring :=
  match fields !! cat with
  | Some (FArray items) => filterBoolean (map toStr items)
  | _ => []
  end.

(** The loop that closes [groupSkillsAI]. *)
Fixpoint sanitizeCategories (fields : gmap jsstring field)
    (cats : list jsstring) : gmap jsstring (list jsstring) :=
  match cats with
  | [] => ∅
  | cat :: r =>
      let out := sanitizeCategories fields r in
      match categoryArray fields cat with
      | [] => out
      | arr => <[cat := sortBy localeCompare (uniq arr)]> out
      end
  end.

(** [groupSkillsAI] from the parsed answer on: reading a property of
    [null] raises [TypeError], which rejects the promise. *)
Definition groupSkillsAI_sanitize (obj : parsed)
  : outcome (gmap jsstring (list jsstring)) :=
  match obj with
  | ParsedNull => RaisesTypeError
  | ParsedObject fields => Returns (sanitizeCategories fields ORDER)
  end.

End WithHost.

End Skills.

(** ** The CV document of main.js *)

Module Doc.

Record contact := {
  email : jsstring; phone : jsstring; website : jsstring;
  linkedin : jsstring; github : jsstring
}.

Record profile := {
  name : jsstring; title : jsstring; location : jsstring;
  contactInfo : contact; summary : jsstring
}.

Record experience := {
  company : jsstring; role : jsstring; expLocation : jsstring;
  start : jsstring; end_ : jsstring; bullets : list jsstring
}.

Record education := {
  institution : jsstring; degree : jsstring;
  eduStart : jsstring; eduEnd : jsstring
}.

Record certification := {
  certName : jsstring; issuer : jsstring; certDate : jsstring;
  certLink : jsstring
}.

Record project := {
  projName : jsstring; projLink : jsstring; projBullets : list jsstring
}.

Record publication := {
  pubTitle : jsstring; authors : jsstring; venue : jsstring;
  pubDate : jsstring; doi : jsstring; pubLink : jsstring
}.

Record patent := {
  patTitle : jsstring; office : jsstring; number : jsstring;
  patDate : jsstring; status : jsstring; patLink : jsstring;
  inventors : jsstring
}.

Record meta := {
  countryPack : jsstring; atsStrict : bool; locale : jsstring
}.

(** [let CV = {...}] *)
Record CV := {
  cvProfile : profile;
  cvExperience : list experience;
  cvEducation : list education;
  cvSkills : list jsstring;
  cvCertifications : list certification;
  cvProjects : list project;
  cvPublications : list publication;
  cvPatents : list patent;
  cvMeta : meta
}.

(** A country rule pack.  [page_limit] is [None] when the property is
    absent. *)
Record pack := {
  page_limit : option N;
  photo_allowed : bool;
  date_format : jsstring;
  spelling : jsstring;
  sections : list Js.jsval;
  notes : list Js.jsval
}.

End Doc.

(** ** lib/ats.js: the ATS linter *)

Module Ats.
Import Js Doc.

(** [STANDARD_HEADINGS]; the accented letters are written by code unit
    ([ä] 228, [É] 201, [é] 233). *)
Definition STANDARD_HEADINGS : gset jsstring :=
  list_to_set
    [ lit "Summary"; lit "Experience"; lit "Education"; lit "Skills";
      lit "Projects"; lit "Certifications";
      lit "Profil"; lit "Berufserfahrung"; lit "Ausbildung";
      lit "F" ++ [228] ++ lit "higkeiten";
      lit "Exp" ++ [233] ++ lit "rience";
      [201] ++ lit "ducation";
      lit "Comp" ++ [233] ++ lit "tences" ].

(** [function collectHeadings(cv)] *)
Definition collectHeadings (cv : CV) : list jsstring :=
  (if truthy (summary (cvProfile cv)) then [lit "Summary"] else [])
  ++ (if cvExperience cv is [] then [] else [lit "Experience"])
  ++ (if cvEducation cv is [] then [] else [lit "Education"])
  ++ (if cvSkills cv is [] then [] else [lit "Skills"])
  ++ (if cvProjects cv is [] then [] else [lit "Projects"])
  ++ (if cvCertifications cv is [] then [] else [lit "Certifications"]).

(** [function textContentFromCV(cv)] *)
Definition textContentFromCV (cv : CV) : jsstring :=
  let parts :=
    [name (cvProfile cv); title (cvProfile cv); summary (cvProfile cv)]
    ++ flat_map (fun e => company e :: role e :: bullets e) (cvExperience cv)
    ++ flat_map (fun ed => [institution ed; degree ed]) (cvEducation cv)
    ++ cvSkills cv in
  join [32] parts.

(** [text.split(/\s+/).filter(Boolean).length] *)
Definition wordCount (text : jsstring) : nat :=
  length (filterBoolean (splitRuns isSpace false text)).

(** [Math.max(1, Math.round(wordCount / 500))].  [Math.round] rounds to
    the nearest integer, a half upwards; on the quotient of a word count
    by 500 this is the integer [(wordCount + 250) / 500], the floating
    point division being exact at the halves and off by far less than
    [1/500] elsewhere. *)
Definition estimatedPages (wc : nat) : N :=
  N.max 1 ((N.of_nat wc + 250) / 500).

(** [countryPack.page_limit||2] *)
Definition effectiveLimit (p : pack) : N :=
  match page_limit p with
  | Some 0 | None => 2
  | Some n => n
  end.

(** Decimal digits of a number, as [String(n)] gives them. *)
Fixpoint digitsOf (u : Decimal.uint) : jsstring :=
  match u with
  | Decimal.Nil => []
  | Decimal.D0 r => 48 :: digitsOf r
  | Decimal.D1 r => 49 :: digitsOf r
  | Decimal.D2 r => 50 :: digitsOf r
  | Decimal.D3 r => 51 :: digitsOf r
  | Decimal.D4 r => 52 :: digitsOf r
  | Decimal.D5 r => 53 :: digitsOf r
  | Decimal.D6 r => 54 :: digitsOf r
  | Decimal.D7 r => 55 :: digitsOf r
  | Decimal.D8 r => 56 :: digitsOf r
  | Decimal.D9 r => 57 :: digitsOf r
  end.

Definition showN (n : N) : jsstring := digitsOf (N.to_uint n).

Definition showLimit (l : option N) : jsstring :=
  match l with Some n => showN n | None => lit "undefined" end.

(** [dateRegex = /(Jan|Feb|...|Dec)\s\d{4}|\d{2}\/\d{4}/] *)
Definition MONTHS : list jsstring :=
  map lit ["Jan"; "Feb"; "Mar"; "Apr"; "May"; "Jun"; "Jul"; "Aug"; "Sep";
           "Oct"; "Nov"; "Dec"]%string.

Fixpoint digitsAt (n : nat) (s : jsstring) : option jsstring :=
  match n with
  | O => Some s
  | S k => match s with
           | c :: r => if isDigit c then digitsAt k r else None
           | [] => None
           end
  end.

Definition dateAt (s : jsstring) : bool :=
  existsb (fun m => match afterPrefix m s with
                    | Some (c :: r) => isSpace c
                                       && bool_decide (is_Some (digitsAt 4 r))
                    | _ => false
                    end) MONTHS
  || match digitsAt 2 s with
     | Some (c :: r) => (c =? 47) && bool_decide (is_Some (digitsAt 4 r))
     | _ => false
     end.

Fixpoint dateRegex_test (s : jsstring) : bool :=
  dateAt s || match s with [] => false | _ :: r => dateRegex_test r end.

(** What the linter asks of the rendered preview:
    [querySelector('table')], [querySelector('img')] and
    [querySelectorAll('*').length]. *)
Record preview := {
  hasTable : bool;
  hasImage : bool;
  elementCount : N
}.

Section Lint.
(** [JSON.stringify(cv)] *)
Variable JSON_stringify : CV → jsstring.

(** [export function lintCV(cv, countryPack, htmlPreview)]; the
    warnings are the strings pushed, in order.  The hyphen of
    [Non‑standard] is U+2011, the dash of the three preview messages is
    U+2014. *)
Definition lintCV (cv : CV) (countryPack : pack)
    (htmlPreview : option preview) : list jsstring :=
  let wc := wordCount (textContentFromCV cv) in
  let estPages := estimatedPages wc in
  (if effectiveLimit countryPack <? estPages then
     [ lit "Estimated length " ++ showN estPages ++ lit " pages exceeds "
       ++ showLimit (page_limit countryPack) ++ lit " page limit for "
       ++ Doc.countryPack (cvMeta cv) ++ lit "." ]
   else [])
  ++ flat_map (fun h =>
       if bool_decide (h ∈ STANDARD_HEADINGS) then []
       else [lit "Non" ++ [8209] ++ lit "standard section heading: " ++ h])
       (collectHeadings cv)
  ++ (if dateRegex_test (JSON_stringify cv) then []
      else [lit "No standardized dates detected (e.g., " ++ [34]
            ++ lit "MMM YYYY" ++ [34] ++ lit " or " ++ [34]
            ++ lit "MM/YYYY" ++ [34] ++ lit ")."])
  ++ match htmlPreview with
     | None => []
     | Some h =>
         (if hasTable h
          then [lit "Tables detected " ++ [8212] ++ lit " remove for ATS."]
          else [])
         ++ (if hasImage h
             then [lit "Images detected " ++ [8212] ++ lit " remove for ATS."]
             else [])
         ++ (if 2000 <? elementCount h
             then [lit "Document is overly complex; simplify DOM."]
             else [])
     end.

End Lint.

End Ats.

(** ** main.js: country rule packs *)

Module Packs.
Import Js Doc.

(** [MMM YYYY–MMM YYYY] and [MM/YYYY–MM/YYYY]; the dash is U+2013. *)
Definition MMM_YYYY : jsstring := lit "MMM YYYY" ++ [8211] ++ lit "MMM YYYY".
Definition MM_YYYY : jsstring := lit "MM/YYYY" ++ [8211] ++ lit "MM/YYYY".

Definition strs (l : list jsstring) : list jsval := map JString l.

Definition englishSections : list jsval :=
  strs (map lit ["Summary"; "Experience"; "Education"; "Projects"; "Skills";
                 "Certifications"; "Publications"; "Patents"]%string).

(** [const DEFAULT_PACKS = {...}] as written in the source ([ä] 228,
    [é] 233, [É] 201, [ç] 231, the rupee sign 8377). *)
Definition BUILTIN_PACKS : gmap jsstring pack :=
  list_to_map
    [ (lit "UK",
       {| page_limit := Some 2; photo_allowed := false;
          date_format := MMM_YYYY; spelling := lit "en-GB";
          sections := englishSections;
          notes := strs [ lit "Avoid photos to reduce bias risk.";
                          lit "Single column layout. No tables.";
                          lit "Reverse chronological experience." ] |});
      (lit "US",
       {| page_limit := Some 1; photo_allowed := false;
          date_format := MMM_YYYY; spelling := lit "en-US";
          sections := englishSections;
          notes := strs [ lit "Early-career resumes typically 1 page.";
                          lit "Avoid headers/footers for key info.";
                          lit "Single column. No graphics." ] |});
      (lit "DE",
       {| page_limit := Some 2; photo_allowed := false;
          date_format := MM_YYYY; spelling := lit "de-DE";
          sections := strs [ lit "Profil"; lit "Berufserfahrung";
                             lit "Ausbildung"; lit "Projekte";
                             lit "F" ++ [228] ++ lit "higkeiten";
                             lit "Zertifikate"; lit "Publikationen";
                             lit "Patente" ];
          notes := strs [ lit "Photo is culturally common but optional. Keep off for ATS fairness.";
                          lit "List languages with CEFR levels (e.g., B2)." ] |});
      (lit "FR",
       {| page_limit := Some 2; photo_allowed := false;
          date_format := MM_YYYY; spelling := lit "fr-FR";
          sections := strs [ lit "Profil"; lit "Exp" ++ [233] ++ lit "rience";
                             [201] ++ lit "ducation"; lit "Projets";
                             lit "Comp" ++ [233] ++ lit "tences";
                             lit "Certifications"; lit "Publications";
                             lit "Brevets" ];
          notes := strs [ lit "Photo sometimes used; for ATS mode, keep off.";
                          lit "Use accents correctly (" ++ [233] ++ lit ", "
                            ++ [231] ++ lit ")." ] |});
      (lit "IN",
       {| page_limit := Some 2; photo_allowed := false;
          date_format := MMM_YYYY; spelling := lit "en-IN";
          sections := englishSections;
          notes := strs [ lit "Keep format ATS-simple; avoid images and tables.";
                          lit "Quantify impact (%, " ++ [8377]
                            ++ lit ", time saved)." ] |}) ].

(** The two bindings of main.js.  [const DEFAULT_PACKS] names an object;
    [let countryPacks = DEFAULT_PACKS] names the same object until
    [init] replaces it by the object parsed from
    [shared/country_packs.json].  [loadedPacks] is that second object,
    [None] while [countryPacks] is still [DEFAULT_PACKS] itself (the
    fetch of the JSON file failed). *)
Record store := {
  DEFAULT_PACKS : gmap jsstring pack;
  loadedPacks : option (gmap jsstring pack)
}.

(** The object that [countryPacks] denotes. *)
Definition countryPacks (st : store) : gmap jsstring pack :=
  default (DEFAULT_PACKS st) (loadedPacks st).

(** [countryPacks[country] = p] *)
Definition setCountryPack (country : jsstring) (p : pack) (st : store)
  : store :=
  match loadedPacks st with
  | Some m => {| DEFAULT_PACKS := DEFAULT_PACKS st;
                 loadedPacks := Some (<[country := p]> m) |}
  | None => {| DEFAULT_PACKS := <[country := p]> (DEFAULT_PACKS st);
               loadedPacks := None |}
  end.

(** The store once [init] has run [loadCountryPacks]. *)
Definition bootStore (fromJson : option (gmap jsstring pack)) : store :=
  {| DEFAULT_PACKS := BUILTIN_PACKS; loadedPacks := fromJson |}.

(** The remote spec, as [updateCountryPackFromGemini] reads it. *)
Record cvspec := {
  (** [spec.page_limit], [None] when [null] or absent *)
  spec_page_limit : option N;
  (** [!!spec.photo_allowed] *)
  spec_photo_allowed : bool;
  (** [spec.date_format] and [spec.spelling], empty when falsy *)
  spec_date_format : jsstring;
  spec_spelling : jsstring;
  (** [spec.section_order] and [spec.notes] when they are arrays *)
  spec_section_order : option (list jsval);
  spec_notes : option (list jsval)
}.

(** [await fetchCVSpecCloudLocal(...)]: the request or the parsing
    fails, or the body is [null], or it is read as a spec. *)
Inductive fetched :=
| FetchThrows
| FetchNull
| FetchSpec (spec : cvspec).

Definition need : list jsstring :=
  map lit ["Projects"; "Certifications"; "Publications"; "Patents"]%string.

Section WithHost.
Context `{Host}.

(** [out.some(x => String(x).toLowerCase()===s.toLowerCase())] *)
Definition hasSection (out : list jsval) (s : jsstring) : bool :=
  existsb (fun x => bool_decide (toLowerCase (toStr x) = toLowerCase s)) out.

(** [const ensureExtras = (arr) => {...}] *)
Definition ensureExtras (arr : list jsval) : list jsval :=
  fold_left (fun out s => if hasSection out s then out else out ++ [JString s])
            need arr.

(** [DEFAULT_PACKS[country]?.sections ?? DEFAULT_PACKS['UK'].sections];
    [None] when [DEFAULT_PACKS['UK']] is read and is not there. *)
Definition baseSections (st : store) (country : jsstring)
  : option (list jsval) :=
  match DEFAULT_PACKS st !! country with
  | Some d => Some (sections d)
  | None => sections <$> (DEFAULT_PACKS st !! lit "UK")
  end.

(** The pack built inside the [try] block. *)
Definition mergedPack (st : store) (country : jsstring) (spec : cvspec)
    (base : list jsval) : pack :=
  let dflt := DEFAULT_PACKS st !! country in
  let specSections :=
    match spec_section_order spec with
    | Some (x :: l) => x :: l
    | _ => base
    end in
  {| page_limit :=
       match spec_page_limit spec with
       | Some n => Some n
       | None => Some (default 2 (dflt ≫= page_limit))
       end;
     photo_allowed := spec_photo_allowed spec;
     date_format :=
       if truthy (spec_date_format spec) then spec_date_format spec
       else match dflt with Some d => date_format d | None => MMM_YYYY end;
     spelling :=
       if truthy (spec_spelling spec) then spec_spelling spec
       else match dflt with Some d => spelling d | None => lit "en-GB" end;
     sections := ensureExtras specSections;
     notes :=
       match spec_notes spec with
       | Some l => l
       | None => match dflt with Some d => notes d | None => [] end
       end |}.

(** [async function updateCountryPackFromGemini(country)]: every
    exception raised inside the [try] block is caught and leaves the
    store as it was. *)
Definition updateCountryPackFromGemini (country : jsstring) (res : fetched)
    (st : store) : store :=
  match res with
  | FetchThrows | FetchNull => st
  | FetchSpec spec =>
      match baseSections st country with
      | None => st
      | Some base => setCountryPack country (mergedPack st country spec base) st
      end
  end.

End WithHost.

End Packs.

(** ** main.js: the handlers that write bullets and skills *)

Module Editor.
Import Js Doc Sanitizers.

(** The document and the messages shown with [alert], oldest first. *)
Record editor := {
  doc : CV;
  alerts : list jsstring
}.

Definition withExperience (f : list experience → list experience)
    (ed : editor) : editor :=
  let cv := doc ed in
  {| doc := {| cvProfile := cvProfile cv;
               cvExperience := f (cvExperience cv);
               cvEducation := cvEducation cv;
               cvSkills := cvSkills cv;
               cvCertifications := cvCertifications cv;
               cvProjects := cvProjects cv;
               cvPublications := cvPublications cv;
               cvPatents := cvPatents cv;
               cvMeta := cvMeta cv |};
     alerts := alerts ed |}.

Definition withSkills (l : list jsstring) (ed : editor) : editor :=
  let cv := doc ed in
  {| doc := {| cvProfile := cvProfile cv;
               cvExperience := cvExperience cv;
               cvEducation := cvEducation cv;
               cvSkills := l;
               cvCertifications := cvCertifications cv;
               cvProjects := cvProjects cv;
               cvPublications := cvPublications cv;
               cvPatents := cvPatents cv;
               cvMeta := cvMeta cv |};
     alerts := alerts ed |}.

(** [alert(msg)] *)
Definition alert (msg : jsstring) (ed : editor) : editor :=
  {| doc := doc ed; alerts := alerts ed ++ [msg] |}.

Definition setBullets (bs : list jsstring) (e : experience) : experience :=
  {| company := company e; role := role e; expLocation := expLocation e;
     start := start e; end_ := end_ e; bullets := bs |}.

(** [CV.experience[idx].bullets = bs], for an entry that exists. *)
Definition commitBullets (idx : nat) (bs : list jsstring) (ed : editor)
  : editor :=
  withExperience (alter (setBullets bs) idx) ed.

(** The fields bound to the [input] elements of a card. *)
Inductive textField := Company | Role | Location | Start | End.

Definition setField (k : textField) (v : jsstring) (e : experience)
  : experience :=
  match k with
  | Company => {| company := v; role := role e; expLocation := expLocation e;
                  start := start e; end_ := end_ e; bullets := bullets e |}
  | Role => {| company := company e; role := v; expLocation := expLocation e;
               start := start e; end_ := end_ e; bullets := bullets e |}
  | Location => {| company := company e; role := role e; expLocation := v;
                   start := start e; end_ := end_ e; bullets := bullets e |}
  | Start => {| company := company e; role := role e;
                expLocation := expLocation e;
                start := v; end_ := end_ e; bullets := bullets e |}
  | End => {| company := company e; role := role e;
              expLocation := expLocation e;
              start := start e; end_ := v; bullets := bullets e |}
  end.

Definition isLF (c : N) : bool := c =? 10.

(** [value.split('\n').map(s=>s.trim()).filter(Boolean)] *)
Definition typedLines (value : jsstring) : list jsstring :=
  filterBoolean (map trim (splitOn isLF value)).

(** The [input] listener of the bullets textarea of card [idx].  When
    the entry is gone, the assignment raises and nothing changes. *)
Definition onBulletsInput (idx : nat) (value : jsstring) (ed : editor)
  : editor :=
  commitBullets idx (typedLines value) ed.

(** The [input] listener of the other inputs of card [idx]. *)
Definition onFieldInput (idx : nat) (k : textField) (value : jsstring)
    (ed : editor) : editor :=
  withExperience (alter (setField k value) idx) ed.

Definition emptyExperience : experience :=
  {| company := []; role := []; expLocation := []; start := []; end_ := [];
     bullets := [] |}.

(** [function addExperience(initial={})]: the entry pushed. *)
Definition addExperience (initial : experience) (ed : editor) : editor :=
  withExperience (fun l => l ++ [initial]) ed.

(** The [delete] button: [CV.experience.splice(idx,1)]. *)
Definition onDelete (idx : nat) (ed : editor) : editor :=
  withExperience (delete idx) ed.

(** The three tiers of the rewrite action. *)
Inductive tier := OnDeviceRewriter | RemoteRewrite | RemoteWriter.

(** What the on-device tier does: [ensureRewriter] raises, or the
    promise of [rewriter.rewrite] is rejected (and [.catch(()=>original)]
    answers in its place), or it is fulfilled with a text. *)
Inductive deviceOutcome :=
| EnsureThrows
| RewriteRejects
| RewriteReturns (text : jsstring).

(** What a call of [rewriteCloudLocal] or [writeCloudLocal] does. *)
Inductive remoteOutcome :=
| RemoteThrows
| RemoteReturns (text : jsstring).

Record backends := {
  device : deviceOutcome;
  cloudRewrite : remoteOutcome;
  cloudWrite : remoteOutcome
}.

Definition REWRITER_FAILED : jsstring := lit "Rewriter failed.".

Section WithHost.
Context `{Host}.

(** [sanitizeBulletList(String(improved || original).split('\n')
      .map(s=>s.trim()).filter(Boolean))] *)
Definition candidate (improved original : jsstring) : list jsstring :=
  sanitizeBulletList (typedLines (orElse improved original)).

(** [if (out.length) { CV.experience[idx].bullets = out; ...; return; }] *)
Definition commitIfAny (idx : nat) (out : list jsstring) (ed : editor)
  : editor :=
  match out with
  | [] => ed
  | _ :: _ => commitBullets idx out ed
  end.

(** The [rewrite] button of card [idx]: the tiers invoked, in order, and
    the editor afterwards.  When the entry is gone, reading its bullets
    raises before any tier is tried.  The handler is taken as a whole: no
    other listener runs while it waits for a backend. *)
Definition onRewrite (idx : nat) (b : backends) (ed : editor)
  : list tier * editor :=
  match cvExperience (doc ed) !! idx with
  | None => ([], ed)
  | Some e =>
      let original := join [10] (bullets e) in
      match device b with
      | RewriteReturns improved =>
          ([OnDeviceRewriter], commitIfAny idx (candidate improved original) ed)
      | RewriteRejects =>
          ([OnDeviceRewriter], commitIfAny idx (candidate original original) ed)
      | EnsureThrows =>
          match cloudRewrite b with
          | RemoteReturns improved =>
              ([OnDeviceRewriter; RemoteRewrite],
               commitIfAny idx (candidate improved original) ed)
          | RemoteThrows =>
              match cloudWrite b with
              | RemoteReturns viaWriter =>
                  ([OnDeviceRewriter; RemoteRewrite; RemoteWriter],
                   commitIfAny idx (candidate viaWriter original) ed)
              | RemoteThrows =>
                  ([OnDeviceRewriter; RemoteRewrite; RemoteWriter],
                   alert REWRITER_FAILED ed)
              end
          end
      end
  end.

(** What [onGenerateFromJD] meets: no job text, bullets from the prompt
    session, bullets from the proxy after the session failed, or both
    failing. *)
Inductive generated :=
| NoJobText
| FromSession (bullets : list jsstring)
| FromProxy (bullets : list jsstring)
| GenerationFails.

Definition PASTE_FIRST : jsstring := lit "Paste a job description first.".
Definition NO_PROMPT : jsstring :=
  lit "Prompt API not available and local cloud fallback failed.".

(** [function onGenerateFromJD(idx, wrap)]: with the entry gone, both
    [try] blocks raise and the last [catch] alerts. *)
Definition onGenerateFromJD (idx : nat) (g : generated) (ed : editor)
  : editor :=
  match g with
  | NoJobText => alert PASTE_FIRST ed
  | GenerationFails => alert NO_PROMPT ed
  | FromSession out | FromProxy out =>
      match cvExperience (doc ed) !! idx with
      | None => alert NO_PROMPT ed
      | Some _ => commitBullets idx (sanitizeBulletList out) ed
      end
  end.

(** [async function proofreadBulletsSafe(list, localeTag)]; [corrected j b]
    is the text of bullet [j] once the two proofreaders have run. *)
Definition proofreadBulletsSafe (corrected : nat → jsstring → jsstring)
    (l : list jsstring) : list jsstring :=
  sanitizeBulletList (imap (fun j b => sanitizeBulletLine (corrected j b)) l).

(** The bullets part of the [// Experience] loop of [onProofreadAll] for
    one entry. *)
Definition proofreadEntry (corrected : nat → jsstring → jsstring)
    (e : experience) : experience :=
  match bullets e with
  | [] => e
  | beforeList =>
      let afterList := proofreadBulletsSafe corrected beforeList in
      if bool_decide (join [10] afterList = join [10] beforeList) then e
      else setBullets afterList e
  end.

(** The same for every entry; [corrected i] serves entry [i]. *)
Definition onProofreadBullets (corrected : nat → nat → jsstring → jsstring)
    (ed : editor) : editor :=
  withExperience (imap (fun i e => proofreadEntry (corrected i) e)) ed.

End WithHost.

(** *** Skills *)

(** The prompt session of [normalizeSkillsAI]: not available or
    failing, or answering JSON whose [skills] is an array, or answering
    something else: text that does not parse, [null], or a value without
    an array under [skills]; the inner [catch] ignores what is raised
    and the writer is asked. *)
Inductive promptAnswer :=
| PromptUnavailable
| PromptSkills (items : list jsval)
| PromptUnusable.

(** [writeCloudLocal] in [normalizeSkillsAI]: it raises; or the answer
    parses to an array (or to a value whose [skills] is one); or it
    parses to another value that is not [null], and no item is taken;
    or it is split as text, because it does not parse or because it
    parses to [null], on which reading [parsed.skills] raises inside the
    inner [try]. *)
Inductive writerAnswer :=
| WriterThrows
| WriterArray (items : list jsval)
| WriterOtherJson
| WriterText (text : jsstring).

(** [[...new Set(arr.map(s => String(s).trim()).filter(Boolean))]] *)
Definition distinctTrimmed (arr : list jsval) : list jsstring :=
  uniq (filterBoolean (map (fun v => trim (toStr v)) arr)).

(** [/[\n,]+/] *)
Definition isLineOrComma (c : N) : bool := (c =? 10) || (c =? 44).

(** [s.replace(/^[-•]\s*/, '')] *)
Definition stripDash (s : jsstring) : jsstring :=
  match s with
  | c :: r => if (c =? 45) || (c =? 8226) then stripStart isSpace r else s
  | [] => s
  end.

(** [const normalizeSkillsAI = async (rawText) => {...}] *)
Definition normalizeSkillsAI (p : promptAnswer) (w : writerAnswer)
    (rawText : jsstring) : list jsstring :=
  let input := trim rawText in
  if negb (truthy input) then []
  else
    match p with
    | PromptSkills items => distinctTrimmed items
    | _ =>
        match w with
        | WriterArray items => distinctTrimmed items
        | WriterOtherJson => distinctTrimmed []
        | WriterText text =>
            distinctTrimmed
              (map JString
                 (filterBoolean
                    (map (fun s => stripDash (trim s))
                         (splitRuns isLineOrComma false text))))
        | WriterThrows => Skills.tokenizeSkills input
        end
    end.

(** [const normalizeAndGroupSkills = async (raw) => {...}], up to the
    assignment of [CV.skills]; [superseded] tells that a later call took
    a newer task id while this one waited. *)
Definition normalizeAndGroupSkills (superseded : bool) (p : promptAnswer)
    (w : writerAnswer) (raw : jsstring) (ed : editor) : editor :=
  if superseded then ed
  else withSkills (normalizeSkillsAI p w raw) ed.

(** *** The editing session *)

Definition emptyCV : CV :=
  {| cvProfile := {| name := []; title := []; location := [];
                     contactInfo := {| email := []; phone := [];
                                       website := []; linkedin := [];
                                       github := [] |};
                     summary := [] |};
     cvExperience := []; cvEducation := []; cvSkills := [];
     cvCertifications := []; cvProjects := []; cvPublications := [];
     cvPatents := [];
     cvMeta := {| countryPack := lit "UK"; atsStrict := true;
                  locale := lit "auto" |} |}.

(** The entry that [init] seeds. *)
Definition seedExperience : experience :=
  {| company := lit "Acme Corp"; role := lit "Frontend Engineer";
     expLocation := lit "London, UK"; start := lit "Jan 2022";
     end_ := lit "Present";
     bullets :=
       [lit "Shipped performance improvements that reduced LCP by 22%."] |}.

Definition initial : editor :=
  addExperience seedExperience {| doc := emptyCV; alerts := [] |}.

(** The events of a session that write the experience entries or the
    skills; each carries what the backends answered while its handler
    ran.  [idx] is the index that the card captured when it was added,
    which after a deletion need not be the position of its entry. *)
Inductive event :=
| AddExperience
| FieldInput (idx : nat) (k : textField) (value : jsstring)
| BulletsInput (idx : nat) (value : jsstring)
| Delete (idx : nat)
| Rewrite (idx : nat) (b : backends)
| Generate (idx : nat) (g : generated)
| ProofreadBullets (corrected : nat → nat → jsstring → jsstring)
| SkillsInput (superseded : bool) (p : promptAnswer) (w : writerAnswer)
              (raw : jsstring).

Section Session.
Context `{Host}.

Definition step (ev : event) (ed : editor) : editor :=
  match ev with
  | AddExperience => addExperience emptyExperience ed
  | FieldInput idx k value => onFieldInput idx k value ed
  | BulletsInput idx value => onBulletsInput idx value ed
  | Delete idx => onDelete idx ed
  | Rewrite idx b => snd (onRewrite idx b ed)
  | Generate idx g => onGenerateFromJD idx g ed
  | ProofreadBullets corrected => onProofreadBullets corrected ed
  | SkillsInput superseded p w raw =>
      normalizeAndGroupSkills superseded p w raw ed
  end.

(** The states of a session: [initial], followed by events. *)
Inductive reachable : editor → Prop :=
| reachable_initial : reachable initial
| reachable_step ev ed : reachable ed → reachable (step ev ed).

End Session.

End Editor.

(** ** A runtime for closed examples

    Case mapping and character classes on Basic Latin and Latin-1, where
    they agree with the ECMAScript functions; code units outside that
    range are left alone, resp. classified as neither letter nor digit.
    [localeCompare] orders by lower-cased code units, lower case first
    among equals.  The examples below only use inputs of that range. *)

Module Latin1.
Import Js.

Definition lowerUnit (c : N) : N :=
  if isUpperAZ c then c + 32
  else if (192 <=? c) && (c <=? 222) && negb (c =? 215) then c + 32
  else c.

Definition letterOrNumber (c : N) : bool :=
  isUpperAZ c || isLowerAZ c || isDigit c
  || (c =? 170) || (c =? 178) || (c =? 179) || (c =? 181) || (c =? 185)
  || (c =? 186) || ((188 <=? c) && (c <=? 190))
  || ((192 <=? c) && (c <=? 255) && negb (c =? 215) && negb (c =? 247)).

Fixpoint lexCompare (a b : jsstring) : Z :=
  match a, b with
  | [], [] => 0
  | [], _ :: _ => -1
  | _ :: _, [] => 1
  | x :: a', y :: b' =>
      if x <? y then -1 else if y <? x then 1 else lexCompare a' b'
  end.

Definition compareStrings (a b : jsstring) : Z :=
  match lexCompare (map lowerUnit a) (map lowerUnit b) with
  | 0%Z => lexCompare b a
  | z => z
  end.

Definition host : Host :=
  {| toLowerCase := map lowerUnit;
     isLetterOrNumber := letterOrNumber;
     localeCompare := compareStrings |}.

End Latin1.


(** ** lib/templates.js: the rendering of the text of a CV *)

Module Templates.
Import Js Doc.

(** The class of [escapeHtml]: ampersand, the two angle brackets, the
    double quote and the apostrophe. *)
Definition isHtmlSpecial (c : N) : bool :=
  (c =? 38) || (c =? 60) || (c =? 62) || (c =? 34) || (c =? 39).

(** The replacement function of [escapeHtml]: the entity of a character
    of the class. *)
Definition escapeChar (c : N) : jsstring :=
  if c =? 38 then lit "&amp;"
  else if c =? 60 then lit "&lt;"
  else if c =? 62 then lit "&gt;"
  else if c =? 34 then lit "&quot;"
  else if c =? 39 then lit "&#39;"
  else [c].

(** [function escapeHtml(s)] *)
Definition escapeHtml (s : jsstring) : jsstring := flat_map escapeChar s.

(** [function safeContact(s)] *)
Definition safeContact (s : jsstring) : jsstring :=
  let v := trim s in
  if truthy v then escapeHtml v else [].

(** The separators of the templates: a bullet, an en dash and an em dash
    between two spaces. *)
Definition SEP_BULLET : jsstring := [32; 8226; 32].
Definition SEP_EN_DASH : jsstring := [32; 8211; 32].
Definition SEP_EM_DASH : jsstring := [32; 8212; 32].

(** The opening tags of an item and of a section: a [div] whose class,
    between double quotes, is [item] or [section]. *)
Definition DIV_ITEM : jsstring :=
  lit "<div class=" ++ [34] ++ lit "item" ++ [34] ++ lit ">".
Definition DIV_SECTION : jsstring :=
  lit "<div class=" ++ [34] ++ lit "section" ++ [34] ++ lit ">".

(** The list of bullets of an entry: [<ul>], an [<li>] for each bullet,
    [</ul>]; nothing for an entry without bullets. *)
Definition renderBullets (bs : list jsstring) : jsstring :=
  match bs with
  | [] => []
  | _ :: _ =>
      lit "<ul>"
      ++ concat (map (fun b => lit "<li>" ++ escapeHtml b ++ lit "</li>") bs)
      ++ lit "</ul>"
  end.

(** [dates] of an entry *)
Definition renderDates (from to : jsstring) : jsstring :=
  escapeHtml from ++ SEP_EN_DASH ++ escapeHtml to.

(** The row of an entry in [renderExperience]; the template starts and
    ends with a line feed and its lines are indented by 6, 8, 8, 8, 6
    and 4 spaces. *)
Definition experienceRow (it : experience) : jsstring :=
  let role := escapeHtml (role it) in
  let company := escapeHtml (company it) in
  let loc := if truthy (expLocation it)
             then SEP_BULLET ++ escapeHtml (expLocation it) else [] in
  [10] ++ lit "      " ++ DIV_ITEM
  ++ [10] ++ lit "        <div><strong>" ++ role ++ lit "</strong>"
  ++ (if truthy company then SEP_EM_DASH ++ company else [])
  ++ loc ++ lit "</div>"
  ++ [10] ++ lit "        <div>" ++ renderDates (start it) (end_ it)
  ++ lit "</div>"
  ++ [10] ++ lit "        " ++ renderBullets (bullets it)
  ++ [10] ++ lit "      </div>"
  ++ [10] ++ lit "    ".

(** [function renderExperience(items = [])] *)
Definition renderExperience (items : list experience) : jsstring :=
  match items with
  | [] => []
  | _ :: _ =>
      DIV_SECTION ++ lit "<h2>Experience</h2>"
      ++ concat (map experienceRow items) ++ lit "</div>"
  end.

Definition educationRow (it : education) : jsstring :=
  let degree := escapeHtml (degree it) in
  let inst := escapeHtml (institution it) in
  [10] ++ lit "      " ++ DIV_ITEM
  ++ [10] ++ lit "        <div><strong>" ++ degree ++ lit "</strong>"
  ++ (if truthy inst then SEP_EM_DASH ++ inst else [])
  ++ lit "</div>"
  ++ [10] ++ lit "        <div>" ++ renderDates (eduStart it) (eduEnd it)
  ++ lit "</div>"
  ++ [10] ++ lit "      </div>"
  ++ [10] ++ lit "    ".

(** [function renderEducation(items = [])] *)
Definition renderEducation (items : list education) : jsstring :=
  match items with
  | [] => []
  | _ :: _ =>
      DIV_SECTION ++ lit "<h2>Education</h2>"
      ++ concat (map educationRow items) ++ lit "</div>"
  end.

(** The row of a project that is an object, as the cards make them. *)
Definition projectRow (p : project) : jsstring :=
  let name := escapeHtml (projName p) in
  let link := if truthy (projLink p)
              then SEP_EM_DASH ++ escapeHtml (projLink p) else [] in
  [10] ++ lit "      " ++ DIV_ITEM
  ++ [10] ++ lit "        <div><strong>" ++ name ++ lit "</strong>"
  ++ link ++ lit "</div>"
  ++ [10] ++ lit "        " ++ renderBullets (projBullets p)
  ++ [10] ++ lit "      </div>"
  ++ [10] ++ lit "    ".

(** [function renderProjects(items = [])] *)
Definition renderProjects (items : list project) : jsstring :=
  match items with
  | [] => []
  | _ :: _ =>
      DIV_SECTION ++ lit "<h2>Projects</h2>"
      ++ concat (map projectRow items) ++ lit "</div>"
  end.

End Templates.

(** ** dev-proxy.mjs: what the proxy makes of the model's answers *)

Module Proxy.
Import Js Skills.





(** What [geminiJSON] returns to [/api/bulletsFromJD]: a string; or a
    value whose [bullets] and [skills] are read, each an array or not;
    [null] and the other values have neither. *)
Inductive answer :=
| AnswerString (s : jsstring)
| AnswerObject (bullets skills : option (list jsval)).

(** [.slice(0,n).map(s=>String(s).trim()).filter(Boolean)] *)
Definition firstTrimmed (n : nat) (l : list jsval) : list jsstring :=
  filterBoolean (map (fun v => trim (toStr v)) (take n l)).

(** The body that [/api/bulletsFromJD] answers with: its [bullets] and
    its [skills]. *)
Definition bulletsFromJD (raw : answer) : list jsstring * list jsstring :=
  let bullets :=
    match raw with
    | AnswerObject (Some l) _ => l
    | _ => []
    end in
  let skills :=
    match raw with
    | AnswerObject _ (Some l) => l
    | _ => []
    end in
  let bullets :=
    match bullets, raw with
    | [], AnswerString s =>
        map JString
          (take 6 (filterBoolean (map trim (splitOn (N.eqb 10) s))))
    | _, _ => bullets
    end in
  (firstTrimmed 6 bullets, firstTrimmed 12 skills).

End Proxy.

(** ** main.js: proofreading *)

Module Review.
Import Js Doc Sanitizers Editor.

(** [function norm(s)] of main.js:
    [String(s ?? '').replace(/\s+/g, ' ').trim()] *)
Definition norm (s : jsstring) : jsstring := trim (collapseSpaces s).

(** [/^en(-|$)/i.test(localeTag)] *)
Definition isEnglishTag (tag : jsstring) : bool :=
  match prefixCI (lit "en") tag with
  | Some [] => true
  | Some (c :: _) => c =? 45
  | None => false
  end.

(** What the on-device proofreader does: [ensureProofreader] or
    [proofread] raises, or the answer is there; [corrected] is
    [r?.corrected], empty when the answer has none. *)
Inductive proofAnswer :=
| ProofThrows
| ProofAnswers (corrected : jsstring).

(** The three tiers of [proofreadSmart]: the on-device proofreader,
    [proofreadCloudLocal] and [writeCloudLocal]. *)
Record proofBackends := {
  deviceProof : proofAnswer;
  cloudProof : remoteOutcome;
  writerFix : remoteOutcome
}.

(** The [source] of the result of [proofreadSmart]. *)
Inductive proofSource :=
| SourceNone | SourceDevice | SourceCloud | SourceWriter | SourceOriginal.

(** [out && norm(out) !== norm(input)] *)
Definition changed (out input : jsstring) : bool :=
  truthy out && negb (bool_decide (norm out = norm input)).

(** A remote tier of [proofreadSmart] and of [normalizeDialect]: the
    answer, when the call returns and the answer is a change. *)
Definition acceptRemote (o : remoteOutcome) (input : jsstring)
  : option jsstring :=
  match o with
  | RemoteReturns out => if changed out input then Some (stripMeta out)
                         else None
  | RemoteThrows => None
  end.

(** [async function proofreadSmart(text, { localeTag, aggressive })]:
    [corrected] and [source] of the result. *)
Definition proofreadSmart (b : proofBackends) (aggressive : bool)
    (text : jsstring) : jsstring * proofSource :=
  let input := trim text in
  if negb (truthy input) then ([], SourceNone)
  else
    match
      match deviceProof b with
      | ProofAnswers corrected =>
          if changed corrected input
          then Some (stripMeta corrected, SourceDevice)
          else if negb aggressive
          then Some (stripMeta (orElse corrected input), SourceDevice)
          else None
      | ProofThrows => None
      end
    with
    | Some r => r
    | None =>
        match acceptRemote (cloudProof b) input with
        | Some corrected => (corrected, SourceCloud)
        | None =>
            match acceptRemote (writerFix b) input with
            | Some fixed => (fixed, SourceWriter)
            | None => (input, SourceOriginal)
            end
        end
    end.

(** [async function normalizeDialect(text, localeTag)]; [device] is the
    on-device writer, [cloud] is [writeCloudLocal]. *)
Definition normalizeDialect (device cloud : remoteOutcome)
    (localeTag text : jsstring) : jsstring :=
  if negb (isEnglishTag localeTag) then text
  else
    match acceptRemote device text with
    | Some out => out
    | None =>
        match acceptRemote cloud text with
        | Some out => out
        | None => text
        end
    end.

(** The backends that one call of [fixStringField] meets. *)
Record fixBackends := {
  proofTiers : proofBackends;
  dialectDevice : remoteOutcome;
  dialectCloud : remoteOutcome
}.

(** [const fixStringField = async (value, doDialect = true) => {...}],
    called with [doDialect] true. *)
Definition fixStringField (f : fixBackends) (localeTag value : jsstring)
  : jsstring :=
  normalizeDialect (dialectDevice f) (dialectCloud f) localeTag
    (fst (proofreadSmart (proofTiers f) true value)).

Section WithHost.
Context `{Host}.

(** A field that is not empty, proofread as [onProofreadAll] does for
    the title, a degree, a project name and the fields of the
    certifications, publications and patents:
    [sanitizeTitleText(await fixStringField(before, true), before)],
    stored when it differs. *)
Definition proofreadField (f : fixBackends) (localeTag before : jsstring)
  : jsstring :=
  if truthy before then
    let after := sanitizeTitleText (fixStringField f localeTag before) before in
    if bool_decide (after = before) then before else after
  else before.

(** [async function proofreadRoleSafe(text, localeTag)] *)
Definition proofreadRoleSafe (device : proofAnswer) (cloud : remoteOutcome)
    (text : jsstring) : jsstring :=
  let original := text in
  let out :=
    match device with
    | ProofAnswers corrected => orElse corrected original
    | ProofThrows => original
    end in
  let out :=
    if bool_decide (out = original) then
      match cloud with
      | RemoteReturns corrected => orElse corrected out
      | RemoteThrows => out
      end
    else out in
  sanitizeRoleText out original.

(** The role part of the [// Experience] loop of [onProofreadAll] for
    one entry. *)
Definition proofreadRole (device : proofAnswer) (cloud : remoteOutcome)
    (e : experience) : experience :=
  if truthy (role e) then
    let safe := proofreadRoleSafe device cloud (role e) in
    if bool_decide (safe = role e) then e else setField Role safe e
  else e.

End WithHost.

End Review.

(* ================================================================== *)
(** * The project cards of main.js *)

Module Projects.
Import Js Doc Sanitizers Editor.










Section WithHost.
Context `{Host}.





End WithHost.


Section Session.
Context `{Host}.



End Session.

End Projects.
(** ** Notions used by the statements and proofs *)

Import Js Sanitizers Doc Ats Editor Packs Skills Templates Proxy Projects.






Definition noBackend : backends :=
  {| device := EnsureThrows; cloudRewrite := RemoteThrows;
     cloudWrite := RemoteThrows |}.

(** A bullet line as every handler leaves it: not empty, and without a
    line feed. *)
Definition lineOK (b : jsstring) : Prop := b ≠ [] ∧ 10 ∉ b.

(** The events whose bullets come from an AI backend. *)
Definition aiEvent (ev : event) : bool :=
  match ev with
  | Rewrite _ _ | Generate _ _ | ProofreadBullets _ => true
  | _ => false
  end.

(** The rewriter answers with a space between two apostrophes. *)
Definition quotedSpace : backends :=
  {| device := RewriteReturns (lit "' '");
     cloudRewrite := RemoteThrows;
     cloudWrite := RemoteThrows |}.

(** A bullet of 23 words, typed into the textarea. *)
Definition longBullet : jsstring :=
  lit "one two three four five six seven eight nine ten eleven twelve thirteen fourteen fifteen sixteen seventeen eighteen nineteen twenty twentyone twentytwo twentythree".

(** Every bullet of every entry is a line as above. *)
Definition entriesOK (l : list experience) : Prop :=
  Forall (λ e, Forall lineOK (bullets e)) l.

(** The estimate as the specification words it: [ceil(wc / 500)], at
    least 1. *)
Definition specEstimatedPages (wc : nat) : N :=
  N.max 1 ((N.of_nat wc + 499) / 500).

(** A document of 1100 words. *)
Definition cv1100 : CV :=
  Editor.doc (Editor.withSkills (replicate 1100 (lit "word"))
         {| Editor.doc := Editor.emptyCV; Editor.alerts := [] |}).

Definition usPack : pack :=
  {| page_limit := Some 1; photo_allowed := false;
     date_format := Packs.MMM_YYYY; spelling := lit "en-US";
     sections := Packs.englishSections; notes := [] |}.

Definition PAGE_PREFIX : jsstring := lit "Estimated length ".
Definition HEADING_PREFIX : jsstring :=
  lit "Non" ++ [8209] ++ lit "standard section heading: ".

(** The page-limit message of [lintCV]. *)
Definition pageWarning (cv : CV) (p : pack) : jsstring :=
  lit "Estimated length "
  ++ showN (estimatedPages (wordCount (textContentFromCV cv)))
  ++ lit " pages exceeds " ++ showLimit (page_limit p)
  ++ lit " page limit for " ++ Doc.countryPack (cvMeta cv) ++ lit ".".


(** The warnings of [lintCV] that follow the heading rule. *)
Definition laterWarnings (JSON_stringify : CV → jsstring) (cv : CV)
    (html : option preview) : list jsstring :=
  (if dateRegex_test (JSON_stringify cv) then []
   else [lit "No standardized dates detected (e.g., " ++ [34]
         ++ lit "MMM YYYY" ++ [34] ++ lit " or " ++ [34]
         ++ lit "MM/YYYY" ++ [34] ++ lit ")."])
  ++ match html with
     | None => []
     | Some h =>
         (if hasTable h
          then [lit "Tables detected " ++ [8212] ++ lit " remove for ATS."]
          else [])
         ++ (if hasImage h
             then [lit "Images detected " ++ [8212] ++ lit " remove for ATS."]
             else [])
         ++ (if 2000 <? elementCount h
             then [lit "Document is overly complex; simplify DOM."]
             else [])
     end.

(** The role candidate of the regression test. *)
Definition ROLE_CANDIDATE : jsstring :=
  lit "Developed and led a team of 5 engineers to improve throughput".


(** The candidate of [sanitizeTitleText] when its action-verb test is
    made: the first clause of the input made one line, cut to
    [MAX_TITLE_WORDS] words, its trailing punctuation removed. *)
Definition titleCandidate (next : jsstring) : jsstring :=
  trim (stripTrailPunct
          (capWords (firstClause (sanitizeOneLine next)) MAX_TITLE_WORDS)).

(** A code unit that the character filter of the two sanitizers keeps
    wherever it stands: allowed, and not the first half of a pair. *)
Definition plainFieldChar `{Host} (c : N) : bool :=
  isFieldChar c && negb (isHighSurrogate c).
(** Every white-space character is a single space and no two of them are
    adjacent; [prevSpace] tells that a space precedes [s]. *)
Fixpoint tidy (prevSpace : bool) (s : jsstring) : bool :=
  match s with
  | [] => true
  | c :: r =>
      if isSpace c then (c =? 32) && negb prevSpace && tidy true r
      else tidy false r
  end.

(** The sections that the source holds for a country in its literal
    [DEFAULT_PACKS], those of [UK] for a country it does not list. *)
Definition builtinSections (country : jsstring) : list jsval :=
  match BUILTIN_PACKS !! country with
  | Some d => sections d
  | None => englishSections
  end.

(** A spec without [section_order], or with an empty one. *)
Definition lacksSectionOrder (spec : cvspec) : bool :=
  match spec_section_order spec with
  | Some (_ :: _) => false
  | _ => true
  end.

(** A remote spec that only gives a page limit. *)
Definition bareSpec : cvspec :=
  {| spec_page_limit := Some 1; spec_photo_allowed := false;
     spec_date_format := []; spec_spelling := [];
     spec_section_order := None; spec_notes := None |}.

(** A remote spec with a section order of its own. *)
Definition shortSpec : cvspec :=
  {| spec_page_limit := None; spec_photo_allowed := false;
     spec_date_format := []; spec_spelling := [];
     spec_section_order := Some (strs [lit "Summary"; lit "PROJECTS"]);
     spec_notes := None |}.

(** Two resolutions for UK in a session whose JSON file of packs could
    not be loaded: the first answered by [shortSpec], the second by
    [bareSpec]. *)
Definition afterShortSpec : store :=
  @updateCountryPackFromGemini Latin1.host (lit "UK") (FetchSpec shortSpec)
    (bootStore None).

Definition afterBareSpec : store :=
  @updateCountryPackFromGemini Latin1.host (lit "UK") (FetchSpec bareSpec)
    afterShortSpec.

Section PackNotions.
Context `{Host}.

(** The stores of a session: the store after [init], then any number of
    resolutions. *)
Inductive reachableStore : store → Prop :=
| reachable_boot fromJson : reachableStore (bootStore fromJson)
| reachable_update st country res :
    reachableStore st →
    reachableStore (updateCountryPackFromGemini country res st).

(** One turn of the loop of [ensureExtras]. *)
Definition addExtra (out : list jsval) (s : jsstring) : list jsval :=
  if hasSection out s then out else out ++ [JString s].

End PackNotions.

(** The bucket of a category. *)
Definition bucketOf {V} (m : gmap jsstring (list V)) (k : jsstring)
  : list V := default [] (m !! k).

(** The number of grouped entries, all categories together. *)
Definition groupedTotal {V} (m : gmap jsstring (list V)) : nat :=
  sum_list (map (λ k, length (bucketOf m k)) ORDER).

(** The two all-lower-case keys that [PRETTY[k]] finds on
    [Object.prototype]. *)
Definition inheritedKey (n : jsstring) : bool :=
  bool_decide (n = lit "constructor") || bool_decide (n = lit "__proto__").

(** A skill that is in no list of [CATS_LOCAL] and matches neither
    pattern of [detectLocalCategory]. *)
Definition matchesNoCategory (n : jsstring) : bool :=
  negb (existsb (λ cl, listIncludes n (snd cl)) CATS_LOCAL)
  && negb (altFrom afterPrefix [lit "sql"; lit "nosql"] false n)
  && negb (altFrom afterPrefix [lit "ci/cd"] false n).

Section SkillNotions.
Context `{Host}.

(** The distinct non-empty normal forms of a list of skills. *)
Definition distinctNorms (raw : list jsstring) : gset jsstring :=
  list_to_set (filterBoolean (map norm raw)).

(** What the first loop of [groupSkillsLocal] maintains, [raw] being the
    skills read so far. *)
Definition bucketsInv (raw : list jsstring)
    (st : gset jsstring * gmap jsstring (list skillval)) : Prop :=
  fst st = distinctNorms raw
  ∧ groupedTotal (snd st) = size (fst st)
  ∧ (∀ s, s ∈ raw → norm s ≠ [] →
       ∃ s', s' ∈ raw ∧ norm s' = norm s
             ∧ pretty s' ∈ bucketOf (snd st) (detectLocalCategory (norm s)))
  ∧ (∀ k v, v ∈ bucketOf (snd st) k →
       ∃ s', s' ∈ raw ∧ v = pretty s' ∧ norm s' ≠ []
             ∧ k = detectLocalCategory (norm s')).

End SkillNotions.

(** The skills of the example of the specification. *)
Definition exampleSkills : list jsstring :=
  map lit ["JavaScript"; "javascript"; "Postgres"; "postgres"]%string.

(** An answer of the model with two spellings of one skill. *)
Definition twoSpellings : parsed :=
  ParsedObject
    {[ lit "Programming" :=
         FArray [JString (lit "JavaScript"); JString (lit "javascript")] ]}.

(** The number of maximal runs of characters outside the class [p];
    [inTok] tells that the character before [s] is outside [p]. *)
Fixpoint countRuns (p : N → bool) (inTok : bool) (s : jsstring) : nat :=
  match s with
  | [] => 0
  | c :: r =>
      if p c then countRuns p false r
      else (if inTok then 0 else 1) + countRuns p true r
  end.

(** The only white-space character of [s] is the space. *)
Definition onlySp (s : jsstring) : Prop :=
  Forall (λ c, isSpace c = true → c = 32) s.

(** Every character of [t] occurs in [s] or is a space. *)
Definition fromOrSp (s t : jsstring) : Prop :=
  ∀ c, c ∈ t → c ∈ s ∨ c = 32.

(** [t] is a contiguous part of [s]. *)
Definition within (t s : jsstring) : Prop := ∃ k1 k2, s = k1 ++ t ++ k2.

(** Words without white space, none empty. *)
Definition cleanWords (ws : list jsstring) : Prop :=
  Forall (λ w, w ≠ [] ∧ Forall (λ c, isSpace c = false) w) ws.

(** [thinned p t s]: [t] is [s] with some characters outside the class
    [p] removed. *)
Inductive thinned (p : N → bool) : jsstring → jsstring → Prop :=
| thinned_nil : thinned p [] []
| thinned_keep c t s : thinned p t s → thinned p (c :: t) (c :: s)
| thinned_drop c t s : p c = false → thinned p t s → thinned p t (c :: s).

(** A code unit of a surrogate pair. *)
Definition isSurrogate (c : N) : bool :=
  isHighSurrogate c || isLowSurrogate c.
(** The card that an event comes from, for the events of a card that
    write its entry in place. *)
Definition cardIndex (ev : event) : option nat :=
  match ev with
  | FieldInput idx _ _ | BulletsInput idx _ | Rewrite idx _
  | Generate idx _ => Some idx
  | _ => None
  end.

(** Three cards: the seeded one, then one for company B, then an empty
    one. *)
Definition threeCards : editor :=
  @step Latin1.host AddExperience
    (@step Latin1.host (FieldInput 1 Company (lit "B"))
       (@step Latin1.host AddExperience initial)).
(** The number of occurrences of a code unit in a string. *)
Definition occurrences (c : N) (s : jsstring) : nat :=
  length (List.filter (N.eqb c) s).

(** The tags of a list of [n] bullets: none without bullets, else the
    two of the list and two for each bullet. *)
Definition listTags (n : nat) : nat :=
  match n with O => 0 | S _ => 2 + 2 * n end.

(** An entry as the proxy and the skills box leave it: not empty, and
    without white space at its ends. *)
Definition trimmedEntry (s : jsstring) : Prop := s ≠ [] ∧ trim s = s.
(** What a tier of [proofreadSmart] answered; nothing when it raised. *)
Definition deviceText (b : Review.proofBackends) : jsstring :=
  match Review.deviceProof b with
  | Review.ProofAnswers corrected => corrected
  | Review.ProofThrows => []
  end.

Definition remoteText (o : remoteOutcome) : jsstring :=
  match o with
  | RemoteReturns out => out
  | RemoteThrows => []
  end.


(* ================================================================== *)
(** * Properties *)

(** ** One-line sanitizing *)

Section StripFacts.
Variable p : N → bool.

Lemma stripStart_head (s : jsstring) :
  match stripStart p s with [] => True | c :: _ => p c = false end.
Proof.
  induction s as [|c r IH]; simpl; [done|].
  destruct (p c) eqn:E; [exact IH|]. simpl. done.
Qed.

Lemma stripEnd_cons_keep c (r : jsstring) :
  p c = false → stripEnd p (c :: r) = c :: stripEnd p r.
Proof. intros E. simpl. destruct (stripEnd p r); by rewrite ?E. Qed.

Lemma stripEnd_idem (s : jsstring) : stripEnd p (stripEnd p s) = stripEnd p s.
Proof.
  induction s as [|c r IH]; simpl; [done|].
  destruct (stripEnd p r) as [|d r'] eqn:E.
  - destruct (p c) eqn:Ec; simpl; by rewrite ?Ec.
  - change (stripEnd p (c :: d :: r')) with
      (match stripEnd p (d :: r') with [] => if p c then [] else [c] | x => c :: x end).
    rewrite IH. done.
Qed.

Lemma stripStart_fix (s : jsstring) :
  match s with [] => True | c :: _ => p c = false end → stripStart p s = s.
Proof. destruct s as [|c r]; simpl; [done|]. by intros ->. Qed.

Lemma stripStart_stripEnd_fix (s : jsstring) :
  match s with [] => True | c :: _ => p c = false end →
  stripStart p (stripEnd p s) = stripEnd p s.
Proof.
  destruct s as [|c r]; [done|]. intros E.
  rewrite stripEnd_cons_keep by done. simpl. by rewrite E.
Qed.

End StripFacts.

Lemma trim_idem (s : jsstring) : trim (trim s) = trim s.
Proof.
  unfold trim.
  rewrite (stripStart_stripEnd_fix _ _ (stripStart_head isSpace s)).
  apply stripEnd_idem.
Qed.

Lemma tidy_weaken b (s : jsstring) : tidy b s = true → tidy false s = true.
Proof.
  destruct s as [|c r]; simpl; [done|].
  destruct (isSpace c); [|done]. destruct b; simpl; [|done].
  rewrite andb_false_r. done.
Qed.

Lemma tidy_collapse b (s : jsstring) : tidy b (collapseRuns isSpace b s) = true.
Proof.
  revert b. induction s as [|c r IH]; intros b; simpl; [done|].
  destruct (isSpace c) eqn:E.
  - destruct b.
    + specialize (IH true). destruct (collapseRuns isSpace true r) as [|d r'] eqn:E2;
        simpl in *; [done|].
      destruct (isSpace d); [|done].
      by rewrite andb_false_r in IH.
    + simpl. by rewrite IH.
  - simpl. rewrite E. apply IH.
Qed.

Lemma tidy_stripStart b (s : jsstring) :
  tidy b s = true → tidy false (stripStart isSpace s) = true.
Proof.
  revert b. induction s as [|c r IH]; intros b; simpl; [done|].
  destruct (isSpace c) eqn:E.
  - intros H. apply andb_true_iff in H as [_ H]. by apply (IH true).
  - intros H. simpl. by rewrite E.
Qed.

Lemma tidy_stripEnd b (s : jsstring) :
  tidy b s = true → tidy b (stripEnd isSpace s) = true.
Proof.
  revert b. induction s as [|c r IH]; intros b; simpl; [done|].
  destruct (isSpace c) eqn:E.
  - intros H. apply andb_true_iff in H as [H1 H2].
    specialize (IH true H2).
    destruct (stripEnd isSpace r) as [|d r'] eqn:E2; [done|].
    cbn [tidy]. rewrite E, H1. exact IH.
  - intros H. specialize (IH false H).
    destruct (stripEnd isSpace r) as [|d r'] eqn:E2; cbn [tidy]; rewrite ?E; done.
Qed.

Lemma tidy_sanitizeOneLine (s : jsstring) : tidy false (sanitizeOneLine s) = true.
Proof.
  unfold sanitizeOneLine, trim, collapseSpaces.
  apply tidy_stripEnd. eapply tidy_stripStart. apply tidy_collapse.
Qed.

Lemma isSpace_LF : isSpace 10 = true. Proof. reflexivity. Qed.
Lemma isSpace_CR : isSpace 13 = true. Proof. reflexivity. Qed.

Lemma tidy_replaceNewlines b b' (s : jsstring) :
  tidy b s = true → replaceNewlines b' s = s.
Proof.
  revert b b'. induction s as [|c r IH]; intros b b'; simpl; [done|].
  destruct (isSpace c) eqn:E.
  - intros H. apply andb_true_iff in H as [H1 H2].
    apply andb_true_iff in H1 as [H1 _]. apply N.eqb_eq in H1. subst c.
    simpl. f_equal. eauto.
  - intros H.
    destruct (c =? 10) eqn:E10.
    { apply N.eqb_eq in E10. subst. by rewrite isSpace_LF in E. }
    destruct (c =? 13) eqn:E13.
    { apply N.eqb_eq in E13. subst. by rewrite isSpace_CR in E. }
    simpl. f_equal. eauto.
Qed.

Lemma tidy_collapse_fix b (s : jsstring) :
  tidy b s = true → collapseRuns isSpace b s = s.
Proof.
  revert b. induction s as [|c r IH]; intros b; simpl; [done|].
  destruct (isSpace c) eqn:E.
  - intros H. apply andb_true_iff in H as [H1 H2].
    apply andb_true_iff in H1 as [H1 Hb]. apply N.eqb_eq in H1. subst c.
    destruct b; [done|]. f_equal. by apply IH.
  - intros H. f_equal. by apply IH.
Qed.

Lemma sanitizeOneLine_fix (s : jsstring) :
  tidy false s = true → trim s = s → sanitizeOneLine s = s.
Proof.
  intros Ht Hs. unfold sanitizeOneLine, collapseSpaces.
  rewrite (tidy_replaceNewlines false false s Ht).
  rewrite (tidy_collapse_fix false s Ht). exact Hs.
Qed.

Lemma sanitizeOneLine_idem (x : jsstring) :
  sanitizeOneLine (sanitizeOneLine x) = sanitizeOneLine x.
Proof.
  apply sanitizeOneLine_fix; [apply tidy_sanitizeOneLine|].
  unfold sanitizeOneLine. apply trim_idem.
Qed.

Section TrimFacts.
Variable p : N → bool.

Lemma stripEnd_fix_last (s : jsstring) :
  stripEnd p s = s ↔ match last s with Some c => p c = false | None => True end.
Proof.
  induction s as [|c r IH]; simpl; [done|].
  destruct r as [|d r'].
  - simpl. destruct (p c); split; congruence.
  - rewrite last_cons_cons. rewrite <- IH. clear IH.
    destruct (stripEnd p (d :: r')) as [|e r''] eqn:E.
    + split.
      * destruct (p c); intros ?; simplify_eq.
      * intros ?; simplify_eq.
    + split; intros ?; simplify_eq; done.
Qed.

Lemma stripStart_suffix (s : jsstring) : suffix (stripStart p s) s.
Proof.
  induction s as [|c r IH]; simpl; [done|].
  destruct (p c); [by apply suffix_cons_r|done].
Qed.

Lemma stripEnd_fix_suffix (s t : jsstring) :
  suffix t s → stripEnd p s = s → stripEnd p t = t.
Proof.
  intros [k ->] Hs. apply stripEnd_fix_last. apply stripEnd_fix_last in Hs.
  destruct t as [|c t'] using rev_ind; [done|].
  rewrite app_assoc in Hs. rewrite last_snoc in *. done.
Qed.

End TrimFacts.

Lemma trim_fix_intro (s : jsstring) :
  stripStart isSpace s = s → stripEnd isSpace s = s → trim s = s.
Proof. unfold trim. by intros -> ->. Qed.

Lemma trim_fix_elim (s : jsstring) :
  trim s = s → stripStart isSpace s = s ∧ stripEnd isSpace s = s.
Proof.
  intros Hs.
  assert (H1 : stripStart isSpace s = s).
  { rewrite <- Hs at 1. unfold trim.
    rewrite (stripStart_stripEnd_fix _ _ (stripStart_head isSpace s)). exact Hs. }
  split; [done|]. unfold trim in Hs. by rewrite H1 in Hs.
Qed.

Lemma tidy_suffix b (s t : jsstring) :
  suffix t s → tidy b s = true → tidy false t = true.
Proof.
  intros [k ->]. revert b. induction k as [|c k IH]; intros b; simpl.
  - apply tidy_weaken.
  - destruct (isSpace c).
    + intros H. apply andb_true_iff in H as [_ H]. eauto.
    + eauto.
Qed.

(** A string that [sanitizeOneLine] leaves alone. *)
Lemma oneLine_stripBulletMark (t : jsstring) :
  tidy false t = true → trim t = t →
  sanitizeOneLine (stripBulletMark t) = stripBulletMark t.
Proof.
  intros Ht Hfix. apply trim_fix_elim in Hfix as [Hs He].
  unfold stripBulletMark. rewrite Hs.
  destruct t as [|c r]; [done|].
  destruct (isBulletMark c) eqn:Em.
  - assert (Hsuf : suffix (stripStart isSpace r) (c :: r)).
    { apply suffix_cons_r. apply stripStart_suffix. }
    apply sanitizeOneLine_fix.
    + by eapply tidy_suffix.
    + apply trim_fix_intro.
      * apply stripStart_fix. apply stripStart_head.
      * by eapply stripEnd_fix_suffix.
  - apply sanitizeOneLine_fix; [done|]. by apply trim_fix_intro.
Qed.

Lemma firstClause_tidy (s : jsstring) :
  tidy false (firstClause s) = true ∧ trim (firstClause s) = firstClause s.
Proof.
  unfold firstClause. split; [apply tidy_sanitizeOneLine|].
  unfold sanitizeOneLine. apply trim_idem.
Qed.

(** ** Words and characters *)

Section SplitFacts.
Variable p : N → bool.

Lemma splitRuns_cons b (s : jsstring) :
  ∃ w ws, splitRuns p b s = w :: ws.
Proof.
  revert b. induction s as [|c r IH]; intros b; simpl; [eauto|].
  destruct (p c).
  - destruct b; [apply IH|eauto].
  - destruct (IH false) as (w & ws & ->). eauto.
Qed.

Lemma splitOn_cons (s : jsstring) : ∃ w ws, splitOn p s = w :: ws.
Proof.
  induction s as [|c r IH]; simpl; [eauto|].
  destruct (p c); [eauto|]. destruct IH as (w & ws & ->). eauto.
Qed.

Lemma countRuns_true_le (s : jsstring) :
  (countRuns p true s ≤ countRuns p false s ≤ S (countRuns p true s))%nat.
Proof. destruct s as [|c r]; simpl; [lia|]. destruct (p c); lia. Qed.

(** The words of [split(/X+/)] and of [split(x)], once the empty ones
    are filtered out, are the runs outside the class. *)
Lemma splitRuns_count (s : jsstring) :
  (∀ b, length (filterBoolean (splitRuns p b s)) = countRuns p false s)
  ∧ match splitRuns p false s with
    | _ :: ws => length (filterBoolean ws) = countRuns p true s
    | [] => False
    end.
Proof.
  induction s as [|c r [IH1 IH2]]; simpl; [done|].
  destruct (p c).
  - split; [intros []; simpl; apply IH1|]. apply IH1.
  - destruct (splitRuns p false r) as [|w ws]; [done|].
    split; [|exact IH2]. intros _. simpl. by rewrite IH2.
Qed.

Lemma splitOn_count (s : jsstring) :
  length (filterBoolean (splitOn p s)) = countRuns p false s
  ∧ match splitOn p s with
    | _ :: ws => length (filterBoolean ws) = countRuns p true s
    | [] => False
    end.
Proof.
  induction s as [|c r [IH1 IH2]]; simpl; [done|].
  destruct (p c).
  - split; simpl; apply IH1.
  - destruct (splitOn p r) as [|w ws]; [done|].
    split; [|exact IH2]. simpl. by rewrite IH2.
Qed.

Lemma countRuns_app_le b (s t : jsstring) :
  (countRuns p b s ≤ countRuns p b (s ++ t))%nat.
Proof.
  revert b. induction s as [|c r IH]; intros b; simpl; [lia|].
  destruct (p c); [apply IH|]. specialize (IH true). lia.
Qed.

Lemma countRuns_suffix_le (s t : jsstring) :
  (countRuns p false t ≤ countRuns p false (s ++ t))%nat.
Proof.
  induction s as [|c r IH]; simpl; [lia|].
  destruct (p c); [done|].
  pose proof (countRuns_true_le (r ++ t)). lia.
Qed.

Lemma countRuns_within_le (s t : jsstring) :
  within t s → (countRuns p false t ≤ countRuns p false s)%nat.
Proof.
  intros (k1 & k2 & ->).
  etrans; [|apply countRuns_suffix_le]. apply countRuns_app_le.
Qed.

(** The words of [split(x)] hold no character of the class. *)
Lemma splitOn_clean (s : jsstring) :
  Forall (Forall (λ c, p c = false)) (splitOn p s).
Proof.
  induction s as [|c r IH]; simpl; [by repeat constructor|].
  destruct (p c) eqn:E; [by constructor|].
  destruct (splitOn p r) as [|w ws]; [by repeat constructor|].
  apply Forall_cons in IH as [Hw Hws]. by repeat constructor.
Qed.

Lemma countRuns_clean b (w t : jsstring) :
  Forall (λ c, p c = false) w →
  countRuns p b (w ++ t)
  = ((if b then 0 else if w is [] then 0 else 1)
     + countRuns p (b || truthy w) t)%nat.
Proof.
  intros Hw. revert b. induction Hw as [|c w Hc _ IH]; intros b; simpl.
  - rewrite orb_false_r. by destruct b.
  - rewrite Hc. rewrite (IH true). simpl. rewrite orb_true_r.
    by destruct b.
Qed.

End SplitFacts.

Lemma countRuns_ext (p q : N → bool) b (s : jsstring) :
  Forall (λ c, p c = q c) s → countRuns p b s = countRuns q b s.
Proof.
  intros Hs. revert b. induction Hs as [|c r Hc _ IH]; intros b; simpl; [done|].
  rewrite Hc. destruct (q c); by rewrite IH.
Qed.

Lemma isSpace_32 : isSpace 32 = true.
Proof. reflexivity. Qed.

Lemma onlySp_agree (s : jsstring) :
  onlySp s → Forall (λ c, N.eqb 32 c = isSpace c) s.
Proof.
  intros Hs. eapply Forall_impl; [exact Hs|]. intros c Hc. simpl in Hc.
  destruct (isSpace c) eqn:E.
  - rewrite (Hc eq_refl). reflexivity.
  - apply N.eqb_neq. intros <-. by rewrite isSpace_32 in E.
Qed.

Lemma wordCount_countRuns (s : jsstring) :
  wordCount s = countRuns isSpace false s.
Proof. unfold wordCount. apply splitRuns_count. Qed.

Lemma spaceWords_count (s : jsstring) :
  onlySp s → length (spaceWords s) = wordCount s.
Proof.
  intros Hs. unfold spaceWords. rewrite wordCount_countRuns.
  rewrite (proj1 (splitOn_count _ s)).
  apply countRuns_ext. by apply onlySp_agree.
Qed.

(** Joining words that hold no white space gives at most as many
    tokens as there are words. *)
Lemma wordCount_join (ws : list jsstring) :
  Forall (Forall (λ c, isSpace c = false)) ws →
  (wordCount (join [32%N] ws) ≤ length ws)%nat.
Proof.
  rewrite wordCount_countRuns.
  induction 1 as [|w ws Hw Hws IH]; simpl; [lia|].
  destruct ws as [|w' ws'].
  - rewrite <- (app_nil_r w). rewrite countRuns_clean by done.
    simpl. destruct w; simpl; lia.
  - rewrite countRuns_clean by done.
    change (([32] ++ join [32] (w' :: ws'))) with (32 :: join [32] (w' :: ws')).
    cbn [countRuns]. rewrite isSpace_32.
    simpl in IH. destruct w; simpl; lia.
Qed.

Lemma spaceWords_clean (s : jsstring) :
  onlySp s → Forall (Forall (λ c, isSpace c = false)) (spaceWords s).
Proof.
  intros Hs. unfold spaceWords, filterBoolean.
  assert (Hall : Forall (Forall (λ c, isSpace c = false))
                   (splitOn (N.eqb 32) s)).
  { revert Hs. unfold onlySp.
    induction s as [|c r IH]; intros Hs; cbn [splitOn];
      [by repeat constructor|].
    apply Forall_cons in Hs as [Hc Hr]. specialize (IH Hr).
    destruct (32 =? c) eqn:E; [by constructor|].
    assert (isSpace c = false).
    { destruct (isSpace c); [|done]. rewrite (Hc eq_refl) in E. done. }
    destruct (splitOn (N.eqb 32) r) as [|w ws]; [by repeat constructor|].
    apply Forall_cons in IH as [Hw Hws]. by repeat constructor. }
  clear Hs. induction Hall as [|w ws Hw _ IH]; simpl; [done|].
  destruct (truthy w); [by constructor|done].
Qed.

(** *** Characters that an operation keeps *)

Lemma fromOrSp_refl (s : jsstring) : fromOrSp s s.
Proof. intros c ?. by left. Qed.

Lemma fromOrSp_trans (s t u : jsstring) :
  fromOrSp s t → fromOrSp t u → fromOrSp s u.
Proof.
  intros H1 H2 c Hc. destruct (H2 c Hc) as [?|?]; [by apply H1|by right].
Qed.

Lemma fromOrSp_sub (s t : jsstring) : t ⊆ s → fromOrSp s t.
Proof. intros Hsub c Hc. left. by apply Hsub. Qed.

Lemma onlySp_fromOrSp (s t : jsstring) :
  fromOrSp s t → onlySp s → onlySp t.
Proof.
  unfold onlySp. rewrite !Forall_forall. intros Hf Hs c Hc Hsp.
  destruct (Hf c Hc) as [?|?]; [by apply Hs|done].
Qed.

Lemma tidy_onlySp b (s : jsstring) : tidy b s = true → onlySp s.
Proof.
  revert b. induction s as [|c r IH]; intros b; simpl; [by constructor|].
  destruct (isSpace c) eqn:E.
  - intros H. apply andb_true_iff in H as [H1 H2].
    apply andb_true_iff in H1 as [H1 _]. apply N.eqb_eq in H1.
    constructor; [done|]. by eapply IH.
  - intros H. constructor; [by rewrite E|]. by eapply IH.
Qed.

Lemma within_refl (s : jsstring) : within s s.
Proof. exists [], []. by rewrite app_nil_r. Qed.

Lemma within_trans (s t u : jsstring) : within u t → within t s → within u s.
Proof.
  intros (a & b & ->) (c & d & ->). exists (c ++ a), (b ++ d).
  by rewrite <- !app_assoc.
Qed.

Lemma prefix_within (s t : jsstring) : t `prefix_of` s → within t s.
Proof. intros [k ->]. by exists [], k. Qed.

Lemma suffix_within (s t : jsstring) : t `suffix_of` s → within t s.
Proof. intros [k ->]. exists k, []. by rewrite app_nil_r. Qed.

Section KeepFacts.
Variable p : N → bool.

Lemma stripEnd_prefix (s : jsstring) : stripEnd p s `prefix_of` s.
Proof.
  induction s as [|c r IH]; simpl; [done|].
  destruct (stripEnd p r) as [|d r'] eqn:E.
  - destruct (p c); [apply prefix_nil|]. by apply prefix_cons, prefix_nil.
  - by apply prefix_cons.
Qed.

Lemma stripStart_sub (s : jsstring) : stripStart p s ⊆ s.
Proof.
  intros c Hc. destruct (stripStart_suffix p s) as [k Hk].
  rewrite Hk. apply elem_of_app. by right.
Qed.

Lemma stripEnd_sub (s : jsstring) : stripEnd p s ⊆ s.
Proof.
  intros c Hc. destruct (stripEnd_prefix s) as [k Hk].
  rewrite Hk. apply elem_of_app. by left.
Qed.

Lemma stripStart_within (s : jsstring) : within (stripStart p s) s.
Proof. apply suffix_within, stripStart_suffix. Qed.

Lemma stripEnd_within (s : jsstring) : within (stripEnd p s) s.
Proof. apply prefix_within, stripEnd_prefix. Qed.

End KeepFacts.

Lemma trim_within (s : jsstring) : within (trim s) s.
Proof.
  unfold trim.
  eapply within_trans; [apply stripEnd_within|apply stripStart_within].
Qed.

Lemma trim_sub (s : jsstring) : trim s ⊆ s.
Proof.
  unfold trim. etrans; [apply stripEnd_sub|apply stripStart_sub].
Qed.

Lemma within_sub (s t : jsstring) : within t s → t ⊆ s.
Proof.
  intros (k1 & k2 & ->) c Hc. rewrite !elem_of_app. auto.
Qed.
(** *** What [sanitizeBulletLine] guarantees *)

Lemma prefixCI_suffix (pat s r : jsstring) :
  prefixCI pat s = Some r → r `suffix_of` s.
Proof.
  revert s. induction pat as [|a pat IH]; intros s; simpl.
  - by intros [= ->].
  - destruct s as [|c s']; [done|].
    destruct (_ =? _); [|done]. intros Hr. apply suffix_cons_r. by apply IH.
Qed.

Lemma firstMatchCI_suffix (alts : list jsstring) (s r : jsstring) :
  firstMatchCI alts s = Some r → r `suffix_of` s.
Proof.
  induction alts as [|a alts IH]; simpl; [done|].
  destruct (prefixCI a s) as [r'|] eqn:E; [|done].
  intros [= ->]. by eapply prefixCI_suffix.
Qed.

Lemma metaLineMatch_suffix (s r : jsstring) :
  metaLineMatch s = Some r → r `suffix_of` s.
Proof.
  unfold metaLineMatch. intros Hr%firstMatchCI_suffix.
  etrans; [exact Hr|apply stripStart_suffix].
Qed.

Lemma afterClause_suffix (s r : jsstring) :
  afterClause s = Some r → r `suffix_of` s.
Proof.
  induction s as [|c s' IH]; simpl; [done|].
  destruct (_ || _).
  - intros [= ->]. by apply suffix_cons_r.
  - destruct (isLineTerminator c); [done|].
    intros Hr. apply suffix_cons_r. by apply IH.
Qed.

Lemma notClauseAt_suffix b (s r : jsstring) :
  notClauseAt b s = Some r → r `suffix_of` s.
Proof.
  unfold notClauseAt. destruct (boundary b s); [|done].
  destruct (prefixCI (lit "not") s) as [rest|] eqn:E; [|done].
  destruct (boundary true rest); [|done].
  intros Hr%afterClause_suffix. etrans; [exact Hr|].
  by eapply prefixCI_suffix.
Qed.

Lemma suffix_sub (s t : jsstring) : t `suffix_of` s → t ⊆ s.
Proof. intros [k ->] c Hc. apply elem_of_app. by right. Qed.

Lemma prefix_sub (s t : jsstring) : t `prefix_of` s → t ⊆ s.
Proof. intros [k ->] c Hc. apply elem_of_app. by left. Qed.

Lemma dropNotClause_sub b (s : jsstring) : dropNotClause b s ⊆ s.
Proof.
  revert b. induction s as [|c s' IH]; intros b.
  - simpl. destruct (notClauseAt b []) as [r|] eqn:E; [|done].
    by apply suffix_sub, (notClauseAt_suffix b).
  - cbn [dropNotClause].
    destruct (notClauseAt b (c :: s')) as [r|] eqn:E.
    + by apply suffix_sub, (notClauseAt_suffix b).
    + intros d [->|Hd]%elem_of_cons; [by left|].
      right. by eapply IH.
Qed.

Lemma splitOn_sub (p : N → bool) (s w : jsstring) :
  w ∈ splitOn p s → w ⊆ s.
Proof.
  revert w. induction s as [|c r IH]; intros w; simpl.
  - intros ->%list_elem_of_singleton. done.
  - destruct (p c).
    + intros [->|Hw]%elem_of_cons; [by intros ? ?%elem_of_nil|].
      intros d Hd. right. by eapply IH.
    + destruct (splitOn p r) as [|w' ws] eqn:E.
      * intros ->%list_elem_of_singleton d ->%list_elem_of_singleton. by left.
      * intros [->|Hw]%elem_of_cons.
        -- intros d [->|Hd]%elem_of_cons; [by left|].
           right. eapply IH; [by left|done].
        -- intros d Hd. right. eapply IH; [by right|done].
Qed.

Lemma join_chars (sep : jsstring) (ws : list jsstring) (c : N) :
  c ∈ join sep ws → c ∈ sep ∨ ∃ w, w ∈ ws ∧ c ∈ w.
Proof.
  induction ws as [|w ws IH]; simpl; [by intros ?%elem_of_nil|].
  destruct ws as [|w' ws'].
  - intros Hc. right. exists w. split; [by left|done].
  - rewrite !elem_of_app. intros [Hc|[Hc|Hc]].
    + right. exists w. split; [by left|done].
    + by left.
    + destruct (IH Hc) as [?|(w0 & Hw0 & ?)]; [by left|].
      right. exists w0. split; [by right|done].
Qed.

Lemma spaceWords_sub (s w : jsstring) : w ∈ spaceWords s → w ⊆ s.
Proof.
  unfold spaceWords, filterBoolean. intros Hw%list_elem_of_In.
  apply filter_In in Hw as [Hw _]. apply list_elem_of_In in Hw.
  by eapply splitOn_sub.
Qed.

Lemma capBullet_fromOrSp (s : jsstring) : fromOrSp s (capBullet s).
Proof.
  unfold capBullet. destruct (_ <? _)%nat; [|apply fromOrSp_refl].
  intros c Hc. apply join_chars in Hc as [Hc|(w & Hw & Hc)].
  - right. by apply list_elem_of_singleton in Hc.
  - left. apply (spaceWords_sub s w); [|done].
    by apply (subseteq_take MAX_BULLET_WORDS).
Qed.

Lemma capBullet_count (s : jsstring) :
  onlySp s → (wordCount (capBullet s) ≤ MAX_BULLET_WORDS)%nat.
Proof.
  intros Hs. unfold capBullet.
  destruct (_ <? _)%nat eqn:E.
  - etrans; [apply wordCount_join|].
    + apply Forall_take. by apply spaceWords_clean.
    + rewrite length_take. lia.
  - apply Nat.ltb_ge in E. by rewrite <- spaceWords_count.
Qed.

Lemma stripTrailPunctWs_prefix (s : jsstring) :
  stripTrailPunctWs s `prefix_of` s.
Proof.
  unfold stripTrailPunctWs.
  destruct (rev (stripEnd isSpace s)) as [|c r] eqn:E; [done|].
  destruct (isTrailPunct c); [|done].
  etrans; [apply stripEnd_prefix|].
  etrans; [|apply (stripEnd_prefix isSpace)].
  apply (f_equal (@rev N)) in E. rewrite rev_involutive in E. rewrite E. simpl.
  by exists [c].
Qed.

Lemma stripQuotes_within (s : jsstring) : within (stripQuotes s) s.
Proof.
  unfold stripQuotes.
  eapply within_trans; [apply stripEnd_within|apply stripStart_within].
Qed.

(** The line before the word cap: its only white space is the space. *)
Lemma beforeCap_onlySp (s : jsstring) :
  onlySp (trim (dropNotClause false
            (match metaLineMatch (trim (collapseSpaces s)) with
             | Some rest => trim rest
             | None => trim (collapseSpaces s)
             end))).
Proof.
  assert (H0 : onlySp (trim (collapseSpaces s))).
  { eapply (tidy_onlySp false). unfold trim, collapseSpaces.
    apply tidy_stripEnd. eapply tidy_stripStart. apply tidy_collapse. }
  eapply onlySp_fromOrSp; [|exact H0].
  apply fromOrSp_sub. etrans; [apply trim_sub|].
  etrans; [apply dropNotClause_sub|].
  destruct (metaLineMatch _) as [rest|] eqn:E; [|done].
  etrans; [apply trim_sub|]. by apply suffix_sub, metaLineMatch_suffix.
Qed.

(** [sanitizeBulletLine] is a part of the capped line. *)
Lemma sanitizeBulletLine_words (s : jsstring) :
  (wordCount (sanitizeBulletLine s) ≤ MAX_BULLET_WORDS)%nat
  ∧ onlySp (sanitizeBulletLine s).
Proof.
  unfold sanitizeBulletLine. cbv zeta.
  set (x := trim (dropNotClause false _)).
  assert (Hx : onlySp x) by apply beforeCap_onlySp.
  assert (Hw : within (stripQuotes (trim (stripTrailPunctWs (capBullet x))))
                      (capBullet x)).
  { eapply within_trans; [apply stripQuotes_within|].
    eapply within_trans; [apply trim_within|].
    apply prefix_within, stripTrailPunctWs_prefix. }
  split.
  - rewrite wordCount_countRuns.
    etrans; [apply (countRuns_within_le _ _ _ Hw)|].
    rewrite <- wordCount_countRuns. by apply capBullet_count.
  - eapply onlySp_fromOrSp; [|exact Hx].
    eapply fromOrSp_trans; [apply capBullet_fromOrSp|].
    by apply fromOrSp_sub, within_sub.
Qed.

Lemma onlySp_no_newline (s : jsstring) : onlySp s → 10 ∉ s.
Proof.
  unfold onlySp. rewrite Forall_forall. intros Hs Hin.
  by specialize (Hs 10 Hin eq_refl).
Qed.
(** *** The list sanitizer *)

Section BulletList.
Context `{Host}.

Lemma truthy_nonempty (s : jsstring) : truthy s = true ↔ s ≠ [].
Proof. by destruct s. Qed.

(** The loop of [sanitizeBulletList], for any set of keys seen so far. *)
Lemma sanitizeBulletLoop_spec (seen : gset jsstring) (lines : list jsstring) :
  Forall (λ s, s ≠ [] ∧ hasBadPhrase s = false
               ∧ ∃ l, l ∈ lines ∧ s = sanitizeBulletLine l)
         (sanitizeBulletLoop seen lines)
  ∧ NoDup (map toLowerCase (sanitizeBulletLoop seen lines))
  ∧ (∀ k, k ∈ map toLowerCase (sanitizeBulletLoop seen lines) → k ∉ seen)
  ∧ sanitizeBulletLoop seen lines `sublist_of` map sanitizeBulletLine lines
  ∧ (∀ l, l ∈ lines →
       sanitizeBulletLine l ≠ [] →
       hasBadPhrase (sanitizeBulletLine l) = false →
       toLowerCase (sanitizeBulletLine l) ∈ seen
       ∨ toLowerCase (sanitizeBulletLine l)
         ∈ map toLowerCase (sanitizeBulletLoop seen lines)).
Proof.
  revert seen. induction lines as [|ln lines IH]; intros seen;
    cbn [sanitizeBulletLoop map].
  { split_and!.
    - constructor.
    - constructor.
    - by intros k ?%elem_of_nil.
    - constructor.
    - by intros l0 ?%elem_of_nil. }
  assert (Hkeep : ∀ out' : list jsstring,
    Forall (λ s, s ≠ [] ∧ hasBadPhrase s = false
                 ∧ ∃ l, l ∈ lines ∧ s = sanitizeBulletLine l) out' →
    Forall (λ s, s ≠ [] ∧ hasBadPhrase s = false
                 ∧ ∃ l, l ∈ ln :: lines ∧ s = sanitizeBulletLine l) out').
  { intros out' HF. eapply Forall_impl; [exact HF|].
    intros s (? & ? & l0 & ? & ?). split_and!; try done.
    exists l0. split; [by right|done]. }
  set (s0 := sanitizeBulletLine ln).
  destruct (truthy s0) eqn:Et; cbn [negb].
  2:{ destruct (IH seen) as (HF & HN & Hs & Hsub & Hc).
      split_and!; [by apply Hkeep|done|done|by apply sublist_cons|].
      intros l0 [->|Hl0]%elem_of_cons Hne; [|by apply Hc].
      apply truthy_nonempty in Hne. fold s0 in Hne. congruence. }
  destruct (hasBadPhrase s0) eqn:Eb.
  { destruct (IH seen) as (HF & HN & Hs & Hsub & Hc).
    split_and!; [by apply Hkeep|done|done|by apply sublist_cons|].
    intros l0 [->|Hl0]%elem_of_cons Hne Hb; [|by apply Hc].
    fold s0 in Hb. congruence. }
  destruct (bool_decide (toLowerCase s0 ∈ seen)) eqn:Es.
  { apply bool_decide_eq_true in Es.
    destruct (IH seen) as (HF & HN & Hs & Hsub & Hc).
    split_and!; [by apply Hkeep|done|done|by apply sublist_cons|].
    intros l0 [->|Hl0]%elem_of_cons Hne Hb; [by left|by apply Hc]. }
  apply bool_decide_eq_false in Es.
  destruct (IH ({[toLowerCase s0]} ∪ seen)) as (HF & HN & Hs & Hsub & Hc).
  split_and!.
  - constructor; [|by apply Hkeep].
    split_and!; [by apply truthy_nonempty|done|].
    exists ln. split; [by left|done].
  - cbn [map]. constructor; [|done]. intros Hin.
    apply Hs in Hin. apply Hin. apply elem_of_union. left.
    by apply elem_of_singleton.
  - cbn [map]. intros k [->|Hk]%elem_of_cons; [done|].
    intros Hin. apply (Hs k Hk). apply elem_of_union. by right.
  - by apply sublist_skip.
  - intros l0 [->|Hl0]%elem_of_cons Hne Hb.
    + right. cbn [map]. by left.
    + destruct (Hc l0 Hl0 Hne Hb) as [Hin|Hin].
      * apply elem_of_union in Hin as [Hin|Hin]; [|by left].
        apply elem_of_singleton in Hin. right. cbn [map]. rewrite Hin.
        by left.
      * right. cbn [map]. by right.
Qed.

(** What every list returned by [sanitizeBulletList] satisfies. *)
Lemma sanitizeBulletList_each (lines : list jsstring) :
  Forall (λ s, s ≠ [] ∧ (wordCount s ≤ MAX_BULLET_WORDS)%nat ∧ onlySp s)
         (sanitizeBulletList lines).
Proof.
  destruct (sanitizeBulletLoop_spec ∅ lines) as (HF & _).
  eapply Forall_impl; [exact HF|].
  intros s (Hne & _ & l & _ & ->). split; [done|].
  apply sanitizeBulletLine_words.
Qed.

End BulletList.

(** *** Bullets over a session *)

Section Bullets.
Context `{Host}.

Lemma typedLines_each (value : jsstring) :
  Forall (λ b, b ≠ [] ∧ trim b = b ∧ 10 ∉ b) (typedLines value).
Proof.
  unfold typedLines, filterBoolean. apply Forall_forall. intros b Hb.
  apply list_elem_of_In, filter_In in Hb as [Hb Ht].
  apply in_map_iff in Hb as (w & <- & Hw). apply list_elem_of_In in Hw.
  split_and!.
  - by apply truthy_nonempty.
  - apply trim_idem.
  - intros Hin. apply trim_sub in Hin.
    pose proof (splitOn_clean isLF value) as Hc.
    rewrite Forall_forall in Hc. specialize (Hc w Hw).
    rewrite Forall_forall in Hc. by specialize (Hc 10 Hin).
Qed.

Lemma sanitized_lineOK (lines : list jsstring) :
  Forall (λ b, lineOK b ∧ (wordCount b ≤ 22)%nat) (sanitizeBulletList lines).
Proof.
  eapply Forall_impl; [apply sanitizeBulletList_each|].
  intros b (Hne & Hw & Hsp). split; [|done].
  split; [done|]. by apply onlySp_no_newline.
Qed.

Lemma lineOK_weaken (P : jsstring → Prop) (l : list jsstring) :
  Forall (λ b, lineOK b ∧ P b) l → Forall lineOK l.
Proof. intros HF. eapply Forall_impl; [exact HF|]. by intros b [? _]. Qed.

Lemma commitBullets_ok (idx : nat) (bs : list jsstring) (ed : editor) :
  Forall lineOK bs → entriesOK (cvExperience (doc ed)) →
  entriesOK (cvExperience (doc (commitBullets idx bs ed))).
Proof.
  intros Hbs Hed. unfold commitBullets, withExperience. simpl.
  apply Forall_alter; [done|]. by intros e _ _.
Qed.

Lemma commitIfAny_ok (idx : nat) (bs : list jsstring) (ed : editor) :
  Forall lineOK bs → entriesOK (cvExperience (doc ed)) →
  entriesOK (cvExperience (doc (commitIfAny idx bs ed))).
Proof. destruct bs; [done|]. apply commitBullets_ok. Qed.

Lemma candidate_ok (text original : jsstring) :
  Forall (λ b, lineOK b ∧ (wordCount b ≤ 22)%nat) (candidate text original).
Proof. apply sanitized_lineOK. Qed.

Lemma proofreadEntry_cases (corrected : nat → jsstring → jsstring)
    (e : experience) :
  bullets (proofreadEntry corrected e) = bullets e
  ∨ Forall (λ b, lineOK b ∧ (wordCount b ≤ 22)%nat)
           (bullets (proofreadEntry corrected e)).
Proof.
  unfold proofreadEntry. destruct (bullets e) as [|b bs] eqn:E; [by left|].
  destruct (bool_decide _); [by left|]. right. apply sanitized_lineOK.
Qed.

Lemma onRewrite_cases (idx : nat) (b : backends) (ed : editor) :
  snd (onRewrite idx b ed) = ed
  ∨ snd (onRewrite idx b ed) = alert REWRITER_FAILED ed
  ∨ ∃ text original, candidate text original ≠ [] ∧
      snd (onRewrite idx b ed)
      = commitBullets idx (candidate text original) ed.
Proof.
  assert (Hc : ∀ text original,
    commitIfAny idx (candidate text original) ed = ed
    ∨ commitIfAny idx (candidate text original) ed
      = alert REWRITER_FAILED ed
    ∨ ∃ text' original', candidate text' original' ≠ [] ∧
        commitIfAny idx (candidate text original) ed
        = commitBullets idx (candidate text' original') ed).
  { intros text original.
    destruct (candidate text original) eqn:E; [by left|].
    right; right. exists text, original. by rewrite E. }
  unfold onRewrite. destruct (cvExperience (doc ed) !! idx); [|by left].
  destruct (device b); [|apply Hc..].
  destruct (cloudRewrite b); [|apply Hc].
  destruct (cloudWrite b); [|apply Hc].
  right; by left.
Qed.

Lemma step_ok (ev : event) (ed : editor) :
  entriesOK (cvExperience (doc ed)) →
  entriesOK (cvExperience (doc (step ev ed))).
Proof.
  intros Hed. destruct ev as [|idx k v|idx v|idx|idx b|idx g|corrected|sup p w raw];
    cbn [step].
  - unfold addExperience, withExperience. simpl. apply Forall_app. split; [done|].
    by repeat constructor.
  - unfold onFieldInput, withExperience. simpl.
    apply Forall_alter; [done|]. intros e _ He. by destruct k.
  - apply commitBullets_ok; [|done].
    eapply Forall_impl; [apply typedLines_each|]. by intros b (? & _ & ?).
  - unfold onDelete, withExperience. simpl. by apply Forall_delete.
  - destruct (onRewrite_cases idx b ed) as [->|[->|(t & o & _ & ->)]];
      [done|done|].
    apply commitBullets_ok; [|done]. exact (lineOK_weaken _ _ (candidate_ok _ _)).
  - unfold onGenerateFromJD. destruct g as [| out | out |]; try done.
    + destruct (cvExperience (doc ed) !! idx); [|done].
      apply commitBullets_ok; [|done]. exact (lineOK_weaken _ _ (sanitized_lineOK _)).
    + destruct (cvExperience (doc ed) !! idx); [|done].
      apply commitBullets_ok; [|done]. exact (lineOK_weaken _ _ (sanitized_lineOK _)).
  - unfold onProofreadBullets, withExperience. simpl.
    apply Forall_lookup. intros i e' He'.
    rewrite list_lookup_imap in He'.
    destruct (cvExperience (doc ed) !! i) as [e|] eqn:Ei;
      cbn [fmap option_fmap option_map] in He'; [|done].
    injection He' as <-.
    destruct (proofreadEntry_cases (corrected i) e) as [->|HF].
    + exact (Forall_lookup_1 _ _ _ _ Hed Ei).
    + exact (lineOK_weaken _ _ HF).
  - unfold normalizeAndGroupSkills. by destruct sup.
Qed.

Lemma initial_ok : entriesOK (cvExperience (doc initial)).
Proof.
  repeat constructor; [done|].
  intros Hin. vm_compute in Hin.
  repeat (apply elem_of_cons in Hin as [Hin|Hin]; [done|]).
  by apply elem_of_nil in Hin.
Qed.

Lemma reachable_ok (ed : editor) :
  reachable ed → entriesOK (cvExperience (doc ed)).
Proof.
  induction 1 as [|ev ed _ IH]; [apply initial_ok|by apply step_ok].
Qed.

(** An event of an AI backend leaves the bullets of an entry as they
    were or replaces them by lines of at most 22 words. *)
Lemma aiEvent_bullets (ev : event) (ed : editor) (i : nat) (e' : experience) :
  aiEvent ev = true →
  cvExperience (doc (step ev ed)) !! i = Some e' →
  (∃ e, cvExperience (doc ed) !! i = Some e ∧ bullets e' = bullets e)
  ∨ Forall (λ b, lineOK b ∧ (wordCount b ≤ 22)%nat) (bullets e').
Proof.
  assert (Hcommit : ∀ idx lines,
    cvExperience (doc (commitBullets idx (sanitizeBulletList lines) ed)) !! i
      = Some e' →
    (∃ e, cvExperience (doc ed) !! i = Some e ∧ bullets e' = bullets e)
    ∨ Forall (λ b, lineOK b ∧ (wordCount b ≤ 22)%nat) (bullets e')).
  { intros idx lines. unfold commitBullets, withExperience. simpl.
    destruct (decide (idx = i)) as [->|Hne].
    - rewrite list_lookup_alter_eq.
      destruct (cvExperience (doc ed) !! i) as [e|];
        cbn [fmap option_fmap option_map]; [|done].
      intros [= <-]. right. apply sanitized_lineOK.
    - rewrite list_lookup_alter_ne by done. intros He'. left. eauto. }
  destruct ev as [|idx k v|idx v|idx|idx b|idx g|corrected|sup p w raw];
    try done; intros _; cbn [step].
  - destruct (onRewrite_cases idx b ed) as [->|[->|(t & o & _ & ->)]].
    + intros He'. left. eauto.
    + intros He'. left. eauto.
    + apply Hcommit.
  - unfold onGenerateFromJD. destruct g as [| out | out |].
    + intros He'. left. eauto.
    + destruct (cvExperience (doc ed) !! idx); [apply Hcommit|].
      intros He'. left. eauto.
    + destruct (cvExperience (doc ed) !! idx); [apply Hcommit|].
      intros He'. left. eauto.
    + intros He'. left. eauto.
  - unfold onProofreadBullets, withExperience. simpl.
    rewrite list_lookup_imap.
    destruct (cvExperience (doc ed) !! i) as [e|] eqn:Ei;
      cbn [fmap option_fmap option_map]; [|done].
    intros [= <-].
    destruct (proofreadEntry_cases (corrected i) e) as [Hb|HF];
      [left; eauto|by right].
Qed.

End Bullets.

(** *** Idempotent sanitizers *)

Lemma collapseRuns_fromOrSp (p : N → bool) b (s : jsstring) :
  fromOrSp s (collapseRuns p b s).
Proof.
  revert b. induction s as [|c r IH]; intros b; cbn [collapseRuns].
  - apply fromOrSp_refl.
  - intros d Hd. destruct (p c).
    + destruct b.
      * destruct (IH true d Hd) as [?|?]; [left; by right|by right].
      * apply elem_of_cons in Hd as [->|Hd]; [by right|].
        destruct (IH true d Hd) as [?|?]; [left; by right|by right].
    + apply elem_of_cons in Hd as [->|Hd]; [left; by left|].
      destruct (IH false d Hd) as [?|?]; [left; by right|by right].
Qed.

Lemma replaceNewlines_fromOrSp b (s : jsstring) :
  fromOrSp s (replaceNewlines b s).
Proof.
  revert b. induction s as [|c r IH]; intros b; cbn [replaceNewlines].
  - apply fromOrSp_refl.
  - intros d Hd. destruct (c =? 10).
    + destruct b.
      * destruct (IH true d Hd) as [?|?]; [left; by right|by right].
      * apply elem_of_cons in Hd as [->|Hd]; [by right|].
        destruct (IH true d Hd) as [?|?]; [left; by right|by right].
    + destruct (_ && _).
      * apply elem_of_cons in Hd as [->|Hd]; [by right|].
        destruct (IH true d Hd) as [?|?]; [left; by right|by right].
      * apply elem_of_cons in Hd as [->|Hd]; [left; by left|].
        destruct (IH false d Hd) as [?|?]; [left; by right|by right].
Qed.

Lemma sanitizeOneLine_fromOrSp (s : jsstring) :
  fromOrSp s (sanitizeOneLine s).
Proof.
  unfold sanitizeOneLine, collapseSpaces.
  eapply fromOrSp_trans; [apply replaceNewlines_fromOrSp|].
  eapply fromOrSp_trans; [apply collapseRuns_fromOrSp|].
  apply fromOrSp_sub, trim_sub.
Qed.

Lemma beforePunct_clean (s : jsstring) :
  Forall (λ c, isSentencePunct c = false) (beforePunct s).
Proof.
  induction s as [|c r IH]; cbn [beforePunct]; [constructor|].
  destruct (isSentencePunct c) eqn:E; by constructor.
Qed.

Lemma beforePunct_fix (s : jsstring) :
  Forall (λ c, isSentencePunct c = false) s → beforePunct s = s.
Proof.
  induction 1 as [|c r Hc _ IH]; cbn [beforePunct]; [done|].
  by rewrite Hc, IH.
Qed.

Lemma firstClause_idem (x : jsstring) :
  firstClause (firstClause x) = firstClause x.
Proof.
  unfold firstClause at 1. rewrite beforePunct_fix.
  - unfold firstClause. apply sanitizeOneLine_idem.
  - apply Forall_forall. intros c Hc.
    destruct (sanitizeOneLine_fromOrSp _ _ Hc) as [Hin| ->]; [|done].
    pose proof (beforePunct_clean x) as HF.
    rewrite Forall_forall in HF. by apply HF.
Qed.

Lemma clean_not32 (w : jsstring) :
  Forall (λ c, isSpace c = false) w → Forall (λ c, (32 =? c) = false) w.
Proof.
  intros Hw. eapply Forall_impl; [exact Hw|].
  intros c Hc. apply N.eqb_neq. intros <-. simpl in Hc.
  by rewrite isSpace_32 in Hc.
Qed.

Lemma splitOn_app_clean (p : N → bool) (w t : jsstring) :
  Forall (λ c, p c = false) w →
  splitOn p (w ++ t)
  = match splitOn p t with
    | w' :: ws => (w ++ w') :: ws
    | [] => [w]
    end.
Proof.
  induction 1 as [|c w Hc _ IH]; cbn [app splitOn].
  - by destruct (splitOn_cons p t) as (w' & ws & ->).
  - rewrite Hc, IH. by destruct (splitOn_cons p t) as (w' & ws & ->).
Qed.

Lemma spaceWords_join (ws : list jsstring) :
  cleanWords ws → spaceWords (join [32] ws) = ws.
Proof.
  unfold spaceWords, filterBoolean.
  induction 1 as [|w ws [Hne Hw] Hws IH]; [done|].
  cbn [join]. destruct ws as [|w' ws'].
  - rewrite <- (app_nil_r w). rewrite splitOn_app_clean by by apply clean_not32.
    cbn [splitOn]. rewrite app_nil_r. cbn [List.filter].
    by destruct w.
  - rewrite splitOn_app_clean by by apply clean_not32.
    change ([32] ++ join [32] (w' :: ws')) with (32 :: join [32] (w' :: ws')).
    cbn [splitOn]. rewrite N.eqb_refl. rewrite app_nil_r.
    cbn [List.filter]. rewrite IH. by destruct w.
Qed.

Lemma tidy_app_clean b (w t : jsstring) :
  Forall (λ c, isSpace c = false) w →
  tidy b (w ++ t) = tidy (if w is [] then b else false) t.
Proof.
  intros Hw. revert b. induction Hw as [|c w Hc _ IH]; intros b; [done|].
  cbn [app tidy]. rewrite Hc, IH. by destruct w.
Qed.

Lemma join_tidy (ws : list jsstring) :
  cleanWords ws → tidy false (join [32] ws) = true.
Proof.
  induction 1 as [|w ws [Hne Hw] Hws IH]; [done|].
  cbn [join]. destruct ws as [|w' ws'].
  - rewrite <- (app_nil_r w). by rewrite tidy_app_clean.
  - rewrite tidy_app_clean by done.
    change ([32] ++ join [32] (w' :: ws')) with (32 :: join [32] (w' :: ws')).
    cbn [tidy]. rewrite isSpace_32, N.eqb_refl.
    destruct w as [|c w]; [done|]. cbn [negb andb].
    apply Forall_cons in Hws as [[Hne' Hw'] _].
    cbn [join] in IH |- *.
    destruct w' as [|c' w'']; [done|].
    apply Forall_cons in Hw' as [Hc' _].
    destruct ws'; cbn [app tidy] in IH |- *; rewrite Hc' in IH |- *; done.
Qed.

Lemma join_head_last (ws : list jsstring) :
  cleanWords ws →
  match join [32] ws with c :: _ => isSpace c = false | [] => True end
  ∧ match last (join [32] ws) with
    | Some c => isSpace c = false
    | None => True
    end.
Proof.
  induction 1 as [|w ws [Hne Hw] Hws IH]; [done|].
  cbn [join]. destruct ws as [|w' ws'].
  - split.
    + destruct w as [|c w]; [done|]. by apply Forall_cons in Hw as [? _].
    + destruct w as [|c w] using rev_ind; [done|].
      rewrite last_snoc. apply Forall_app in Hw as [_ Hc].
      by inversion Hc.
  - split.
    + destruct w as [|c w]; [done|]. by apply Forall_cons in Hw as [? _].
    + destruct IH as [_ IH].
      apply Forall_cons in Hws as [[Hne' _] _].
      assert (Hj : join [32] (w' :: ws') ≠ []).
      { cbn [join]. destruct ws'; [done|]. by destruct w'. }
      destruct (join [32] (w' :: ws')) as [|d r] using rev_ind; [done|].
      rewrite !app_assoc, last_snoc. by rewrite last_snoc in IH.
Qed.

Lemma join_fix (ws : list jsstring) :
  cleanWords ws → sanitizeOneLine (join [32] ws) = join [32] ws.
Proof.
  intros Hws. apply sanitizeOneLine_fix; [by apply join_tidy|].
  destruct (join_head_last ws Hws) as [Hh Hl].
  apply trim_fix_intro.
  - by apply stripStart_fix.
  - by apply stripEnd_fix_last.
Qed.

Lemma spaceWords_cleanWords (s : jsstring) :
  onlySp s → cleanWords (spaceWords s).
Proof.
  intros Hs. pose proof (spaceWords_clean s Hs) as Hc.
  unfold cleanWords. rewrite Forall_forall in Hc |- *.
  intros w Hw. split; [|by apply Hc].
  unfold spaceWords, filterBoolean in Hw.
  apply list_elem_of_In, filter_In in Hw as [_ Hw]. by destruct w.
Qed.

Lemma capWords_idem (x : jsstring) (n : nat) :
  capWords (capWords x n) n = capWords x n.
Proof.
  unfold capWords at 1. cbv zeta.
  assert (Hc : cleanWords
                 (take n (filterBoolean
                            (splitOn (N.eqb 32) (sanitizeOneLine x))))).
  { apply Forall_take. apply spaceWords_cleanWords.
    apply (tidy_onlySp false), tidy_sanitizeOneLine. }
  unfold capWords. cbv zeta. rewrite (join_fix _ Hc).
  fold (spaceWords (join [32]
          (take n (filterBoolean (splitOn (N.eqb 32) (sanitizeOneLine x)))))).
  rewrite (spaceWords_join _ Hc). by rewrite take_take, Nat.min_id.
Qed.

(** ** Skill grouping *)

Section UniqFacts.
Context {A : Type} `{Countable A}.

Lemma uniqLoop_spec (seen : gset A) (l : list A) :
  NoDup (uniqLoop seen l)
  ∧ (∀ x, x ∈ uniqLoop seen l → (x ∉ seen) ∧ x ∈ l)
  ∧ (∀ x, x ∈ l → x ∈ seen ∨ x ∈ uniqLoop seen l)
  ∧ (length (uniqLoop seen l) ≤ length l)%nat.
Proof.
  revert seen. induction l as [|a l IH]; intros seen; cbn [uniqLoop].
  { split_and!; [constructor| |by intros x ?%elem_of_nil|done].
    by intros x ?%elem_of_nil. }
  destruct (bool_decide (a ∈ seen)) eqn:Ea.
  - apply bool_decide_eq_true in Ea.
    destruct (IH seen) as (Hn & Hin & Hall & Hlen).
    split_and!; [done| | |simpl; lia].
    + intros x Hx. destruct (Hin x Hx). split; [done|by right].
    + intros x [->|Hx]%elem_of_cons; [by left|by apply Hall].
  - apply bool_decide_eq_false in Ea.
    destruct (IH ({[a]} ∪ seen)) as (Hn & Hin & Hall & Hlen).
    split_and!; [| | |simpl; lia].
    + constructor; [|done]. intros Ha. destruct (Hin a Ha) as [Hns _].
      apply Hns. apply elem_of_union. left. by apply elem_of_singleton.
    + intros x [->|Hx]%elem_of_cons; [split; [done|by left]|].
      destruct (Hin x Hx) as [Hns Hl]. split; [|by right].
      intros Hs. apply Hns. apply elem_of_union. by right.
    + intros x [->|Hx]%elem_of_cons; [right; by left|].
      destruct (Hall x Hx) as [Hs|Hu]; [|right; by right].
      apply elem_of_union in Hs as [Hs|Hs]; [|by left].
      apply elem_of_singleton in Hs. subst. right. by left.
Qed.

Lemma uniq_NoDup (l : list A) : NoDup (uniq l).
Proof. apply uniqLoop_spec. Qed.

Lemma uniq_elem (l : list A) (x : A) : x ∈ uniq l ↔ x ∈ l.
Proof.
  destruct (uniqLoop_spec ∅ l) as (_ & Hin & Hall & _). split.
  - intros Hx. by apply Hin.
  - intros Hx. destruct (Hall x Hx) as [Hs|Hu]; [|done].
    by apply elem_of_empty in Hs.
Qed.

Lemma uniq_length (l : list A) : (length (uniq l) ≤ length l)%nat.
Proof. apply uniqLoop_spec. Qed.

Lemma uniq_nonempty (l : list A) : l ≠ [] → uniq l ≠ [].
Proof.
  destruct l as [|a l]; [done|]. intros _ Hu.
  assert (Ha : a ∈ uniq (a :: l)) by (apply uniq_elem; by left).
  rewrite Hu in Ha. by apply elem_of_nil in Ha.
Qed.

End UniqFacts.

Section SortFacts.
Context {A : Type} (cmp : A → A → Z).

Lemma insertBy_perm (x : A) (l : list A) : insertBy cmp x l ≡ₚ x :: l.
Proof.
  induction l as [|y l IH]; cbn [insertBy]; [done|].
  destruct (_ <=? _)%Z; [reflexivity|].
  rewrite IH. apply Permutation_swap.
Qed.

Lemma sortBy_perm (l : list A) : sortBy cmp l ≡ₚ l.
Proof.
  unfold sortBy. induction l as [|x l IH]; cbn [foldr]; [done|].
  rewrite insertBy_perm. by rewrite IH.
Qed.

End SortFacts.

Section BucketFacts.
Context `{Host}.

Lemma strOf_isStr (l : list skillval) :
  forallb isStr l = true → map SkillStr (map strOf l) = l.
Proof.
  induction l as [|v l IH]; [done|]. cbn [forallb map].
  intros [Hv Hl]%andb_true_iff. rewrite IH by done. by destruct v.
Qed.

Lemma sortBucket_perm (l v : list skillval) :
  sortBucket l = Returns v → v ≡ₚ l.
Proof.
  unfold sortBucket. destruct (forallb isStr l) eqn:E.
  - intros [= <-]. rewrite <- (strOf_isStr l E) at 2.
    apply Permutation_map, sortBy_perm.
  - destruct (_ <=? _)%nat; [intros [= <-]; reflexivity|].
    destruct (forallb (λ v, negb (isStr v)) l); intros [=].
Qed.

Lemma sortBucket_strings (l : list skillval) :
  forallb isStr l = true → ∃ v, sortBucket l = Returns v.
Proof. intros E. unfold sortBucket. rewrite E. eauto. Qed.

(** What the second loop leaves under every key. *)
Lemma pruneBuckets_spec (buckets : gmap jsstring (list skillval))
    (cats : list jsstring) (pruned g : gmap jsstring (list skillval)) :
  pruneBuckets buckets cats pruned = Returns g →
  ∀ k,
    (k ∈ cats → bucketOf buckets k ≠ [] →
     ∃ v, g !! k = Some v ∧ v ≡ₚ uniq (bucketOf buckets k))
    ∧ ((k ∈ cats → bucketOf buckets k = []) → g !! k = pruned !! k).
Proof.
  revert pruned. induction cats as [|cat r IH]; intros pruned;
    cbn [pruneBuckets].
  { intros [= <-] k. split; [by intros ?%elem_of_nil|done]. }
  fold (bucketOf buckets cat).
  destruct (bucketOf buckets cat) as [|b0 b] eqn:Eb.
  - intros Hg k. destruct (IH _ Hg k) as [IH1 IH2]. split.
    + intros [->|Hk]%elem_of_cons Hne; [congruence|by apply IH1].
    + intros Hk. apply IH2. intros Hr. apply Hk. by right.
  - destruct (sortBucket (uniq (b0 :: b))) as [sorted| |] eqn:Es; [|done..].
    intros Hg k. destruct (IH _ Hg k) as [IH1 IH2].
    destruct (decide (k ∈ r)) as [Hr|Hr].
    + split.
      * intros _ Hne. by apply IH1.
      * intros Hk. rewrite IH2 by (intros _; apply Hk; by right).
        assert (k ≠ cat).
        { intros ->. specialize (Hk ltac:(by left)). congruence. }
        by rewrite lookup_insert_ne.
    + split.
      * intros [->|Hk]%elem_of_cons Hne; [|done].
        rewrite IH2 by done. rewrite lookup_insert_eq.
        exists sorted. split; [done|].
        rewrite Eb. by apply sortBucket_perm.
      * intros Hk. rewrite IH2 by done.
        assert (k ≠ cat).
        { intros ->. specialize (Hk ltac:(by left)). congruence. }
        by rewrite lookup_insert_ne.
Qed.

(** The second loop returns when the buckets only hold strings. *)
Lemma pruneBuckets_strings (buckets : gmap jsstring (list skillval))
    (cats : list jsstring) (pruned : gmap jsstring (list skillval)) :
  (∀ k v, v ∈ bucketOf buckets k → isStr v = true) →
  ∃ g, pruneBuckets buckets cats pruned = Returns g.
Proof.
  intros Hstr. revert pruned.
  induction cats as [|cat r IH]; intros pruned; cbn [pruneBuckets]; [eauto|].
  fold (bucketOf buckets cat).
  destruct (bucketOf buckets cat) as [|b0 b] eqn:Eb; [apply IH|].
  destruct (sortBucket_strings (uniq (b0 :: b))) as [v ->]; [|apply IH].
  apply forallb_forall. intros x Hx%list_elem_of_In.
  apply (proj1 (uniq_elem _ _)) in Hx.
  apply (Hstr cat). by rewrite Eb.
Qed.

End BucketFacts.
Lemma ORDER_NoDup : NoDup ORDER.
Proof. apply (bool_decide_unpack _). by vm_compute. Qed.

Lemma bucketOf_insert {V} (m : gmap jsstring (list V)) (k j : jsstring)
    (v : list V) :
  bucketOf (<[k := v]> m) j = if decide (k = j) then v else bucketOf m j.
Proof.
  unfold bucketOf. destruct (decide (k = j)) as [->|Hne].
  - by rewrite lookup_insert_eq.
  - by rewrite lookup_insert_ne.
Qed.

Lemma bucket_sum_other {V} (m : gmap jsstring (list V)) (k : jsstring)
    (v : list V) (ks : list jsstring) :
  k ∉ ks →
  sum_list (map (λ j, length (bucketOf (<[k := v]> m) j)) ks)
  = sum_list (map (λ j, length (bucketOf m j)) ks).
Proof.
  induction ks as [|j ks IH]; [done|]. intros Hk.
  apply not_elem_of_cons in Hk as [Hne Hk]. cbn [map sum_list].
  rewrite bucketOf_insert, decide_False by done. by rewrite IH.
Qed.

Lemma bucket_sum_push {V} (m : gmap jsstring (list V)) (k : jsstring)
    (x : V) (ks : list jsstring) :
  NoDup ks → k ∈ ks →
  sum_list (map (λ j, length (bucketOf (<[k := bucketOf m k ++ [x]]> m) j)) ks)
  = S (sum_list (map (λ j, length (bucketOf m j)) ks)).
Proof.
  induction 1 as [|j ks Hj Hks IH]; [by intros ?%elem_of_nil|].
  cbn [map sum_list]. rewrite bucketOf_insert.
  intros [->|Hk]%elem_of_cons.
  - rewrite decide_True by done. rewrite bucket_sum_other by done.
    rewrite length_app. simpl. lia.
  - rewrite decide_False by (intros ->; done). rewrite IH by done. lia.
Qed.

Lemma firstCategory_key (n cat : jsstring)
    (cats : list (jsstring * list jsstring)) :
  firstCategory n cats = Some cat → cat ∈ map fst cats.
Proof.
  induction cats as [|[c l] cats IH]; [done|]. cbn [firstCategory map fst].
  destruct (listIncludes n l); [intros [= ->]; by left|].
  intros Hc. right. by apply IH.
Qed.

Lemma category_keys : Forall (λ c, c ∈ ORDER) (map fst CATS_LOCAL).
Proof. apply (bool_decide_unpack _). by vm_compute. Qed.

Lemma detect_in_ORDER (n : jsstring) : detectLocalCategory n ∈ ORDER.
Proof.
  unfold detectLocalCategory.
  destruct (firstCategory n CATS_LOCAL) as [cat|] eqn:E.
  - apply firstCategory_key in E.
    pose proof category_keys as HF. rewrite Forall_forall in HF. by apply HF.
  - destruct (altFrom _ _ _ _); [by apply (bool_decide_unpack _)|].
    destruct (altFrom _ _ _ _); by apply (bool_decide_unpack _).
Qed.

Lemma firstCategory_none (n : jsstring)
    (cats : list (jsstring * list jsstring)) :
  existsb (λ cl, listIncludes n (snd cl)) cats = false →
  firstCategory n cats = None.
Proof.
  induction cats as [|[c l] cats IH]; [done|]. cbn [existsb firstCategory snd].
  intros [-> Hr]%orb_false_iff. by apply IH.
Qed.

(** A skill that matches no category is sent to [Other]. *)
Lemma detect_other (n : jsstring) :
  matchesNoCategory n = true → detectLocalCategory n = lit "Other".
Proof.
  unfold matchesNoCategory, detectLocalCategory.
  intros [[H1 H2]%andb_true_iff H3]%andb_true_iff.
  apply negb_true_iff in H1, H2, H3.
  by rewrite (firstCategory_none _ _ H1), H2, H3.
Qed.

Lemma initialBuckets_empty (k : jsstring) : bucketOf initialBuckets k = [].
Proof.
  unfold bucketOf. destruct (initialBuckets !! k) as [v|] eqn:E; [|done].
  unfold initialBuckets in E. apply elem_of_list_to_map_2 in E.
  apply list_elem_of_In, in_map_iff in E as (c & [= _ <-] & _). done.
Qed.

Section FillFacts.
Context `{Host}.

Lemma distinctNorms_snoc (raw : list jsstring) (s : jsstring) :
  distinctNorms (raw ++ [s])
  = distinctNorms raw ∪ (if truthy (norm s) then {[norm s]} else ∅).
Proof.
  unfold distinctNorms, filterBoolean. rewrite map_app, List.filter_app.
  rewrite list_to_set_app_L. f_equal. cbn [map List.filter].
  destruct (truthy (norm s)); simpl; [|done]. by rewrite union_empty_r_L.
Qed.

Lemma distinctNorms_elem (raw : list jsstring) (n : jsstring) :
  n ∈ distinctNorms raw ↔ n ≠ [] ∧ ∃ s, s ∈ raw ∧ norm s = n.
Proof.
  unfold distinctNorms, filterBoolean. rewrite elem_of_list_to_set.
  rewrite list_elem_of_In, filter_In, in_map_iff. split.
  - intros [(s & <- & Hs) Ht]. split; [by apply truthy_nonempty|].
    exists s. split; [by apply list_elem_of_In|done].
  - intros [Hne (s & Hs & <-)]. split; [|by apply truthy_nonempty].
    exists s. split; [done|by apply list_elem_of_In].
Qed.

Lemma bucketsInv_initial : bucketsInv [] (∅, initialBuckets).
Proof.
  split_and!.
  - done.
  - cbn [fst snd]. rewrite size_empty. unfold groupedTotal.
    generalize ORDER. intros ks.
    induction ks as [|k ks IH]; [done|]. cbn [map sum_list].
    by rewrite initialBuckets_empty, IH.
  - by intros s ?%elem_of_nil.
  - intros k v. cbn [snd]. rewrite initialBuckets_empty.
    by intros ?%elem_of_nil.
Qed.

Lemma bucketsInv_push (raw : list jsstring) (s : jsstring)
    (st : gset jsstring * gmap jsstring (list skillval)) :
  bucketsInv raw st → bucketsInv (raw ++ [s]) (pushSkill st s).
Proof.
  destruct st as [seen buckets]. intros (Hseen & Hsum & Hin & Hfrom).
  cbn [fst snd] in *. unfold pushSkill.
  destruct (truthy (norm s)) eqn:Et; cbn [negb orb].
  2:{ split_and!; cbn [fst snd].
      - rewrite distinctNorms_snoc, Et. by rewrite union_empty_r_L.
      - done.
      - intros s1 [Hs1|Hs1]%elem_of_app Hne.
        + destruct (Hin s1 Hs1 Hne) as (s' & ? & ? & ?).
          exists s'. split_and!; [apply elem_of_app; by left|done|done].
        + apply list_elem_of_singleton in Hs1 as ->.
          apply truthy_nonempty in Hne. congruence.
      - intros k v Hv. destruct (Hfrom k v Hv) as (s' & ? & ? & ? & ?).
        exists s'. split_and!; [apply elem_of_app; by left|done..]. }
  destruct (bool_decide (norm s ∈ seen)) eqn:Es.
  - apply bool_decide_eq_true in Es. split_and!; cbn [fst snd].
    + rewrite distinctNorms_snoc, Et, <- Hseen.
      apply set_eq. intros x. rewrite elem_of_union, elem_of_singleton.
      split; [by left|]. by intros [?| ->].
    + done.
    + intros s1 [Hs1|Hs1]%elem_of_app Hne.
      * destruct (Hin s1 Hs1 Hne) as (s' & ? & ? & ?).
        exists s'. split_and!; [apply elem_of_app; by left|done|done].
      * apply list_elem_of_singleton in Hs1 as ->.
        rewrite Hseen in Es. apply distinctNorms_elem in Es as [_ (s0 & Hs0 & E0)].
        destruct (Hin s0 Hs0) as (s' & ? & ? & Hp); [by rewrite E0|].
        exists s'. split_and!; [apply elem_of_app; by left|congruence|].
        by rewrite <- E0.
    + intros k v Hv. destruct (Hfrom k v Hv) as (s' & ? & ? & ? & ?).
      exists s'. split_and!; [apply elem_of_app; by left|done..].
  - apply bool_decide_eq_false in Es. split_and!; cbn [fst snd].
    + rewrite distinctNorms_snoc, Et, <- Hseen. apply union_comm_L.
    + unfold groupedTotal. fold (bucketOf buckets (detectLocalCategory (norm s))).
      rewrite bucket_sum_push;
        [|apply ORDER_NoDup|apply detect_in_ORDER].
      fold (groupedTotal buckets). rewrite Hsum.
      by rewrite size_union, size_singleton by set_solver.
    + intros s1 Hs1 Hne.
      assert (Hkeep : ∀ s' k, pretty s' ∈ bucketOf buckets k →
        pretty s' ∈ bucketOf
          (<[detectLocalCategory (norm s) :=
               default [] (buckets !! detectLocalCategory (norm s))
               ++ [pretty s]]> buckets) k).
      { intros s' k Hp. rewrite bucketOf_insert. case_decide; [|done].
        subst k. apply elem_of_app. by left. }
      apply elem_of_app in Hs1 as [Hs1|Hs1].
      * destruct (Hin s1 Hs1 Hne) as (s' & ? & ? & ?).
        exists s'. split_and!; [apply elem_of_app; by left|done|].
        by apply Hkeep.
      * apply list_elem_of_singleton in Hs1 as ->.
        exists s. split_and!; [apply elem_of_app; right; by left|done|].
        rewrite bucketOf_insert, decide_True by done.
        apply elem_of_app. right. by left.
    + intros k v. rewrite bucketOf_insert. case_decide as Hk.
      * intros [Hv|Hv]%elem_of_app.
        -- subst k. destruct (Hfrom _ v Hv) as (s' & ? & ? & ? & ?).
           exists s'. split_and!; [apply elem_of_app; by left|done..].
        -- apply list_elem_of_singleton in Hv as ->.
           exists s. split_and!;
             [apply elem_of_app; right; by left|done|
              by apply truthy_nonempty|done].
      * intros Hv. destruct (Hfrom k v Hv) as (s' & ? & ? & ? & ?).
        exists s'. split_and!; [apply elem_of_app; by left|done..].
Qed.

Lemma bucketsInv_fold (raw0 raw : list jsstring)
    (st : gset jsstring * gmap jsstring (list skillval)) :
  bucketsInv raw0 st → bucketsInv (raw0 ++ raw) (fold_left pushSkill raw st).
Proof.
  revert raw0 st. induction raw as [|s raw IH]; intros raw0 st Hst.
  - by rewrite app_nil_r.
  - cbn [fold_left]. replace (raw0 ++ s :: raw) with ((raw0 ++ [s]) ++ raw)
      by (by rewrite <- app_assoc).
    apply IH. by apply bucketsInv_push.
Qed.

Lemma fillBuckets_inv (raw : list jsstring) :
  bucketsInv raw (fillBuckets raw).
Proof. apply (bucketsInv_fold [] raw), bucketsInv_initial. Qed.

End FillFacts.
Section GroupFacts.
Context `{Host}.

Lemma pretty_isStr (s : jsstring) :
  inheritedKey (norm s) = false → isStr (pretty s) = true.
Proof.
  unfold inheritedKey, pretty, PRETTY_get.
  intros [H1 H2]%orb_false_iff.
  destruct (assoc (norm s) PRETTY_own); [done|].
  by rewrite H1, H2.
Qed.

(** The answer of the local heuristic, key by key. *)
Lemma groupSkillsLocal_lookup (raw : list jsstring)
    (g : gmap jsstring (list skillval)) (k : jsstring) (v : list skillval) :
  groupSkillsLocal raw = Returns g → g !! k = Some v →
  k ∈ ORDER ∧ v ≠ [] ∧ NoDup v.
Proof.
  unfold groupSkillsLocal. intros Hg Hk.
  destruct (pruneBuckets_spec _ _ _ _ Hg k) as [H1 H2].
  destruct (decide (k ∈ ORDER)) as [Hin|Hout].
  2:{ rewrite H2 in Hk by done. by rewrite lookup_empty in Hk. }
  destruct (decide (bucketOf (snd (fillBuckets raw)) k = [])) as [He|Hne].
  { rewrite H2 in Hk by done. by rewrite lookup_empty in Hk. }
  destruct (H1 Hin Hne) as (v' & Hv' & Hp). simplify_eq.
  split_and!; [done| |].
  - intros ->. apply Permutation_nil_l in Hp.
    by apply (uniq_nonempty _ Hne).
  - rewrite Hp. apply uniq_NoDup.
Qed.

Lemma groupSkillsLocal_lands (raw : list jsstring)
    (g : gmap jsstring (list skillval)) (s : jsstring) :
  groupSkillsLocal raw = Returns g → s ∈ raw → norm s ≠ [] →
  ∃ v s', g !! detectLocalCategory (norm s) = Some v
          ∧ s' ∈ raw ∧ norm s' = norm s ∧ pretty s' ∈ v.
Proof.
  unfold groupSkillsLocal. intros Hg Hs Hne.
  destruct (fillBuckets_inv raw) as (_ & _ & Hin & _).
  destruct (Hin s Hs Hne) as (s' & Hs' & En & Hp).
  destruct (pruneBuckets_spec _ _ _ _ Hg (detectLocalCategory (norm s)))
    as [H1 _].
  destruct H1 as (v & Hv & Hperm); [apply detect_in_ORDER| |].
  { intros He. rewrite He in Hp. by apply elem_of_nil in Hp. }
  exists v, s'. split_and!; [done..|].
  rewrite Hperm. by apply uniq_elem.
Qed.

Lemma groupSkillsLocal_total (raw : list jsstring)
    (g : gmap jsstring (list skillval)) :
  groupSkillsLocal raw = Returns g →
  (groupedTotal g ≤ size (distinctNorms raw))%nat.
Proof.
  unfold groupSkillsLocal. intros Hg.
  destruct (fillBuckets_inv raw) as (Hseen & Hsum & _ & _).
  rewrite <- Hseen, <- Hsum. unfold groupedTotal.
  assert (Hle : ∀ k, (length (bucketOf g k)
                      ≤ length (bucketOf (snd (fillBuckets raw)) k))%nat).
  { intros k. destruct (pruneBuckets_spec _ _ _ _ Hg k) as [H1 H2].
    destruct (decide (k ∈ ORDER
                      ∧ bucketOf (snd (fillBuckets raw)) k ≠ [])) as [[? ?]|Hn].
    - destruct H1 as (v & Hv & Hp); [done..|].
      unfold bucketOf at 1. rewrite Hv. cbn [default]. rewrite Hp.
      apply uniq_length.
    - unfold bucketOf at 1. rewrite H2, lookup_empty; [simpl; lia|].
      intros Hk. destruct (decide (bucketOf (snd (fillBuckets raw)) k = []));
        [done|]. exfalso. by apply Hn. }
  clear -Hle. generalize ORDER. intros ks.
  induction ks as [|k ks IH]; [done|]. cbn [map sum_list]. cbv beta.
  apply Nat.add_le_mono; [apply Hle|apply IH].
Qed.

Lemma groupSkillsLocal_returns (raw : list jsstring) :
  Forall (λ s, inheritedKey (norm s) = false) raw →
  ∃ g, groupSkillsLocal raw = Returns g.
Proof.
  intros Hraw. unfold groupSkillsLocal. apply pruneBuckets_strings.
  intros k v Hv.
  destruct (fillBuckets_inv raw) as (_ & _ & _ & Hfrom).
  destruct (Hfrom k v Hv) as (s' & Hs' & -> & _).
  apply pretty_isStr. rewrite Forall_forall in Hraw. by apply Hraw.
Qed.

(** The loop that closes [groupSkillsAI], key by key. *)
Lemma sanitizeCategories_lookup (fields : gmap jsstring field)
    (cats : list jsstring) (k : jsstring) (v : list jsstring) :
  sanitizeCategories fields cats !! k = Some v →
  k ∈ cats ∧ v ≠ [] ∧ NoDup v
  ∧ ∀ x, x ∈ v ↔ x ∈ categoryArray fields k.
Proof.
  induction cats as [|cat r IH]; cbn [sanitizeCategories].
  { by rewrite lookup_empty. }
  destruct (categoryArray fields cat) as [|a arr] eqn:Ea.
  - intros Hk. destruct (IH Hk) as (? & ? & ? & ?).
    split_and!; [by right|done..].
  - destruct (decide (cat = k)) as [->|Hne].
    + rewrite lookup_insert_eq. intros [= <-].
      assert (Hp : sortBy localeCompare (uniq (a :: arr)) ≡ₚ uniq (a :: arr))
        by apply sortBy_perm.
      split_and!; [by left| | |].
      * intros E. rewrite E in Hp. apply Permutation_nil_l in Hp.
        by apply (uniq_nonempty (a :: arr)).
      * rewrite Hp. apply uniq_NoDup.
      * intros x. rewrite Hp, Ea. apply uniq_elem.
    + rewrite lookup_insert_ne by done. intros Hk.
      destruct (IH Hk) as (? & ? & ? & ?). split_and!; [by right|done..].
Qed.

End GroupFacts.

(** ** The ATS linter *)

Section AtsFacts.
Variable JSON_stringify : CV → jsstring.

Lemma estimatedPages_nearest (wc : nat) :
  let est := estimatedPages wc in
  1 ≤ est ∧
  ((N.of_nat wc < 750 ∧ est = 1) ∨
   (750 ≤ N.of_nat wc ∧ 500 * est ≤ N.of_nat wc + 250 < 500 * est + 500)).
Proof.
  unfold estimatedPages. cbv zeta.
  set (n := N.of_nat wc).
  pose proof (N.div_mod (n + 250) 500 ltac:(lia)) as Hd.
  pose proof (N.mod_lt (n + 250) 500 ltac:(lia)) as Hm.
  set (q := (n + 250) / 500) in *. set (r := (n + 250) mod 500) in *.
  clearbody q r. lia.
Qed.

Lemma headings_standard (cv : CV) :
  Forall (λ h, h ∈ STANDARD_HEADINGS) (collectHeadings cv).
Proof.
  unfold collectHeadings.
  repeat apply Forall_app_2;
    repeat match goal with
           | |- Forall _ (if ?b then _ else _) => destruct b
           | |- Forall _ (match ?l with [] => _ | _ :: _ => _ end) => destruct l
           end;
    try apply Forall_nil_2;
    apply Forall_singleton; vm_compute; done.
Qed.

Lemma heading_warnings_nil (cv : CV) :
  flat_map (fun h =>
       if bool_decide (h ∈ STANDARD_HEADINGS) then []
       else [lit "Non" ++ [8209] ++ lit "standard section heading: " ++ h])
       (collectHeadings cv) = [].
Proof.
  pose proof (headings_standard cv) as HF.
  induction HF as [|h l Hh _ IH]; simpl; [done|].
  rewrite bool_decide_true by done. exact IH.
Qed.

(** The warnings of [lintCV], rule by rule: the heading rule adds
    nothing. *)
Lemma lintCV_unfold cv p html :
  lintCV JSON_stringify cv p html =
  (if effectiveLimit p <? estimatedPages (wordCount (textContentFromCV cv))
   then [pageWarning cv p] else [])
  ++ laterWarnings JSON_stringify cv html.
Proof.
  unfold lintCV. cbv zeta. rewrite heading_warnings_nil. reflexivity.
Qed.

(** No later warning starts like the page-limit message or like the
    heading message. *)
Lemma laterWarnings_prefix cv html w :
  w ∈ laterWarnings JSON_stringify cv html →
  startsWith PAGE_PREFIX w = false ∧ startsWith HEADING_PREFIX w = false.
Proof.
  unfold laterWarnings. rewrite elem_of_app. intros [Hw|Hw].
  - destruct (dateRegex_test _); [by apply elem_of_nil in Hw|].
    apply list_elem_of_singleton in Hw. subst w. by vm_compute.
  - destruct html as [h|]; [|by apply elem_of_nil in Hw].
    rewrite !elem_of_app in Hw.
    destruct Hw as [Hw|[Hw|Hw]];
      match type of Hw with _ ∈ (if ?b then _ else _) => destruct b end;
      try (by apply elem_of_nil in Hw);
      apply list_elem_of_singleton in Hw; subst w; by vm_compute.
Qed.

Lemma pageWarning_prefix cv p :
  startsWith PAGE_PREFIX (pageWarning cv p) = true
  ∧ startsWith HEADING_PREFIX (pageWarning cv p) = false.
Proof. split; reflexivity. Qed.


End AtsFacts.

(** C3 (amended).  The estimated page count is the word count divided
    by 500 and rounded to the nearest integer (a half upwards), never
    less than 1: it is 1 below 750 words and otherwise the [est] with
    [500 est - 250 <= words < 500 est + 250].  The page-limit message is
    among the warnings exactly when the estimate exceeds the pack's
    [page_limit] (2 when the pack has none or has 0).  A document of 1100
    words has an estimate of 2 pages, and is warned about against a
    [page_limit] of 1. *)
Theorem lintCV_page_limit (JSON_stringify : CV → jsstring) (cv : CV)
    (p : pack) (html : option preview) :
  let wc := wordCount (textContentFromCV cv) in
  let est := estimatedPages wc in
  let warnings := lintCV JSON_stringify cv p html in
  (1 ≤ est ∧
   ((N.of_nat wc < 750 ∧ est = 1) ∨
    (750 ≤ N.of_nat wc ∧ 500 * est ≤ N.of_nat wc + 250 < 500 * est + 500)))
  ∧ ((effectiveLimit p < est ∧ pageWarning cv p ∈ warnings) ∨
     (est ≤ effectiveLimit p ∧
      Forall (λ w, startsWith PAGE_PREFIX w = false) warnings))
  ∧ (wordCount (textContentFromCV cv1100) = 1100%nat
     ∧ estimatedPages 1100 = 2
     ∧ lintCV JSON_stringify cv1100 usPack html !! 0%nat
       = Some (lit "Estimated length 2 pages exceeds 1 page limit for UK.")).
Proof.
  cbv zeta. split; [apply estimatedPages_nearest|]. split.
  - rewrite lintCV_unfold.
    destruct (N.lt_ge_cases (effectiveLimit p)
                (estimatedPages (wordCount (textContentFromCV cv)))) as [Hlt|Hge].
    + left. split; [done|].
      apply N.ltb_lt in Hlt. rewrite Hlt. apply elem_of_app. left.
      by apply list_elem_of_singleton.
    + right. split; [done|].
      apply N.ltb_ge in Hge. rewrite Hge. simpl.
      apply Forall_forall. intros w Hw.
      by apply (laterWarnings_prefix JSON_stringify) in Hw as [? _].
  - split; [by vm_compute|]. split; [by vm_compute|].
    rewrite lintCV_unfold.
    replace (effectiveLimit usPack <?
             estimatedPages (wordCount (textContentFromCV cv1100)))
      with true by (by vm_compute).
    change (Some (pageWarning cv1100 usPack)
            = Some (lit "Estimated length 2 pages exceeds 1 page limit for UK.")).
    by vm_compute.
Qed.

(** C3, as stated, fails on a document of 1100 words: the source rounds
    [1100 / 500] to 2 pages, the rounding up of the claim gives 3. *)
Lemma lintCV_page_estimate_not_ceil :
  wordCount (textContentFromCV cv1100) = 1100%nat
  ∧ estimatedPages 1100 = 2
  ∧ specEstimatedPages 1100 = 3.
Proof. by vm_compute. Qed.

(** C10.  [collectHeadings] only yields headings of [STANDARD_HEADINGS],
    so no warning of [lintCV] is a non-standard-heading message. *)
Theorem lintCV_no_heading_warning (JSON_stringify : CV → jsstring) (cv : CV)
    (p : pack) (html : option preview) :
  Forall (λ h, h ∈ STANDARD_HEADINGS) (collectHeadings cv)
  ∧ Forall (λ w, startsWith HEADING_PREFIX w = false)
           (lintCV JSON_stringify cv p html).
Proof.
  split; [apply headings_standard|].
  rewrite lintCV_unfold. apply Forall_app_2.
  - destruct (_ <? _); [|apply Forall_nil_2].
    apply Forall_singleton. apply pageWarning_prefix.
  - apply Forall_forall. intros w Hw.
    by apply (laterWarnings_prefix JSON_stringify) in Hw as [_ ?].
Qed.
(** ** The rewrite action *)

Section RewriteFacts.
Context `{Host}.




End RewriteFacts.



(** ** Country rule packs *)

Section PackFacts.
Context `{Host}.

Lemma hasSection_app_l (out more : list jsval) (s : jsstring) :
  hasSection out s = true → hasSection (out ++ more) s = true.
Proof. unfold hasSection. rewrite existsb_app. by intros ->. Qed.

Lemma hasSection_addExtra_same (out : list jsval) (s : jsstring) :
  hasSection (addExtra out s) s = true.
Proof.
  unfold addExtra. destruct (hasSection out s) eqn:E; [done|].
  unfold hasSection. rewrite existsb_app. simpl.
  rewrite bool_decide_true by done. by rewrite orb_true_r.
Qed.

Lemma hasSection_addExtra_mono (out : list jsval) (s t : jsstring) :
  hasSection out t = true → hasSection (addExtra out s) t = true.
Proof.
  unfold addExtra. destruct (hasSection out s); [done|].
  apply hasSection_app_l.
Qed.

Lemma hasSection_spec (out : list jsval) (s : jsstring) :
  hasSection out s = true ↔
  ∃ x, x ∈ out ∧ toLowerCase (toStr x) = toLowerCase s.
Proof.
  unfold hasSection. rewrite existsb_exists. split.
  - intros (x & Hin & Hx). exists x. split; [by apply list_elem_of_In|].
    by apply bool_decide_eq_true in Hx.
  - intros (x & Hin & Hx). exists x. split; [by apply list_elem_of_In|].
    by apply bool_decide_eq_true.
Qed.

(** What the loop of [ensureExtras] does over any list of names. *)
Lemma addExtras_fold (names : list jsstring) (arr : list jsval) :
  let r := fold_left addExtra names arr in
  (∀ t, hasSection arr t = true → hasSection r t = true)
  ∧ (∀ s, s ∈ names → hasSection r s = true)
  ∧ ∃ extras, r = arr ++ map JString extras
              ∧ sublist extras names
              ∧ ∀ s, s ∈ extras → hasSection arr s = false.
Proof.
  revert arr. induction names as [|n names IH]; intros arr; simpl.
  - split; [done|]. split; [by intros s ?%elem_of_nil|].
    exists []. by rewrite app_nil_r; split_and!; [done|done|intros s ?%elem_of_nil].
  - destruct (IH (addExtra arr n)) as (Hmono & Hall & extras & Hr & Hsub & Hmiss).
    split; [|split].
    + intros t Ht. apply Hmono. by apply hasSection_addExtra_mono.
    + intros s [->|Hs]%elem_of_cons.
      * apply Hmono, hasSection_addExtra_same.
      * by apply Hall.
    + assert (Hmiss' : ∀ s, s ∈ extras → hasSection arr s = false).
      { intros s Hs. specialize (Hmiss s Hs).
        destruct (hasSection arr s) eqn:E; [|done].
        by rewrite (hasSection_addExtra_mono arr n s E) in Hmiss. }
      unfold addExtra in Hr |- *. destruct (hasSection arr n) eqn:En.
      * exists extras. split_and!; [done| by apply sublist_cons |done].
      * exists (n :: extras). split_and!.
        -- rewrite Hr. by rewrite <- app_assoc.
        -- by apply sublist_skip.
        -- intros s [->|Hs]%elem_of_cons; [done|by apply Hmiss'].
Qed.

Lemma ensureExtras_spec (arr : list jsval) :
  Forall (λ s, ∃ x, x ∈ ensureExtras arr
                    ∧ toLowerCase (toStr x) = toLowerCase s) need
  ∧ ∃ extras, ensureExtras arr = arr ++ map JString extras
              ∧ sublist extras need
              ∧ ∀ s, s ∈ extras → hasSection arr s = false.
Proof.
  destruct (addExtras_fold need arr) as (_ & Hall & Hex).
  split; [|exact Hex].
  apply Forall_forall. intros s Hs. apply hasSection_spec. by apply Hall.
Qed.

Lemma countryPacks_set (country : jsstring) (p : pack) (st : store) :
  countryPacks (setCountryPack country p st) !! country = Some p.
Proof.
  unfold countryPacks, setCountryPack.
  destruct (loadedPacks st); simpl; apply lookup_insert_eq.
Qed.

Lemma uk_builtin : is_Some (BUILTIN_PACKS !! lit "UK").
Proof. eexists. by vm_compute. Qed.

(** [DEFAULT_PACKS['UK']] is there in every store of a session. *)
Lemma reachableStore_uk (st : store) :
  reachableStore st → is_Some (DEFAULT_PACKS st !! lit "UK").
Proof.
  induction 1 as [fromJson|st country res _ IH]; [apply uk_builtin|].
  unfold updateCountryPackFromGemini.
  destruct res as [| |spec]; try done.
  destruct (baseSections st country); [|done].
  unfold setCountryPack. destruct (loadedPacks st); simpl; [done|].
  destruct (decide (country = lit "UK")) as [->|Hne].
  - rewrite lookup_insert_eq. eauto.
  - by rewrite lookup_insert_ne.
Qed.

Lemma baseSections_reachable (st : store) (country : jsstring) :
  reachableStore st → is_Some (baseSections st country).
Proof.
  intros [uk Huk]%reachableStore_uk. unfold baseSections.
  destruct (DEFAULT_PACKS st !! country); [eauto|]. rewrite Huk. simpl. eauto.
Qed.

Lemma baseSections_boot fromJson (country : jsstring) :
  baseSections (bootStore fromJson) country = Some (builtinSections country).
Proof.
  unfold baseSections, builtinSections, bootStore. simpl.
  destruct (BUILTIN_PACKS !! country); [done|]. by vm_compute.
Qed.

End PackFacts.

(** What a resolution ensures, in every store of a session and for every
    country code: a failed fetch (or a [null] body) leaves the store as
    it was; a fetched spec puts under the country a pack whose sections
    hold each of Projects, Certifications, Publications and Patents up to
    case, whatever the spec says; when the spec has no section order,
    these sections are the ones that [DEFAULT_PACKS] holds for the
    country at that time (those of UK for a country not listed) followed
    by the names among the four that were missing from them; and on the
    store that [init] leaves, [DEFAULT_PACKS] holds the lists written in
    the source. *)
Theorem updateCountryPack_sections `{Host} (st : store) (country : jsstring)
    (spec : cvspec) :
  reachableStore st →
  updateCountryPackFromGemini country FetchThrows st = st
  ∧ updateCountryPackFromGemini country FetchNull st = st
  ∧ (∃ p base,
       countryPacks (updateCountryPackFromGemini country (FetchSpec spec) st)
         !! country = Some p
       ∧ baseSections st country = Some base
       ∧ Forall (λ s, ∃ x, x ∈ sections p
                           ∧ toLowerCase (toStr x) = toLowerCase s) need
       ∧ (lacksSectionOrder spec = true →
          ∃ extras, sections p = base ++ map JString extras
                    ∧ sublist extras need
                    ∧ ∀ s, s ∈ extras → hasSection base s = false))
  ∧ (∀ fromJson, baseSections (bootStore fromJson) country
                 = Some (builtinSections country)).
Proof.
  intros Hst. split; [done|]. split; [done|]. split.
  - destruct (baseSections_reachable st country Hst) as [base Hbase].
    exists (mergedPack st country spec base), base.
    unfold updateCountryPackFromGemini. rewrite Hbase.
    split; [apply countryPacks_set|]. split; [done|].
    unfold mergedPack. simpl. split; [apply ensureExtras_spec|].
    unfold lacksSectionOrder. intros Hlack.
    destruct (spec_section_order spec) as [[|x l]|]; try done;
      apply ensureExtras_spec.
  - intros fromJson. apply baseSections_boot.
Qed.

(** The resolution for DE at start-up, with a spec that has no section
    order: the German list of the source followed by the four names. *)
Lemma updateCountryPack_sections_witness :
  sections <$>
    (countryPacks (@updateCountryPackFromGemini Latin1.host (lit "DE")
                     (FetchSpec bareSpec) (bootStore None)) !! lit "DE")
  = Some (builtinSections (lit "DE") ++ map JString need).
Proof.
  pose proof (@updateCountryPack_sections Latin1.host (bootStore None)
                (lit "DE") bareSpec (@reachable_boot Latin1.host None))
    as (_ & _ & (p & base & Hp & Hbase & _ & Hlack) & Hboot).
  rewrite Hp. simpl. f_equal.
  rewrite (Hboot None) in Hbase. injection Hbase as <-.
  clear Hlack Hboot.
  revert Hp. vm_compute. by intros [= <-].
Defined.

(** C9.  With a remote spec that has no section order the resolved
    sections are meant to be the built-in list of the country followed
    by the missing extras; for UK, whose built-in list holds the four
    names, that is the built-in list, and the first resolution of a
    session gives it.  But [countryPacks] is [DEFAULT_PACKS] itself when
    the JSON file of packs could not be loaded, so the first resolution
    overwrites the entry that the next one reads as the default: after
    [shortSpec], the resolution with [bareSpec] returns the sections of
    [shortSpec] and its extras, not the built-in list. *)
Lemma default_pack_follows_last_resolution :
  lacksSectionOrder bareSpec = true
  ∧ sections <$>
      (countryPacks (@updateCountryPackFromGemini Latin1.host (lit "UK")
                       (FetchSpec bareSpec) (bootStore None)) !! lit "UK")
    = Some (builtinSections (lit "UK"))
  ∧ sections <$> (countryPacks afterBareSpec !! lit "UK")
    = Some (strs (map lit ["Summary"; "PROJECTS"; "Certifications";
                           "Publications"; "Patents"]%string))
  ∧ sections <$> (DEFAULT_PACKS afterShortSpec !! lit "UK")
    = Some (strs (map lit ["Summary"; "PROJECTS"; "Certifications";
                           "Publications"; "Patents"]%string))
  ∧ builtinSections (lit "UK")
    = strs (map lit ["Summary"; "Experience"; "Education"; "Projects";
                     "Skills"; "Certifications"; "Publications";
                     "Patents"]%string).
Proof. by vm_compute. Qed.
(** ** The skills list *)

(** C8 at its failing input.  With no AI backend answering, the text
    [Python, python] typed into the skills box is tokenized, and the two
    spellings, which [Set] tells apart, both enter [CV.skills], although
    they are equal once lower-cased and white-space normalized (the
    [norm] of lib/skills.js); a prompt session or a writer that answers
    with the two spellings gives the same list. *)
Lemma skills_keep_case_variants :
  Skills.tokenizeSkills (lit "Python, python") = [lit "Python"; lit "python"]
  ∧ cvSkills (doc (normalizeAndGroupSkills false PromptUnavailable
                     WriterThrows (lit "Python, python") initial))
    = [lit "Python"; lit "python"]
  ∧ normalizeSkillsAI
      (PromptSkills [JString (lit "Python"); JString (lit "python")])
      WriterThrows (lit "Python, python")
    = [lit "Python"; lit "python"]
  ∧ normalizeSkillsAI PromptUnavailable
      (WriterText (lit "- Python, python")) (lit "Python, python")
    = [lit "Python"; lit "python"]
  ∧ @Skills.norm Latin1.host (lit "Python")
    = @Skills.norm Latin1.host (lit "python").
Proof. by vm_compute. Qed.
(** ** Bullet lists *)

(** What [sanitizeBulletList] ensures, for every list of lines and every
    line that it returns: the line is not empty, it has at most 22
    white-space-delimited tokens and it holds no known bad phrase; no
    two returned lines are equal once lower-cased; the returned lines are
    sanitized input lines, in the order of the input; and every sanitized
    input line that is not empty and holds no bad phrase has a returned
    line equal to it up to case. *)
Theorem sanitizeBulletList_lines `{Host} (lines : list jsstring) :
  let out := sanitizeBulletList lines in
  Forall (λ s, s ≠ [] ∧ (wordCount s ≤ 22)%nat ∧ hasBadPhrase s = false) out
  ∧ NoDup (map toLowerCase out)
  ∧ out `sublist_of` map sanitizeBulletLine lines
  ∧ (∀ l, l ∈ lines →
       sanitizeBulletLine l ≠ [] →
       hasBadPhrase (sanitizeBulletLine l) = false →
       toLowerCase (sanitizeBulletLine l) ∈ map toLowerCase out).
Proof.
  cbv zeta. unfold sanitizeBulletList.
  destruct (sanitizeBulletLoop_spec ∅ lines) as (HF & HN & _ & Hsub & Hc).
  split_and!; [|done|done|].
  - eapply Forall_impl; [exact HF|].
    intros s (Hne & Hb & l & _ & ->). split_and!; [done| |done].
    apply sanitizeBulletLine_words.
  - intros l Hl Hne Hb. destruct (Hc l Hl Hne Hb) as [Hin|Hin]; [|done].
    by apply elem_of_empty in Hin.
Qed.

(** C4.  The returned lines are meant to start with no bullet mark, and
    [sanitizeBulletLine] removes one, once, before its later steps.  A
    line with two marks keeps the second; a mark that only comes to the
    head of the line when a later step removes a meta prefix or a quote
    stays as well. *)
Lemma sanitizeBulletList_leaves_second_mark :
  @sanitizeBulletList Latin1.host [lit "-- abc"] = [lit "- abc"]
  ∧ @sanitizeBulletList Latin1.host [lit "Note: - abc"] = [lit "- abc"]
  ∧ @sanitizeBulletList Latin1.host [[34] ++ lit "- abc" ++ [34]]
    = [lit "- abc"]
  ∧ stripBulletMark (lit "- abc") = lit "abc"
  ∧ isBulletMark 45 = true.
Proof. by vm_compute. Qed.
(** ** Idempotence *)

(** C6 (amended).  [sanitizeOneLine] is idempotent, and so are
    [firstClause] and [capWords] for every cap. *)
Theorem sanitizers_idempotent (x : jsstring) (n : nat) :
  sanitizeOneLine (sanitizeOneLine x) = sanitizeOneLine x
  ∧ firstClause (firstClause x) = firstClause x
  ∧ capWords (capWords x n) n = capWords x n.
Proof.
  split_and!; [apply sanitizeOneLine_idem|apply firstClause_idem|
               apply capWords_idem].
Qed.

(** C6, as stated, fails for [sanitizeBulletLine]: one trailing full
    stop is removed at each pass. *)
Lemma sanitizeBulletLine_not_idempotent :
  sanitizeBulletLine (lit "abc..") = lit "abc."
  ∧ sanitizeBulletLine (sanitizeBulletLine (lit "abc..")) = lit "abc".
Proof. by vm_compute. Qed.
(** ** Bullets of experience entries *)

(** C1 (amended).  In every reachable state of the document, every
    bullet line of every experience entry is not empty and holds no line
    feed.  The lines taken from the bullets textarea are moreover
    trimmed, but their length is not bounded; an event served by an AI
    backend (rewrite, generation from a job description, proofreading)
    leaves the bullets of an entry as they were or replaces them by lines
    of at most 22 white-space-delimited words. *)
Theorem experience_bullets `{Host} (ed : editor) :
  reachable ed →
  Forall (λ e, Forall lineOK (bullets e)) (cvExperience (doc ed))
  ∧ (∀ value, Forall (λ b, b ≠ [] ∧ trim b = b ∧ 10 ∉ b) (typedLines value))
  ∧ (∀ ev i e',
       aiEvent ev = true →
       cvExperience (doc (step ev ed)) !! i = Some e' →
       (∃ e, cvExperience (doc ed) !! i = Some e ∧ bullets e' = bullets e)
       ∨ Forall (λ b, lineOK b ∧ (wordCount b ≤ 22)%nat) (bullets e')).
Proof.
  intros Hed. split_and!.
  - by apply reachable_ok.
  - apply typedLines_each.
  - intros ev i e'. apply aiEvent_bullets.
Qed.

(** The seeded entry, as every reachable state, has bullets that are not
    empty and hold no line feed. *)
Lemma experience_bullets_witness :
  Forall (λ e, Forall lineOK (bullets e))
         (cvExperience (doc (@step Latin1.host
                               (BulletsInput 0 longBullet) initial))).
Proof.
  exact (proj1 (@experience_bullets Latin1.host _
                  (@reachable_step Latin1.host (BulletsInput 0 longBullet)
                     initial (@reachable_initial Latin1.host)))).
Defined.

(** C1, as stated, fails for a bullet typed by the user: a line of 23
    words typed into the textarea of the seeded entry is stored as it
    is.  It also fails for a bullet that a backend produced: the quotes
    around the answer are removed last, and what is left, here one
    space, is stored without being trimmed. *)
Lemma typed_bullet_exceeds_cap :
  bullets <$> (cvExperience
                 (doc (@step Latin1.host (BulletsInput 0 longBullet) initial))
               !! 0%nat)
  = Some [longBullet]
  ∧ wordCount longBullet = 23%nat
  ∧ bullets <$> (cvExperience
                   (doc (@step Latin1.host (Rewrite 0 quotedSpace) initial))
                 !! 0%nat)
    = Some [[32]]
  ∧ trim [32] = [].
Proof. by vm_compute. Qed.
(** ** Grouped skills *)

(** C7 (amended).  The local heuristic [groupSkillsLocal] returns a
    mapping for every skill list none of whose entries normalizes to
    [constructor] or [__proto__]; whenever it returns one, its keys are
    among the ten categories, every list it holds is non-empty and
    without duplicates, every skill with a non-empty normal form is
    represented, by an entry of the same normal form, under the category
    that [detectLocalCategory] gives it, which is [Other] when it matches
    no category, and the grouped entries are at most as many as the
    distinct non-empty normal forms of the input.  The loop that closes
    [groupSkillsAI] returns keys among the ten categories and lists that
    are non-empty and free of equal strings (it does not compare up to
    case). *)
Theorem skill_grouping `{Host} (raw : list jsstring)
    (fields : gmap jsstring field) :
  (Forall (λ s, inheritedKey (norm s) = false) raw →
   ∃ g, groupSkillsLocal raw = Returns g)
  ∧ (∀ g, groupSkillsLocal raw = Returns g →
       (∀ k v, g !! k = Some v → k ∈ ORDER ∧ v ≠ [] ∧ NoDup v)
       ∧ (∀ s, s ∈ raw → norm s ≠ [] →
            ∃ v s', g !! detectLocalCategory (norm s) = Some v
                    ∧ s' ∈ raw ∧ norm s' = norm s ∧ pretty s' ∈ v)
       ∧ (∀ s, s ∈ raw → norm s ≠ [] → matchesNoCategory (norm s) = true →
            ∃ v s', g !! lit "Other" = Some v
                    ∧ s' ∈ raw ∧ norm s' = norm s ∧ pretty s' ∈ v)
       ∧ (groupedTotal g ≤ size (distinctNorms raw))%nat)
  ∧ (∀ k v, sanitizeCategories fields ORDER !! k = Some v →
       k ∈ ORDER ∧ v ≠ [] ∧ NoDup v).
Proof.
  split_and!.
  - apply groupSkillsLocal_returns.
  - intros g Hg. split_and!.
    + intros k v Hk. by apply (groupSkillsLocal_lookup raw g).
    + intros s Hs Hne. by apply (groupSkillsLocal_lands raw g).
    + intros s Hs Hne Hno. rewrite <- (detect_other _ Hno).
      by apply (groupSkillsLocal_lands raw g).
    + by apply groupSkillsLocal_total.
  - intros k v Hk.
    destruct (sanitizeCategories_lookup _ _ _ _ Hk) as (? & ? & ? & _).
    done.
Qed.

(** The example of the specification: two grouped entries, not four. *)
Lemma skill_grouping_witness :
  ∃ g, @groupSkillsLocal Latin1.host exampleSkills = Returns g
       ∧ g !! lit "Programming" = Some [SkillStr (lit "JavaScript")]
       ∧ g !! lit "Databases" = Some [SkillStr (lit "PostgreSQL")]
       ∧ (groupedTotal g ≤ 2)%nat.
Proof.
  destruct (@skill_grouping Latin1.host exampleSkills ∅) as (Hret & Hg & _).
  destruct Hret as [g Eg].
  { apply (bool_decide_unpack _). by vm_compute. }
  exists g. destruct (Hg g Eg) as (_ & _ & _ & Htot).
  split; [done|].
  assert (Es : size (@distinctNorms Latin1.host exampleSkills) = 2%nat)
    by (by vm_compute).
  rewrite Es in Htot. split_and!; [| |done].
  - revert Eg. vm_compute. by intros [= <-].
  - revert Eg. vm_compute. by intros [= <-].
Defined.

(** C7, as stated, fails for the loop that closes [groupSkillsAI]: two
    spellings of one skill in the model's answer are both kept, though
    equal once normalized.  (And [groupSkillsLocal] returns nothing on
    the two skills [constructor] and [__proto__]: its bucket [Other]
    holds two objects, which the comparator cannot compare.) *)
Lemma grouping_keeps_spellings :
  match @groupSkillsAI_sanitize Latin1.host twoSpellings with
  | Returns g => g !! lit "Programming"
  | _ => None
  end = Some [lit "javascript"; lit "JavaScript"]
  ∧ @norm Latin1.host (lit "JavaScript") = @norm Latin1.host (lit "javascript")
  ∧ @groupSkillsLocal Latin1.host [lit "constructor"; lit "__proto__"]
    = RaisesTypeError.
Proof. by vm_compute. Qed.
(** ** Single-line text *)

Section OneLine.

Lemma collapse_replaceNewlines (s : jsstring) :
  collapseRuns isSpace true (replaceNewlines true s)
  = collapseRuns isSpace true s
  ∧ ∀ b, collapseRuns isSpace b (replaceNewlines false s)
         = collapseRuns isSpace b s.
Proof.
  induction s as [|c r [IHt IHf]]; [done|].
  cbn [replaceNewlines].
  destruct (c =? 10) eqn:E10.
  - apply N.eqb_eq in E10 as ->. split.
    + cbn [collapseRuns]. rewrite isSpace_LF. exact IHt.
    + intros b. cbn [collapseRuns]. rewrite isSpace_LF, isSpace_32.
      destruct b; by rewrite IHt.
  - destruct ((c =? 13) && match r with d :: _ => d =? 10 | [] => false end)
      eqn:E13.
    + apply andb_true_iff in E13 as [->%N.eqb_eq _]. split.
      * cbn [collapseRuns]. rewrite isSpace_CR, isSpace_32. exact IHt.
      * intros b. cbn [collapseRuns]. rewrite isSpace_CR, isSpace_32.
        destruct b; by rewrite IHt.
    + split; [|intros b]; cbn [collapseRuns];
        destruct (isSpace c); try destruct b; by rewrite ?IHf.
Qed.

End OneLine.

(** [sanitizeOneLine] returns one line of words separated by single
    spaces.  Whatever the input, the result has no white space other than
    the space, no two spaces in a row and none at either end; its
    characters are characters of the input or spaces.  Its first
    replacement changes nothing that the second would not: the result is
    the input with every run of white space made one space, trimmed.  The
    strings it leaves as they are, are exactly those of this shape. *)
Theorem sanitizeOneLine_shape (s : jsstring) :
  let t := sanitizeOneLine s in
  tidy false t = true
  ∧ trim t = t
  ∧ Forall (λ c, isSpace c = true → c = 32) t
  ∧ (∀ c, c ∈ t → c ∈ s ∨ c = 32)
  ∧ t = trim (collapseSpaces s)
  ∧ (sanitizeOneLine s = s ↔ tidy false s = true ∧ trim s = s).
Proof.
  cbv zeta. split_and!.
  - apply tidy_sanitizeOneLine.
  - unfold sanitizeOneLine. apply trim_idem.
  - exact (tidy_onlySp _ _ (tidy_sanitizeOneLine s)).
  - apply sanitizeOneLine_fromOrSp.
  - unfold sanitizeOneLine, collapseSpaces.
    by rewrite (proj2 (collapse_replaceNewlines s)).
  - split.
    + intros E. split.
      * rewrite <- E. apply tidy_sanitizeOneLine.
      * rewrite <- E. unfold sanitizeOneLine. apply trim_idem.
    + intros [Ht Hr]. by apply sanitizeOneLine_fix.
Qed.

Section CapWords.

Lemma take_cleanWords (n : nat) (ws : list jsstring) :
  cleanWords ws → cleanWords (take n ws).
Proof. intros H. by apply Forall_take. Qed.

Lemma join_trim_fix (ws : list jsstring) :
  cleanWords ws → trim (join [32] ws) = join [32] ws.
Proof.
  intros Hc. destruct (join_head_last ws Hc) as [Hh Hl].
  apply trim_fix_intro.
  - by apply stripStart_fix.
  - by apply stripEnd_fix_last.
Qed.

Lemma capWords_tidy (s : jsstring) (n : nat) :
  tidy false (capWords s n) = true ∧ trim (capWords s n) = capWords s n.
Proof.
  assert (Hw : cleanWords (spaceWords (sanitizeOneLine s))).
  { apply spaceWords_cleanWords.
    exact (tidy_onlySp _ _ (tidy_sanitizeOneLine s)). }
  pose proof (take_cleanWords n _ Hw) as Ht.
  unfold capWords. cbv zeta. fold (spaceWords (sanitizeOneLine s)).
  split; [by apply join_tidy|by apply join_trim_fix].
Qed.

End CapWords.

(** [capWords] keeps the first [n] words.  The result has at most [n]
    white-space-delimited words, whatever the input, and is again one
    line of single-spaced words; on words joined by single spaces it is
    the first [n] of them joined the same way; with [n = 0] it is
    empty. *)
Theorem capWords_first_words (s : jsstring) (n : nat) (ws : list jsstring) :
  (wordCount (capWords s n) ≤ n)%nat
  ∧ tidy false (capWords s n) = true
  ∧ trim (capWords s n) = capWords s n
  ∧ capWords s 0 = []
  ∧ capWords s n = capWords (sanitizeOneLine s) n
  ∧ (cleanWords ws → capWords (join [32] ws) n = join [32] (take n ws)).
Proof.
  assert (Hw : cleanWords (spaceWords (sanitizeOneLine s))).
  { apply spaceWords_cleanWords.
    exact (tidy_onlySp _ _ (tidy_sanitizeOneLine s)). }
  pose proof (take_cleanWords n _ Hw) as Ht.
  unfold capWords. cbv zeta. fold (spaceWords (sanitizeOneLine s)).
  split_and!.
  - etrans; [apply wordCount_join|].
    + eapply Forall_impl; [exact Ht|]. by intros w [_ ?].
    + rewrite length_take. lia.
  - by apply join_tidy.
  - by apply join_trim_fix.
  - done.
  - by rewrite sanitizeOneLine_idem.
  - intros Hc. fold (spaceWords (sanitizeOneLine (join [32] ws))).
    by rewrite join_fix, spaceWords_join.
Qed.

Section FirstClause.

Lemma beforePunct_app (s t : jsstring) (c : N) :
  Forall (λ d, isSentencePunct d = false) s →
  isSentencePunct c = true →
  beforePunct (s ++ c :: t) = s.
Proof.
  intros Hs Hc. induction Hs as [|d s Hd _ IH]; simpl.
  - by rewrite Hc.
  - by rewrite Hd, IH.
Qed.

Lemma fromOrSp_no_punct (s t : jsstring) :
  fromOrSp s t →
  Forall (λ c, isSentencePunct c = false) s →
  Forall (λ c, isSentencePunct c = false) t.
Proof.
  intros Hf Hs. apply Forall_forall. intros c Hc.
  destruct (Hf c Hc) as [Hin| ->]; [|done].
  rewrite Forall_forall in Hs. by apply Hs.
Qed.

Lemma firstClause_no_punct (s : jsstring) :
  Forall (λ c, isSentencePunct c = false) (firstClause s).
Proof.
  unfold firstClause.
  eapply fromOrSp_no_punct; [apply sanitizeOneLine_fromOrSp|].
  apply beforePunct_clean.
Qed.

End FirstClause.

(** [firstClause] cuts a text at its first sentence punctuation and makes
    one line of what comes before.  The result holds none of the
    characters [.?!:;]; whatever follows the first of them has no
    influence on it; a text without any of them is only made one
    line. *)
Theorem firstClause_cut (s t : jsstring) (c : N) :
  Forall (λ d, isSentencePunct d = false) (firstClause s)
  ∧ tidy false (firstClause s) = true
  ∧ trim (firstClause s) = firstClause s
  ∧ (Forall (λ d, isSentencePunct d = false) s →
     firstClause s = sanitizeOneLine s
     ∧ (isSentencePunct c = true →
        firstClause (s ++ c :: t) = sanitizeOneLine s)).
Proof.
  split_and!.
  - apply firstClause_no_punct.
  - apply firstClause_tidy.
  - apply firstClause_tidy.
  - intros Hs. unfold firstClause. split.
    + by rewrite beforePunct_fix.
    + intros Hc. by rewrite beforePunct_app.
Qed.
(** ** Titles and roles *)

Section Fields.
Context `{Host}.

Lemma thinned_refl p (s : jsstring) : thinned p s s.
Proof. induction s; by constructor. Qed.

Lemma thinned_sub p (t s : jsstring) : thinned p t s → t ⊆ s.
Proof.
  induction 1 as [|c t s _ IH|c t s _ _ IH]; [done|..]; intros x Hx.
  - apply elem_of_cons in Hx as [->|Hx]; [by left|right; by apply IH].
  - right. by apply IH.
Qed.

Lemma countRuns_thinned p (t s : jsstring) :
  thinned p t s → ∀ b, (countRuns p b t ≤ countRuns p b s)%nat.
Proof.
  induction 1 as [|c t s _ IH|c t s Hc _ IH]; intros b; [done|..];
    cbn [countRuns].
  - destruct (p c); [apply IH|]. specialize (IH true). lia.
  - rewrite Hc. pose proof (countRuns_true_le p s) as Hle.
    destruct b; [apply IH|]. specialize (IH false). lia.
Qed.

Lemma isSpace_not_high (c : N) : isHighSurrogate c = true → isSpace c = false.
Proof.
  unfold isHighSurrogate, isSpace. intros Hc.
  apply andb_true_iff in Hc as [H1%N.leb_le H2%N.leb_le].
  repeat (apply orb_false_iff; split);
    try (apply andb_false_iff; right; apply N.leb_gt; lia);
    apply N.eqb_neq; lia.
Qed.

Lemma isFieldChar_space (c : N) : isSpace c = true → isFieldChar c = true.
Proof. unfold isFieldChar. intros ->. by rewrite !orb_true_r. Qed.

(** [keepFieldChars] removes characters, never a white-space one, and
    what it keeps is an allowed character or half of a pair. *)
Lemma keepFieldChars_spec (s : jsstring) :
  (thinned isSpace (keepFieldChars s) s
   ∧ Forall (λ c, isFieldChar c = true ∨ isSurrogate c = true)
            (keepFieldChars s))
  ∧ ∀ c, thinned isSpace (keepFieldChars (c :: s)) (c :: s)
         ∧ Forall (λ c, isFieldChar c = true ∨ isSurrogate c = true)
                  (keepFieldChars (c :: s)).
Proof.
  induction s as [|d r [[IHt IHf] IHc]].
  - split; [split; [constructor|constructor]|].
    intros c. cbn [keepFieldChars]. destruct (isFieldChar c) eqn:E.
    + split; [apply thinned_refl|]. constructor; [by left|constructor].
    + split; [|constructor]. constructor; [|constructor].
      destruct (isSpace c) eqn:Es; [|done].
      by rewrite (isFieldChar_space c Es) in E.
  - split; [apply IHc|]. intros c.
    destruct (IHc d) as [IHdt IHdf].
    cbn [keepFieldChars]. fold (keepFieldChars (d :: r)).
    destruct (isHighSurrogate c && isLowSurrogate d) eqn:Ep.
    + apply andb_true_iff in Ep as [Eh El].
      destruct (isFieldChar (codePoint c d)).
      * split; [by do 2 constructor|].
        constructor; [right; unfold isSurrogate; by rewrite Eh|].
        constructor; [right; unfold isSurrogate; by rewrite El, orb_true_r|].
        done.
      * split; [|done].
        constructor; [by apply isSpace_not_high|].
        constructor; [|done].
        destruct (isSpace d) eqn:Es; [|done].
        unfold isLowSurrogate, isSpace in *.
        apply andb_true_iff in El as [H1%N.leb_le H2%N.leb_le].
        exfalso. revert Es.
        repeat (rewrite orb_true_iff); rewrite !andb_true_iff, !N.eqb_eq, !N.leb_le.
        lia.
    + destruct (isFieldChar c) eqn:E.
      * split; [by constructor|]. constructor; [by left|done].
      * split; [|done]. constructor; [|done].
        destruct (isSpace c) eqn:Es; [|done].
        by rewrite (isFieldChar_space c Es) in E.
Qed.

Lemma stripTrailPunct_prefix (s : jsstring) : stripTrailPunct s `prefix_of` s.
Proof.
  unfold stripTrailPunct.
  destruct (rev (stripEnd isSpace s)) as [|c r] eqn:E; [done|].
  destruct (isTrailPunct c); [|done].
  etrans; [|apply stripEnd_prefix].
  apply (f_equal (@rev N)) in E. rewrite rev_involutive in E.
  rewrite E. simpl. by apply prefix_app_r.
Qed.

Lemma capWords_fromOrSp (s : jsstring) (n : nat) : fromOrSp s (capWords s n).
Proof.
  eapply fromOrSp_trans; [apply sanitizeOneLine_fromOrSp|].
  intros c Hc. unfold capWords in Hc. cbv zeta in Hc.
  apply join_chars in Hc as [Hc|(w & Hw & Hc)].
  - right. by apply list_elem_of_singleton in Hc.
  - left. apply elem_of_take in Hw as (i & Hw & _).
    apply list_elem_of_lookup_2 in Hw.
    by apply (spaceWords_sub _ w Hw).
Qed.

Lemma capWords_words (s : jsstring) (n : nat) :
  (wordCount (capWords s n) ≤ n)%nat ∧ onlySp (capWords s n).
Proof.
  assert (Hw : cleanWords (spaceWords (sanitizeOneLine s))).
  { apply spaceWords_cleanWords.
    exact (tidy_onlySp _ _ (tidy_sanitizeOneLine s)). }
  pose proof (take_cleanWords n _ Hw) as Ht.
  unfold capWords. cbv zeta. fold (spaceWords (sanitizeOneLine s)). split.
  - etrans; [apply wordCount_join|].
    + eapply Forall_impl; [exact Ht|]. by intros w [_ ?].
    + rewrite length_take. lia.
  - exact (tidy_onlySp _ _ (join_tidy _ Ht)).
Qed.

(** What the last three steps of both sanitizers keep of a line [o] of
    at most [n] single-spaced words. *)
Lemma field_tail (o : jsstring) (n : nat) :
  (wordCount o ≤ n)%nat → onlySp o →
  Forall (λ c, isSentencePunct c = false) o →
  let r := trim (keepFieldChars o) in
  (wordCount r ≤ n)%nat ∧ onlySp r ∧ trim r = r
  ∧ Forall (λ c, isSentencePunct c = false) r
  ∧ Forall (λ c, isFieldChar c = true ∨ isSurrogate c = true) r.
Proof.
  intros Hn Ho Hp. cbv zeta.
  destruct (keepFieldChars_spec o) as [[Ht Hf] _].
  pose proof (thinned_sub _ _ _ Ht) as Hsub.
  pose proof (trim_sub (keepFieldChars o)) as Htr.
  split_and!.
  - rewrite wordCount_countRuns.
    etrans; [apply countRuns_within_le, trim_within|].
    etrans; [apply (countRuns_thinned _ _ _ Ht)|].
    by rewrite <- wordCount_countRuns.
  - eapply onlySp_fromOrSp; [|exact Ho]. apply fromOrSp_sub. set_solver.
  - apply trim_idem.
  - eapply fromOrSp_no_punct; [|exact Hp]. apply fromOrSp_sub. set_solver.
  - rewrite Forall_forall in Hf |- *. intros c Hc. apply Hf. by apply Htr.
Qed.

Lemma cut_tail (o : jsstring) (n : nat) :
  (wordCount o ≤ n)%nat → onlySp o →
  Forall (λ c, isSentencePunct c = false) o →
  let r := trim (stripTrailPunct o) in
  (wordCount r ≤ n)%nat ∧ onlySp r
  ∧ Forall (λ c, isSentencePunct c = false) r.
Proof.
  intros Hn Ho Hp. cbv zeta.
  assert (Hw : within (trim (stripTrailPunct o)) o).
  { eapply within_trans; [apply trim_within|].
    apply prefix_within, stripTrailPunct_prefix. }
  pose proof (within_sub _ _ Hw) as Hsub.
  split_and!.
  - rewrite wordCount_countRuns.
    etrans; [by apply countRuns_within_le|].
    by rewrite <- wordCount_countRuns.
  - eapply onlySp_fromOrSp; [|exact Ho]. by apply fromOrSp_sub.
  - eapply fromOrSp_no_punct; [|exact Hp]. by apply fromOrSp_sub.
Qed.

End Fields.

Section Verbs.

Lemma canon_letter_not_space (p c : N) :
  isLowerAZ p = true → canonicalize p = canonicalize c → isSpace c = false.
Proof.
  intros Hp Hc. destruct (isSpace c) eqn:Es; [|done]. exfalso.
  revert Hc. unfold canonicalize. rewrite Hp.
  unfold isLowerAZ in Hp. apply andb_true_iff in Hp as [H1%N.leb_le H2%N.leb_le].
  assert (Hc : c < 65 ∨ c = 160 ∨ 254 < c).
  { unfold isSpace in Es.
    repeat (apply orb_true_iff in Es as [Es|Es]);
      try (apply andb_true_iff in Es as [?%N.leb_le ?%N.leb_le]);
      try (apply N.eqb_eq in Es); lia. }
  destruct (isLowerAZ c) eqn:E1.
  { unfold isLowerAZ in E1.
    apply andb_true_iff in E1 as [?%N.leb_le ?%N.leb_le]. lia. }
  destruct ((224 <=? c) && (c <=? 254) && negb (c =? 247)) eqn:E2.
  { apply andb_true_iff in E2 as [E2 _].
    apply andb_true_iff in E2 as [?%N.leb_le ?%N.leb_le]. lia. }
  lia.
Qed.

Lemma verbs_start_lower :
  Forall (λ w, match w with p :: _ => isLowerAZ p = true | [] => False end)
         ACTION_VERBS.
Proof. repeat constructor. Qed.

Lemma altFrom_verb_char b (s : jsstring) :
  altFrom prefixCI ACTION_VERBS b s = true → ∃ c, c ∈ s ∧ isSpace c = false.
Proof.
  revert b. induction s as [|c r IH]; intros b; cbn [altFrom].
  - rewrite orb_false_r. unfold altAt. intros Ha.
    apply andb_true_iff in Ha as [_ Ha].
    apply existsb_exists in Ha as (w & Hw & Hm).
    pose proof verbs_start_lower as Hl. rewrite Forall_forall in Hl.
    apply list_elem_of_In in Hw. specialize (Hl w Hw).
    destruct w as [|p w]; [done|]. done.
  - intros Ha. apply orb_true_iff in Ha as [Ha|Ha].
    + unfold altAt in Ha. apply andb_true_iff in Ha as [_ Ha].
      apply existsb_exists in Ha as (w & Hw & Hm).
      pose proof verbs_start_lower as Hl. rewrite Forall_forall in Hl.
      apply list_elem_of_In in Hw. specialize (Hl w Hw).
      destruct w as [|p w]; [done|]. cbn [prefixCI] in Hm.
      destruct (canonicalize p =? canonicalize c) eqn:E; [|done].
      apply N.eqb_eq in E. exists c. split; [by left|].
      by apply (canon_letter_not_space p).
    + destruct (IH _ Ha) as (d & Hd & Hs). exists d. split; [by right|done].
Qed.

Lemma countRuns_pos p (s : jsstring) (c : N) :
  c ∈ s → p c = false → (1 ≤ countRuns p false s)%nat.
Proof.
  intros Hin Hc. induction s as [|d r IH]; [by apply elem_of_nil in Hin|].
  cbn [countRuns]. apply elem_of_cons in Hin as [<-|Hin].
  - rewrite Hc. lia.
  - destruct (p d); [by apply IH|lia].
Qed.

(** A line of single-spaced words that holds an action verb keeps a word
    under every positive cap. *)
Lemma capWords_verb_nonempty (o : jsstring) (n : nat) :
  tidy false o = true → trim o = o →
  ACTION_VERB_RE_test o = true → capWords o (S n) ≠ [].
Proof.
  intros Ht Hr Hv. unfold capWords. cbv zeta.
  rewrite (sanitizeOneLine_fix o Ht Hr). fold (spaceWords o).
  destruct (altFrom_verb_char _ _ Hv) as (c & Hc & Hs).
  pose proof (countRuns_pos isSpace o c Hc Hs) as Hpos.
  rewrite <- wordCount_countRuns in Hpos.
  rewrite <- (spaceWords_count o (tidy_onlySp _ _ Ht)) in Hpos.
  pose proof (spaceWords_cleanWords o (tidy_onlySp _ _ Ht)) as Hcl.
  destruct (spaceWords o) as [|w ws]; [simpl in Hpos; lia|].
  apply Forall_cons in Hcl as [[Hw _] _].
  cbn [take join]. destruct (take n ws); [done|].
  destruct w; done.
Qed.

End Verbs.

(** [sanitizeTitleText] never empties a field: with a previous value
    that is not empty the result is not empty.  The result is the
    previous value, or a line cut from the candidate: not empty, of at
    most 12 white-space-delimited words, with no white space at its ends
    and no white-space character other than the space, with none of
    [.?!:;], and made of letters, digits, the characters [&+-/.,],
    spaces and surrogate halves only.  The character filter runs after
    the spacing was made single, so two of its spaces can be adjacent:
    the candidate [Lead @ Acme] gives [Lead], two spaces, [Acme]. *)
Theorem sanitizeTitleText_shape `{Host} (next prev : jsstring) :
  let r := sanitizeTitleText next prev in
  (prev ≠ [] → r ≠ [])
  ∧ (r = prev
     ∨ (r ≠ [] ∧ (wordCount r ≤ 12)%nat ∧ onlySp r ∧ trim r = r
        ∧ Forall (λ c, isSentencePunct c = false) r
        ∧ Forall (λ c, isFieldChar c = true ∨ isSurrogate c = true) r))
  ∧ @sanitizeTitleText Latin1.host (lit "Lead @ Acme") (lit "x")
    = lit "Lead  Acme".
Proof.
  cbv zeta.
  refine ((λ (HS : _ ∧ _) HC, conj (proj1 HS) (conj (proj2 HS) HC)) _ _);
    [|by vm_compute].
  unfold sanitizeTitleText. cbv zeta.
  set (o0 := firstClause (sanitizeOneLine next)).
  set (o1 := capWords o0 MAX_TITLE_WORDS).
  destruct (capWords_words o0 MAX_TITLE_WORDS) as [Hw1 Hs1].
  assert (Hp1 : Forall (λ c, isSentencePunct c = false) o1).
  { eapply fromOrSp_no_punct; [apply capWords_fromOrSp|].
    apply firstClause_no_punct. }
  destruct (cut_tail o1 _ Hw1 Hs1 Hp1) as (Hw2 & Hs2 & Hp2).
  fold o1. set (o2 := trim (stripTrailPunct o1)) in *.
  set (o3 := if ACTION_VERB_RE_test o2 then capWords o2 6 else o2).
  assert (H3 : (wordCount o3 ≤ MAX_TITLE_WORDS)%nat ∧ onlySp o3
               ∧ Forall (λ c, isSentencePunct c = false) o3).
  { unfold o3. destruct (ACTION_VERB_RE_test o2); [|done].
    destruct (capWords_words o2 6) as [Hw Hs]. split_and!; [|done|].
    - unfold MAX_TITLE_WORDS. lia.
    - eapply fromOrSp_no_punct; [apply capWords_fromOrSp|done]. }
  destruct H3 as (Hw3 & Hs3 & Hp3).
  destruct (field_tail o3 _ Hw3 Hs3 Hp3) as (Hw4 & Hs4 & Ht4 & Hp4 & Hf4).
  set (o4 := trim (keepFieldChars o3)) in *.
  unfold orElse. destruct o4 as [|c q] eqn:E4; cbn [truthy].
  - split; [done|by left].
  - split; [done|]. right. by split_and!.
Qed.

(** [sanitizeRoleText] never empties a role either.  Its result is the
    previous value, or the first clause of the previous value without
    its bullet mark, or a line cut from the candidate: not empty, of at
    most 10 white-space-delimited words, with no white space at its ends
    and no white-space character other than the space, and free of
    [.?!:;].  When the candidate's first clause holds no action verb,
    what is cut from it passes the same character filter as a title,
    which can leave two spaces adjacent: the candidate [a # b] gives
    [a], two spaces, [b]. *)
Theorem sanitizeRoleText_shape `{Host} (next prev : jsstring) :
  let r := sanitizeRoleText next prev in
  (prev ≠ [] → r ≠ [])
  ∧ (r = prev
     ∨ r = stripBulletMark (firstClause prev)
     ∨ (r ≠ [] ∧ (wordCount r ≤ 10)%nat ∧ onlySp r ∧ trim r = r
        ∧ Forall (λ c, isSentencePunct c = false) r))
  ∧ (ACTION_VERB_RE_test
       (firstClause (stripBulletMark (sanitizeOneLine next))) = false →
     r = prev
     ∨ Forall (λ c, isFieldChar c = true ∨ isSurrogate c = true) r)
  ∧ @sanitizeRoleText Latin1.host (lit "a # b") (lit "x") = lit "a  b".
Proof.
  cbv zeta.
  refine ((λ (HS : _ ∧ _ ∧ _) HC,
             conj (proj1 HS)
                  (conj (proj1 (proj2 HS)) (conj (proj2 (proj2 HS)) HC)))
            _ _); [|by vm_compute].
  unfold sanitizeRoleText. cbv zeta.
  set (o0 := firstClause (stripBulletMark (sanitizeOneLine next))).
  destruct (capWords_words o0 MAX_ROLE_WORDS) as [Hw1 Hs1].
  assert (Hp1 : Forall (λ c, isSentencePunct c = false)
                       (capWords o0 MAX_ROLE_WORDS)).
  { eapply fromOrSp_no_punct; [apply capWords_fromOrSp|].
    apply firstClause_no_punct. }
  destruct (ACTION_VERB_RE_test o0) eqn:Ev.
  - (* an action verb: the previous value, or ten words *)
    unfold orElse.
    destruct (truthy (stripBulletMark (firstClause prev))) eqn:Ep.
    + destruct (firstClause_tidy prev) as [Ht Hr].
      rewrite (oneLine_stripBulletMark _ Ht Hr).
      split_and!; [|by right; left|done].
      intros _. by apply truthy_nonempty.
    + destruct (firstClause_tidy (stripBulletMark (sanitizeOneLine next)))
        as [Ht Hr]. fold o0 in Ht, Hr.
      pose proof (capWords_verb_nonempty o0 9 Ht Hr Ev) as Hne.
      change (capWords o0 10) with (capWords o0 MAX_ROLE_WORDS) in Hne.
      destruct (capWords_tidy o0 MAX_ROLE_WORDS) as [Hc Htr].
      rewrite (sanitizeOneLine_fix _ Hc Htr).
      split_and!; [done| |done]. right; right. by split_and!.
  - (* no action verb: the filtered candidate, or the previous value *)
    destruct (cut_tail _ _ Hw1 Hs1 Hp1) as (Hw2 & Hs2 & Hp2).
    destruct (field_tail _ _ Hw2 Hs2 Hp2) as (Hw4 & Hs4 & Ht4 & Hp4 & Hf4).
    set (o4 := trim (keepFieldChars
                       (trim (stripTrailPunct (capWords o0 MAX_ROLE_WORDS)))))
      in *.
    unfold orElse. destruct o4 as [|c q] eqn:E4; cbn [truthy].
    + split_and!; [done|by left|by left].
    + split_and!; [done| |by right]. right; right. by split_and!.
Qed.
(** ** The action-verb heuristic *)

Section TitleFacts.
Context `{Host}.

Lemma tidy_prefix b (s t : jsstring) :
  t `prefix_of` s → tidy b s = true → tidy b t = true.
Proof.
  intros [k ->]. revert b. induction t as [|c t IH]; intros b; [done|].
  cbn [app tidy]. destruct (isSpace c); [|apply IH].
  intros Hs. apply andb_true_iff in Hs as [H1 H2]. rewrite H1.
  by apply IH.
Qed.

Lemma titleCandidate_tidy (next : jsstring) :
  tidy false (titleCandidate next) = true
  ∧ trim (titleCandidate next) = titleCandidate next.
Proof.
  split; [|apply trim_idem]. unfold titleCandidate, trim.
  apply tidy_stripEnd. eapply tidy_stripStart.
  eapply tidy_prefix; [apply stripTrailPunct_prefix|].
  apply capWords_tidy.
Qed.

(** The character filter leaves a text of plain allowed characters as it
    is. *)
Lemma keepFieldChars_plain (s : jsstring) :
  Forall (λ c, plainFieldChar c = true) s → keepFieldChars s = s.
Proof.
  induction s as [|c r IH]; [done|]. intros HF.
  apply Forall_cons in HF as [Hc HF]. specialize (IH HF).
  unfold plainFieldChar in Hc. apply andb_true_iff in Hc as [Hf Hh].
  apply negb_true_iff in Hh.
  destruct r as [|d r']; cbn [keepFieldChars]; [by rewrite Hf|].
  rewrite Hh, Hf. cbn [andb]. f_equal. exact IH.
Qed.

Lemma sanitizeTitleText_verb (next prev : jsstring) :
  ACTION_VERB_RE_test (titleCandidate next) = true →
  sanitizeTitleText next prev
  = orElse (trim (keepFieldChars (capWords (titleCandidate next) 6))) prev.
Proof.
  intros Hv. unfold sanitizeTitleText. cbv zeta.
  fold (titleCandidate next). by rewrite Hv.
Qed.

End TitleFacts.

(** C5 (amended).  When the first clause of the role candidate (made one
    line, its bullet mark removed) matches the action-verb pattern and
    the first clause of the previous role, its bullet mark removed, is
    not empty, [sanitizeRoleText] returns that first clause of the
    previous role, which is the first clause itself when it starts with
    no bullet mark; so the candidate of the regression test gives back
    [Backend Engineer].  [sanitizeTitleText] has no such fallback.  When
    its candidate, cut to twelve words and freed of its trailing
    punctuation, matches the pattern, the first six words of it, which
    are not empty, go through the character filter: what the filter
    leaves is the result, and the previous value is the result only when
    the filter leaves nothing.  When the six words hold plain allowed
    characters only, they are the result, whatever the previous value;
    on the candidate of the regression test they are
    [Developed and led a team of]. *)
Theorem sanitizeRoleText_action_verb `{Host} (next prev : jsstring) :
  ACTION_VERB_RE_test (firstClause (stripBulletMark (sanitizeOneLine next)))
    = true →
  truthy (stripBulletMark (firstClause prev)) = true →
  sanitizeRoleText next prev = stripBulletMark (firstClause prev)
  ∧ (stripBulletMark (firstClause prev) = firstClause prev →
     sanitizeRoleText next prev = firstClause prev)
  ∧ sanitizeRoleText ROLE_CANDIDATE (lit "Backend Engineer")
    = lit "Backend Engineer"
  ∧ (∀ n p : jsstring,
       ACTION_VERB_RE_test (titleCandidate n) = true →
       let six := capWords (titleCandidate n) 6 in
       let kept := trim (keepFieldChars six) in
       six ≠ []
       ∧ (kept ≠ [] → sanitizeTitleText n p = kept)
       ∧ (kept = [] → sanitizeTitleText n p = p)
       ∧ (Forall (λ c, plainFieldChar c = true) six →
          sanitizeTitleText n p = six))
  ∧ @sanitizeTitleText Latin1.host ROLE_CANDIDATE (lit "Backend Engineer")
    = lit "Developed and led a team of".
Proof.
  intros Hverb Hprev.
  assert (Hrole : ∀ n p : jsstring,
    ACTION_VERB_RE_test (firstClause (stripBulletMark (sanitizeOneLine n)))
      = true →
    truthy (stripBulletMark (firstClause p)) = true →
    sanitizeRoleText n p = stripBulletMark (firstClause p)).
  { intros n p Hv Hp. unfold sanitizeRoleText. cbv zeta. rewrite Hv.
    unfold orElse. rewrite Hp.
    destruct (firstClause_tidy p). by apply oneLine_stripBulletMark. }
  split; [by apply Hrole|]. split; [intros <-; by apply Hrole|].
  split; [rewrite Hrole by (by vm_compute); by vm_compute|].
  split; [|by vm_compute].
  intros n p Hv. cbv zeta.
  destruct (titleCandidate_tidy n) as [Ht Hr].
  pose proof (capWords_verb_nonempty _ 5 Ht Hr Hv) as Hsix.
  rewrite (sanitizeTitleText_verb n p Hv). unfold orElse.
  split_and!; [done|..].
  - intros Hk. by rewrite (proj2 (truthy_nonempty _) Hk).
  - intros ->. done.
  - intros Hplain. rewrite (keepFieldChars_plain _ Hplain).
    rewrite (proj2 (capWords_tidy _ 6)).
    by rewrite (proj2 (truthy_nonempty _) Hsix).
Qed.

(** The regression test of C5, as a use of the theorem. *)
Lemma sanitizeRoleText_action_verb_witness :
  @sanitizeRoleText Latin1.host ROLE_CANDIDATE (lit "Backend Engineer")
  = lit "Backend Engineer".
Proof.
  refine (eq_trans
            (proj1 (@sanitizeRoleText_action_verb Latin1.host ROLE_CANDIDATE
                      (lit "Backend Engineer") _ _)) _);
    by vm_compute.
Defined.

(** C5, as stated, fails for [sanitizeTitleText]: the candidate matches
    the action-verb pattern and the previous title is not empty, yet the
    result is cut from the candidate.  For [sanitizeRoleText] the
    pattern is tried on the first clause of the candidate, not on the
    candidate, and the previous value is used when its own first clause
    is not empty: a previous value made of a full stop gives the first
    ten words of the candidate, and a candidate whose verb comes after
    its first clause is kept. *)
Lemma sanitizeTitleText_keeps_candidate :
  ACTION_VERB_RE_test ROLE_CANDIDATE = true
  ∧ @sanitizeTitleText Latin1.host ROLE_CANDIDATE (lit "Backend Engineer")
    = lit "Developed and led a team of"
  ∧ @sanitizeRoleText Latin1.host ROLE_CANDIDATE (lit ".")
    = lit "Developed and led a team of 5 engineers to improve"
  ∧ ACTION_VERB_RE_test (lit "Team lead. Developed tools") = true
  ∧ @sanitizeRoleText Latin1.host (lit "Team lead. Developed tools")
      (lit "Backend Engineer")
    = lit "Team lead".
Proof. by vm_compute. Qed.
(** ** Characters of sanitized bullets *)

Section BulletChars.
Context `{Host}.

Lemma afterPrefix_suffix (p s r : jsstring) :
  afterPrefix p s = Some r → r `suffix_of` s.
Proof.
  revert s. induction p as [|a p IH]; intros s; simpl.
  - by intros [= ->].
  - destruct s as [|c s]; [done|]. destruct (a =? c); [|done].
    intros Hr. apply suffix_cons_r. by apply IH.
Qed.

Lemma afterColon_suffix (s r : jsstring) :
  afterColon s = Some r → r `suffix_of` s.
Proof.
  induction s as [|c s IH]; simpl; [done|].
  destruct (c =? 58).
  - intros [= ->]. by apply suffix_cons_r.
  - intros Hr. apply suffix_cons_r. by apply IH.
Qed.

Lemma afterLabelWord_suffix (s r : jsstring) :
  afterLabelWord s = Some r → r `suffix_of` s.
Proof.
  unfold afterLabelWord.
  destruct (prefixCI (lit "original") s) eqn:E.
  - intros [= <-]. by apply (prefixCI_suffix _ _ _ E).
  - apply prefixCI_suffix.
Qed.

Lemma stripStart_suffix_of p (s : jsstring) : stripStart p s `suffix_of` s.
Proof.
  induction s as [|c s IH]; simpl; [done|].
  destruct (p c); [by apply suffix_cons_r|done].
Qed.

Lemma stripLabel_suffix (s : jsstring) : stripLabel s `suffix_of` s.
Proof.
  unfold stripLabel.
  destruct (afterLabelWord _) as [r2|] eqn:E2; [|done].
  destruct (afterColon r2) as [r3|] eqn:E3; [|done].
  etrans; [apply stripStart_suffix_of|].
  etrans; [by apply afterColon_suffix|].
  etrans; [by apply afterLabelWord_suffix|].
  apply stripStart_suffix_of.
Qed.

Lemma stripBoldLabel_suffix (s : jsstring) : stripBoldLabel s `suffix_of` s.
Proof.
  unfold stripBoldLabel.
  destruct (afterPrefix _ (stripStart isSpace s)) as [r1|] eqn:E1; [|done].
  destruct (afterLabelWord r1) as [r2|] eqn:E2; [|done].
  destruct (afterColon r2) as [r3|] eqn:E3; [|done].
  destruct (afterPrefix _ r3) as [r4|] eqn:E4; [|done].
  etrans; [apply stripStart_suffix_of|].
  etrans; [by apply (afterPrefix_suffix _ _ _ E4)|].
  etrans; [by apply afterColon_suffix|].
  etrans; [by apply afterLabelWord_suffix|].
  etrans; [by apply (afterPrefix_suffix _ _ _ E1)|].
  apply stripStart_suffix_of.
Qed.

Lemma stripBulletMark_suffix (s : jsstring) : stripBulletMark s `suffix_of` s.
Proof.
  unfold stripBulletMark.
  destruct (stripStart isSpace s) as [|c r] eqn:E; [done|].
  destruct (isBulletMark c); [|done].
  etrans; [apply stripStart_suffix_of|].
  etrans; [|apply (stripStart_suffix_of isSpace s)].
  rewrite E. by apply suffix_cons_r.
Qed.

Lemma stripCodeFence_within (s : jsstring) : within (stripCodeFence s) s.
Proof.
  unfold stripCodeFence, dropFenceEnd, dropFenceStart.
  eapply within_trans.
  - destruct (3 <=? _)%nat; [apply stripEnd_within|apply within_refl].
  - destruct (3 <=? _)%nat; [apply stripStart_within|apply within_refl].
Qed.

Lemma removeAllCI_sub (pat : jsstring) (k : nat) (s : jsstring) :
  removeAllCI pat k s ⊆ s.
Proof.
  revert k. induction s as [|c r IH]; intros k; [done|].
  cbn [removeAllCI]. destruct k as [|k].
  - destruct pat as [|p pat]; [|destruct (prefixCI (p :: pat) (c :: r))].
    + apply list_subseteq_skip, IH.
    + apply list_subseteq_cons, IH.
    + apply list_subseteq_skip, IH.
  - apply list_subseteq_cons, IH.
Qed.

Lemma stripMeta_sub (s : jsstring) : stripMeta s ⊆ s.
Proof.
  unfold stripMeta. cbv zeta.
  etrans; [apply trim_sub|].
  assert (Hfold : ∀ ps t, fold_left (λ t p, removeAllCI p 0 t) ps t ⊆ t).
  { induction ps as [|p ps IH]; intros t; [done|]. simpl.
    etrans; [apply IH|]. apply removeAllCI_sub. }
  etrans; [apply Hfold|].
  etrans; [apply suffix_sub, stripLabel_suffix|].
  etrans; [apply suffix_sub, stripBoldLabel_suffix|].
  apply within_sub, stripCodeFence_within.
Qed.

Lemma sanitizeBulletLine_fromOrSp (s : jsstring) :
  fromOrSp s (sanitizeBulletLine s).
Proof.
  unfold sanitizeBulletLine. cbv zeta.
  set (o1 := stripBulletMark (stripMeta s)).
  assert (H1 : fromOrSp s o1).
  { apply fromOrSp_sub. etrans; [apply suffix_sub, stripBulletMark_suffix|].
    apply stripMeta_sub. }
  set (o2 := trim (collapseSpaces o1)).
  assert (H2 : fromOrSp s o2).
  { eapply fromOrSp_trans; [exact H1|].
    eapply fromOrSp_trans; [apply collapseRuns_fromOrSp|].
    apply fromOrSp_sub, trim_sub. }
  set (o3 := match metaLineMatch o2 with Some rest => trim rest | None => o2 end).
  assert (H3 : fromOrSp s o3).
  { unfold o3. destruct (metaLineMatch o2) as [rest|] eqn:E; [|done].
    eapply fromOrSp_trans; [exact H2|]. apply fromOrSp_sub.
    etrans; [apply trim_sub|]. by apply suffix_sub, metaLineMatch_suffix. }
  set (o4 := trim (dropNotClause false o3)).
  assert (H4 : fromOrSp s o4).
  { eapply fromOrSp_trans; [exact H3|]. apply fromOrSp_sub.
    etrans; [apply trim_sub|]. apply dropNotClause_sub. }
  eapply fromOrSp_trans; [exact H4|].
  eapply fromOrSp_trans; [apply capBullet_fromOrSp|].
  apply fromOrSp_sub.
  etrans; [apply within_sub, stripQuotes_within|].
  etrans; [apply trim_sub|].
  apply prefix_sub, stripTrailPunctWs_prefix.
Qed.

End BulletChars.

(** The bullet sanitizers only remove and respace: every character of a
    sanitized bullet is a character of the line it comes from, or a
    space, and [stripMeta] adds no character at all.  So every character
    of a line that [sanitizeBulletList] returns is a character of some
    input line, or a space. *)
Theorem sanitizeBulletList_from_input `{Host} (lines : list jsstring)
    (s : jsstring) :
  stripMeta s ⊆ s
  ∧ (∀ c, c ∈ sanitizeBulletLine s → c ∈ s ∨ c = 32)
  ∧ Forall (λ b, ∃ l, l ∈ lines ∧ ∀ c, c ∈ b → c ∈ l ∨ c = 32)
           (sanitizeBulletList lines).
Proof.
  split_and!.
  - apply stripMeta_sub.
  - apply sanitizeBulletLine_fromOrSp.
  - destruct (sanitizeBulletLoop_spec ∅ lines) as (HF & _).
    eapply Forall_impl; [exact HF|].
    intros b (_ & _ & l & Hl & ->). exists l. split; [done|].
    apply sanitizeBulletLine_fromOrSp.
Qed.
(** ** Skill tokens *)

Section Tokens.

Lemma splitRuns_clean p b (s : jsstring) :
  Forall (Forall (λ c, p c = false)) (splitRuns p b s).
Proof.
  revert b. induction s as [|c r IH]; intros b; cbn [splitRuns].
  - by repeat constructor.
  - destruct (p c) eqn:E.
    + destruct b; [apply IH|]. constructor; [constructor|apply IH].
    + specialize (IH false).
      destruct (splitRuns p false r) as [|w ws]; [by repeat constructor|].
      apply Forall_cons in IH as [Hw Hws].
      constructor; [by constructor|done].
Qed.

Lemma splitRuns_sub p b (s w : jsstring) : w ∈ splitRuns p b s → w ⊆ s.
Proof.
  revert b w. induction s as [|c r IH]; intros b w; cbn [splitRuns].
  - intros ->%list_elem_of_singleton. done.
  - destruct (p c).
    + destruct b.
      * intros Hw. apply list_subseteq_cons. by apply (IH true).
      * intros [->|Hw]%elem_of_cons; [by intros x ?%elem_of_nil|].
        apply list_subseteq_cons. by apply (IH true).
    + pose proof (IH false) as IHf.
      destruct (splitRuns p false r) as [|w0 ws].
      * intros ->%list_elem_of_singleton. intros x Hx.
        apply list_elem_of_singleton in Hx as ->. by left.
      * intros [->|Hw]%elem_of_cons.
        -- apply list_subseteq_skip, IHf. by left.
        -- apply list_subseteq_cons, IHf. by right.
Qed.

Lemma stripStart_all p (s : jsstring) :
  Forall (λ c, p c = true) s → stripStart p s = [].
Proof. induction 1 as [|c s Hc _ IH]; simpl; [done|]. by rewrite Hc. Qed.

Lemma trim_head (s : jsstring) :
  match trim s with c :: _ => isSpace c = false | [] => True end.
Proof.
  unfold trim. pose proof (stripStart_head isSpace s) as Hh.
  destruct (stripStart isSpace s) as [|c r]; [done|].
  by rewrite (stripEnd_cons_keep isSpace c r Hh).
Qed.

Lemma trim_nonempty_head (s : jsstring) :
  match s with c :: _ => isSpace c = false | [] => False end → trim s ≠ [].
Proof.
  destruct s as [|c r]; [done|]. intros Hc. unfold trim.
  rewrite (stripStart_fix isSpace (c :: r) Hc).
  by rewrite (stripEnd_cons_keep isSpace c r Hc).
Qed.

Lemma replacePhrase_chars (ws : list jsstring) (repl : jsstring) (k : nat)
    (b : bool) (s : jsstring) (x : N) :
  x ∈ replacePhrase ws repl k b s → x ∈ s ∨ x ∈ repl.
Proof.
  revert k b. induction s as [|c r IH]; intros k b; cbn [replacePhrase].
  - by intros ?%elem_of_nil.
  - destruct k as [|k].
    + destruct (phraseAt ws b (c :: r)).
      * rewrite elem_of_app. intros [Hx|Hx]; [by right|].
        destruct (IH _ _ Hx); [left; by right|by right].
      * intros [->|Hx]%elem_of_cons; [left; by left|].
        destruct (IH _ _ Hx); [left; by right|by right].
    + intros Hx. destruct (IH _ _ Hx); [left; by right|by right].
Qed.

Lemma replacePhrase_head (ws : list jsstring) (repl : jsstring) (b : bool)
    (s : jsstring) :
  match repl with c :: _ => isSpace c = false | [] => False end →
  match s with c :: _ => isSpace c = false | [] => False end →
  match replacePhrase ws repl 0 b s with
  | c :: _ => isSpace c = false
  | [] => False
  end.
Proof.
  intros Hr Hs. destruct s as [|c r]; [done|]. cbn [replacePhrase].
  destruct (phraseAt ws b (c :: r)); [|done].
  by destruct repl.
Qed.

(** The eight replacements are made of letters and single spaces, and
    start with a letter. *)
Lemma MULTI_WORD_plain :
  Forall (λ ws,
            Forall (λ c, isSkillSep c = false) (join [32] ws)
            ∧ match join [32] ws with
              | c :: _ => isSpace c = false
              | [] => False
              end) MULTI_WORD.
Proof.
  apply Forall_forall. intros ws Hws.
  assert (Hb : forallb (λ ws,
            forallb (λ c, negb (isSkillSep c)) (join [32] ws)
            && match join [32] ws with
               | c :: _ => negb (isSpace c)
               | [] => false
               end) MULTI_WORD = true) by (by vm_compute).
  rewrite forallb_forall in Hb. apply list_elem_of_In in Hws.
  specialize (Hb ws Hws). apply andb_true_iff in Hb as [H1 H2]. split.
  - apply Forall_forall. intros c Hc. rewrite forallb_forall in H1.
    apply list_elem_of_In in Hc. by apply negb_true_iff, H1.
  - destruct (join [32] ws); [done|]. by apply negb_true_iff.
Qed.

Lemma joinMultiWord_token (w : jsstring) :
  Forall (λ c, isSkillSep c = false) w →
  match w with c :: _ => isSpace c = false | [] => False end →
  Forall (λ c, isSkillSep c = false) (joinMultiWord w)
  ∧ match joinMultiWord w with
    | c :: _ => isSpace c = false
    | [] => False
    end.
Proof.
  unfold joinMultiWord. pose proof MULTI_WORD_plain as Hm.
  revert w. induction Hm as [|ws l [Hc Hh] _ IH]; intros w Hw Hd; [done|].
  cbn [fold_left]. apply IH.
  - apply Forall_forall. intros x Hx.
    apply replacePhrase_chars in Hx as [Hx|Hx].
    + rewrite Forall_forall in Hw. by apply Hw.
    + rewrite Forall_forall in Hc. by apply Hc.
  - by apply replacePhrase_head.
Qed.

Lemma filter_trim_length (l : list jsstring) :
  (length (filterBoolean (map trim l)) ≤ length (filterBoolean l))%nat.
Proof.
  induction l as [|w l IH]; [done|]. cbn [map filterBoolean List.filter].
  fold (filterBoolean (map trim l)). fold (filterBoolean l).
  destruct w as [|c w]; [done|].
  destruct (truthy (trim (c :: w))); cbn [truthy length]; lia.
Qed.

End Tokens.

(** [tokenizeSkills] splits on commas, semicolons and line feeds.  Its
    tokens are pairwise different strings, none empty, each trimmed and
    free of the three separators; there are at most as many as there are
    stretches between separators; and a text made of separators and
    white space only, the empty text included, gives no token. *)
Theorem tokenizeSkills_tokens (text : jsstring) :
  NoDup (tokenizeSkills text)
  ∧ Forall (λ t, t ≠ [] ∧ trim t = t ∧ Forall (λ c, isSkillSep c = false) t)
           (tokenizeSkills text)
  ∧ (length (tokenizeSkills text) ≤ countRuns isSkillSep false text)%nat
  ∧ (Forall (λ c, isSkillSep c || isSpace c = true) text →
     tokenizeSkills text = []).
Proof.
  unfold tokenizeSkills. destruct (truthy text) eqn:Ett; cbn [negb].
  2: { split_and!; [constructor|constructor|simpl; lia|done]. }
  cbv zeta.
  set (pieces := splitRuns isSkillSep false text).
  set (raw := filterBoolean (map trim pieces)).
  assert (Hraw : Forall (λ w, Forall (λ c, isSkillSep c = false) w
                   ∧ match w with c :: _ => isSpace c = false | [] => False end)
                   raw).
  { apply Forall_forall. intros w Hw. unfold raw, filterBoolean in Hw.
    apply list_elem_of_In, filter_In in Hw as [Hw Ht].
    apply in_map_iff in Hw as (p & <- & Hp). apply list_elem_of_In in Hp.
    split.
    - pose proof (splitRuns_clean isSkillSep false text) as Hc.
      rewrite Forall_forall in Hc. specialize (Hc p Hp).
      rewrite Forall_forall in Hc |- *. intros c Hc'.
      by apply Hc, trim_sub.
    - pose proof (trim_head p) as Hh. by destruct (trim p). }
  split_and!.
  - apply uniq_NoDup.
  - apply Forall_forall. intros t Ht. apply (proj1 (uniq_elem _ _)) in Ht.
    apply list_elem_of_In, in_map_iff in Ht as (j & <- & Hj).
    apply in_map_iff in Hj as (w & <- & Hw). apply list_elem_of_In in Hw.
    rewrite Forall_forall in Hraw. destruct (Hraw w Hw) as [Hc Hh].
    destruct (joinMultiWord_token w Hc Hh) as [Hc' Hh'].
    split_and!.
    + by apply trim_nonempty_head.
    + apply trim_idem.
    + rewrite Forall_forall in Hc' |- *. intros c Hin.
      by apply Hc', trim_sub.
  - etrans; [apply uniq_length|]. rewrite !length_map.
    etrans; [apply filter_trim_length|]. unfold pieces.
    by rewrite (proj1 (splitRuns_count isSkillSep text) false).
  - intros Hall.
    assert (Hnil : raw = []).
    { unfold raw, filterBoolean.
      destruct (List.filter truthy (map trim pieces)) as [|w ws] eqn:E; [done|].
      exfalso.
      assert (Hw : In w (List.filter truthy (map trim pieces)))
        by (rewrite E; by left).
      apply filter_In in Hw as [Hw Ht].
      apply in_map_iff in Hw as (p & <- & Hp). apply list_elem_of_In in Hp.
      pose proof (splitRuns_clean isSkillSep false text) as Hc.
      rewrite Forall_forall in Hc. specialize (Hc p Hp).
      pose proof (splitRuns_sub _ _ _ _ Hp) as Hsub.
      assert (Hsp : Forall (λ c, isSpace c = true) p).
      { apply Forall_forall. intros c Hin.
        rewrite Forall_forall in Hc, Hall.
        specialize (Hall c (Hsub c Hin)). rewrite (Hc c Hin) in Hall. done. }
      unfold trim in Ht. by rewrite (stripStart_all _ _ Hsp) in Ht. }
    by rewrite Hnil.
Qed.
(** ** The skills list *)

Section SkillsList.
Context `{Host}.

Lemma distinctTrimmed_entries (arr : list jsval) :
  NoDup (distinctTrimmed arr)
  ∧ Forall (λ s, s ≠ [] ∧ trim s = s) (distinctTrimmed arr).
Proof.
  unfold distinctTrimmed. split; [apply uniq_NoDup|].
  apply Forall_forall. intros s Hs. apply (proj1 (uniq_elem _ _)) in Hs.
  unfold filterBoolean in Hs. apply list_elem_of_In, filter_In in Hs as [Hs Ht].
  apply in_map_iff in Hs as (v & <- & _). split.
  - by apply truthy_nonempty.
  - apply trim_idem.
Qed.

Lemma tokens_entries (text : jsstring) :
  NoDup (Skills.tokenizeSkills text)
  ∧ Forall (λ s, s ≠ [] ∧ trim s = s) (Skills.tokenizeSkills text).
Proof.
  unfold Skills.tokenizeSkills. destruct (truthy text); cbn [negb];
    [|split; constructor].
  cbv zeta. split; [apply uniq_NoDup|].
  apply Forall_forall. intros t Ht. apply (proj1 (uniq_elem _ _)) in Ht.
  apply list_elem_of_In, in_map_iff in Ht as (j & <- & Hj).
  apply in_map_iff in Hj as (w & <- & Hw). apply list_elem_of_In in Hw.
  split; [|apply trim_idem].
  unfold filterBoolean in Hw. apply list_elem_of_In, filter_In in Hw as [Hw Ht].
  apply in_map_iff in Hw as (p & <- & Hp). apply list_elem_of_In in Hp.
  pose proof (splitRuns_clean Skills.isSkillSep false text) as Hc.
  rewrite Forall_forall in Hc. specialize (Hc p Hp).
  apply trim_nonempty_head. apply joinMultiWord_token.
  - rewrite Forall_forall in Hc |- *. intros c Hin. by apply Hc, trim_sub.
  - pose proof (trim_head p) as Hh. by destruct (trim p).
Qed.

Lemma normalizeSkillsAI_entries (p : promptAnswer) (w : writerAnswer)
    (raw : jsstring) :
  NoDup (normalizeSkillsAI p w raw)
  ∧ Forall (λ s, s ≠ [] ∧ trim s = s) (normalizeSkillsAI p w raw).
Proof.
  unfold normalizeSkillsAI. cbv zeta.
  destruct (negb (truthy (trim raw))); [split; constructor|].
  destruct p; try apply distinctTrimmed_entries;
    destruct w; try apply distinctTrimmed_entries; apply tokens_entries.
Qed.

Lemma alert_doc (msg : jsstring) (ed : editor) : doc (alert msg ed) = doc ed.
Proof. done. Qed.

Lemma onRewrite_skills (idx : nat) (b : backends) (ed : editor) :
  cvSkills (doc (snd (onRewrite idx b ed))) = cvSkills (doc ed).
Proof.
  destruct (onRewrite_cases idx b ed) as [->|[->|(t & o & _ & ->)]]; done.
Qed.

(** Only the skills box writes the skills list. *)
Lemma step_skills (ev : event) (ed : editor) :
  cvSkills (doc (step ev ed)) = cvSkills (doc ed)
  ∨ ∃ p w raw, cvSkills (doc (step ev ed)) = normalizeSkillsAI p w raw.
Proof.
  destruct ev as [|idx k v|idx v|idx|idx b|idx g|corrected|sup p w raw];
    cbn [step]; try (by left).
  - left. apply onRewrite_skills.
  - left. unfold onGenerateFromJD. destruct g; try done;
      by destruct (cvExperience (doc ed) !! idx).
  - unfold normalizeAndGroupSkills. destruct sup; [by left|right]. eauto.
Qed.

End SkillsList.

(** The skills list of the document, in every state of a session: its
    entries are pairwise different strings, none is empty and none has
    white space at either end.  Each of the three ways in which
    [normalizeSkillsAI] answers gives such a list, and a text of white
    space only gives the empty list without any backend being asked. *)
Theorem skills_list_entries `{Host} (ed : editor) (p : promptAnswer)
    (w : writerAnswer) (raw : jsstring) :
  reachable ed →
  NoDup (cvSkills (doc ed))
  ∧ Forall (λ s, s ≠ [] ∧ trim s = s) (cvSkills (doc ed))
  ∧ NoDup (normalizeSkillsAI p w raw)
  ∧ Forall (λ s, s ≠ [] ∧ trim s = s) (normalizeSkillsAI p w raw)
  ∧ (trim raw = [] → normalizeSkillsAI p w raw = []).
Proof.
  intros Hed.
  assert (Hinv : NoDup (cvSkills (doc ed))
                 ∧ Forall (λ s, s ≠ [] ∧ trim s = s) (cvSkills (doc ed))).
  { induction Hed as [|ev ed _ IH]; [split; constructor|].
    destruct (step_skills ev ed) as [->|(p' & w' & raw' & ->)]; [done|].
    apply normalizeSkillsAI_entries. }
  destruct Hinv as [Hn Hf].
  destruct (normalizeSkillsAI_entries p w raw) as [Hn' Hf'].
  split_and!; try done.
  intros Hr. unfold normalizeSkillsAI. cbv zeta. by rewrite Hr.
Qed.

(** The list after [React,  react ,, Vue] was typed with no backend. *)
Lemma skills_list_entries_witness :
  cvSkills (doc (@step Latin1.host
                   (SkillsInput false PromptUnavailable WriterThrows
                      (lit "React,  react ,, Vue")) initial))
  = [lit "React"; lit "react"; lit "Vue"]
  ∧ NoDup [lit "React"; lit "react"; lit "Vue"].
Proof.
  pose proof (@skills_list_entries Latin1.host _ PromptUnavailable
                WriterThrows []
                (@reachable_step Latin1.host
                   (SkillsInput false PromptUnavailable WriterThrows
                      (lit "React,  react ,, Vue")) initial
                   (@reachable_initial Latin1.host))) as (Hn & _).
  split; [by vm_compute|].
  revert Hn. by vm_compute.
Defined.
(** ** More on country packs *)

Section MorePackFacts.
Context `{Host}.

Lemma addExtras_present (names : list jsstring) (arr : list jsval) :
  (∀ s, s ∈ names → hasSection arr s = true) →
  fold_left addExtra names arr = arr.
Proof.
  induction names as [|n names IH]; intros Hall; [done|]. simpl.
  unfold addExtra at 2. rewrite (Hall n) by (by left).
  apply IH. intros s Hs. apply Hall. by right.
Qed.

Lemma ensureExtras_present (arr : list jsval) :
  (∀ s, s ∈ need → hasSection arr s = true) → ensureExtras arr = arr.
Proof. apply addExtras_present. Qed.

Lemma ensureExtras_has (arr : list jsval) (s : jsstring) :
  s ∈ need → hasSection (ensureExtras arr) s = true.
Proof.
  intros Hs. destruct (addExtras_fold need arr) as (_ & Hall & _).
  by apply Hall.
Qed.

Lemma loaded_update (country : jsstring) (res : fetched) (st : store) :
  DEFAULT_PACKS (updateCountryPackFromGemini country res st)
  = (if loadedPacks st is Some _ then DEFAULT_PACKS st
     else DEFAULT_PACKS (updateCountryPackFromGemini country res st))
  ∧ (is_Some (loadedPacks (updateCountryPackFromGemini country res st))
     ↔ is_Some (loadedPacks st)).
Proof.
  unfold updateCountryPackFromGemini.
  destruct res as [| |spec]; try (by destruct (loadedPacks st)).
  destruct (baseSections st country); [|by destruct (loadedPacks st)].
  unfold setCountryPack. destruct (loadedPacks st) eqn:E; simpl.
  - split; [done|]. split; intros _; eauto.
  - split; [done|]. split; by intros [? ?].
Qed.

Lemma loaded_defaults (st : store) :
  reachableStore st → is_Some (loadedPacks st) →
  DEFAULT_PACKS st = BUILTIN_PACKS.
Proof.
  induction 1 as [fromJson|st country res _ IH]; [done|].
  intros Hl. destruct (loaded_update country res st) as [Hd Hs].
  apply Hs in Hl. rewrite Hd. destruct Hl as [m Hm]. rewrite Hm.
  apply IH. rewrite Hm. eauto.
Qed.

Lemma update_frame (country c' : jsstring) (res : fetched) (st : store) :
  c' ≠ country →
  countryPacks (updateCountryPackFromGemini country res st) !! c'
  = countryPacks st !! c'.
Proof.
  intros Hne. unfold updateCountryPackFromGemini.
  destruct res as [| |spec]; try done.
  destruct (baseSections st country); [|done].
  unfold countryPacks, setCountryPack.
  destruct (loadedPacks st); simpl; by rewrite lookup_insert_ne.
Qed.

End MorePackFacts.

(** [ensureExtras] is idempotent and only appends: the given list is a
    prefix of the result, at most four names are added, and a list that
    holds the four names up to case is returned as it is. *)
Theorem ensureExtras_idempotent `{Host} (arr : list jsval) :
  ensureExtras (ensureExtras arr) = ensureExtras arr
  ∧ arr `prefix_of` ensureExtras arr
  ∧ (length (ensureExtras arr) ≤ length arr + 4)%nat
  ∧ ((∀ s, s ∈ need → hasSection arr s = true) → ensureExtras arr = arr).
Proof.
  destruct (ensureExtras_spec arr) as (_ & extras & Hr & Hsub & _).
  split_and!.
  - apply ensureExtras_present. intros s Hs. by apply ensureExtras_has.
  - rewrite Hr. by apply prefix_app_r.
  - rewrite Hr, length_app, length_map.
    apply sublist_length in Hsub. change (length need) with 4%nat in Hsub. lia.
  - apply ensureExtras_present.
Qed.

(** In a session whose JSON file of packs was loaded, [DEFAULT_PACKS] is
    never written: it holds the lists of the source in every store, so a
    resolution answered by a spec without section order stores the
    built-in sections of the country followed by the missing extras,
    however many resolutions came before.  In every session a resolution
    for one country leaves the packs of the other countries as they
    were. *)
Theorem loaded_session_defaults `{Host} (st : store) (country : jsstring)
    (res : fetched) (spec : cvspec) :
  reachableStore st → is_Some (loadedPacks st) →
  DEFAULT_PACKS st = BUILTIN_PACKS
  ∧ DEFAULT_PACKS (updateCountryPackFromGemini country res st) = BUILTIN_PACKS
  ∧ (lacksSectionOrder spec = true →
     sections <$> (countryPacks
                     (updateCountryPackFromGemini country (FetchSpec spec) st)
                   !! country)
     = Some (ensureExtras (builtinSections country)))
  ∧ (∀ c', c' ≠ country →
       countryPacks (updateCountryPackFromGemini country res st) !! c'
       = countryPacks st !! c').
Proof.
  intros Hst Hl. pose proof (loaded_defaults st Hst Hl) as Hd.
  split_and!.
  - done.
  - apply loaded_defaults; [by constructor|].
    by apply (loaded_update country res st).
  - intros Hlack. unfold updateCountryPackFromGemini.
    assert (Hb : baseSections st country = Some (builtinSections country)).
    { unfold baseSections, builtinSections. rewrite Hd.
      destruct (BUILTIN_PACKS !! country); [done|]. by vm_compute. }
    rewrite Hb, countryPacks_set. simpl. f_equal.
    unfold lacksSectionOrder in Hlack.
    by destruct (spec_section_order spec) as [[|x l]|].
  - intros c' Hne. by apply update_frame.
Qed.

(** Two resolutions for UK in a session that loaded an empty JSON
    object: the second starts from the built-in list again. *)
Lemma loaded_session_defaults_witness :
  sections <$>
    (countryPacks
       (@updateCountryPackFromGemini Latin1.host (lit "UK") (FetchSpec bareSpec)
          (@updateCountryPackFromGemini Latin1.host (lit "UK")
             (FetchSpec shortSpec) (bootStore (Some ∅))))
     !! lit "UK")
  = Some (builtinSections (lit "UK")).
Proof.
  pose proof (@loaded_session_defaults Latin1.host
                (@updateCountryPackFromGemini Latin1.host (lit "UK")
                   (FetchSpec shortSpec) (bootStore (Some ∅)))
                (lit "UK") FetchThrows bareSpec
                (@reachable_update Latin1.host _ (lit "UK")
                   (FetchSpec shortSpec) (@reachable_boot Latin1.host (Some ∅)))
                (ltac:(by eexists))) as (_ & _ & Hs & _).
  rewrite (Hs eq_refl). f_equal.
Defined.
(** ** Cards and their indices *)

Section Cards.
Context `{Host}.

Lemma commitBullets_frame (idx j : nat) (bs : list jsstring) (ed : editor) :
  length (cvExperience (doc (commitBullets idx bs ed)))
  = length (cvExperience (doc ed))
  ∧ (j ≠ idx →
     cvExperience (doc (commitBullets idx bs ed)) !! j
     = cvExperience (doc ed) !! j).
Proof.
  unfold commitBullets, withExperience. simpl. split.
  - apply length_alter.
  - intros Hne. by apply list_lookup_alter_ne.
Qed.

Lemma step_frame (ev : event) (idx j : nat) (ed : editor) :
  cardIndex ev = Some idx →
  length (cvExperience (doc (step ev ed))) = length (cvExperience (doc ed))
  ∧ (j ≠ idx →
     cvExperience (doc (step ev ed)) !! j = cvExperience (doc ed) !! j).
Proof.
  destruct ev as [|i k v|i v|i|i b|i g|corrected|sup p w raw];
    try done; intros [= ->]; cbn [step].
  - unfold onFieldInput, withExperience. simpl. split.
    + apply length_alter.
    + intros Hne. by apply list_lookup_alter_ne.
  - apply commitBullets_frame.
  - destruct (onRewrite_cases idx b ed) as [->|[->|(t & o & _ & ->)]];
      [done|done|].
    apply commitBullets_frame.
  - unfold onGenerateFromJD. destruct g as [|out|out|]; try done;
      (destruct (cvExperience (doc ed) !! idx); [apply commitBullets_frame|done]).
Qed.

End Cards.

(** An event of a card writes the entry at the card's index and no
    other: typing into a field or into the bullets, a rewrite and a
    generation leave the number of entries and every other entry as they
    were.  Typing into a field leaves the bullets of the card's entry as
    they were, and typing bullets leaves its other fields. *)
Theorem card_events_write_one_entry `{Host} (ev : event) (idx j : nat)
    (ed : editor) :
  cardIndex ev = Some idx →
  length (cvExperience (doc (step ev ed))) = length (cvExperience (doc ed))
  ∧ (j ≠ idx →
     cvExperience (doc (step ev ed)) !! j = cvExperience (doc ed) !! j)
  ∧ (∀ k v, bullets <$> (cvExperience (doc (step (FieldInput idx k v) ed))
                         !! idx)
            = bullets <$> (cvExperience (doc ed) !! idx))
  ∧ (∀ v, role <$> (cvExperience (doc (step (BulletsInput idx v) ed)) !! idx)
          = role <$> (cvExperience (doc ed) !! idx)
          ∧ company <$> (cvExperience (doc (step (BulletsInput idx v) ed))
                         !! idx)
            = company <$> (cvExperience (doc ed) !! idx)).
Proof.
  intros Hev. destruct (step_frame ev idx j ed Hev) as [Hl Hf].
  split_and!; [done|done|..].
  - intros k v. cbn [step]. unfold onFieldInput, withExperience. simpl.
    rewrite list_lookup_alter_eq.
    destruct (cvExperience (doc ed) !! idx) as [e|]; [|done].
    by destruct k.
  - intros v. cbn [step]. unfold onBulletsInput, commitBullets, withExperience.
    simpl. rewrite list_lookup_alter_eq.
    by destruct (cvExperience (doc ed) !! idx) as [e|].
Qed.

(** A rewrite of the second card leaves the seeded entry as it was. *)
Lemma card_events_write_one_entry_witness :
  cvExperience
    (doc (@step Latin1.host (Rewrite 1 noBackend)
            (@step Latin1.host AddExperience initial))) !! 0%nat
  = Some seedExperience.
Proof.
  pose proof (@card_events_write_one_entry Latin1.host (Rewrite 1 noBackend)
                1 0 (@step Latin1.host AddExperience initial) eq_refl)
    as (_ & Hf & _).
  rewrite Hf by done. reflexivity.
Defined.

(** A card keeps the index that its entry had when it was added.  After
    the card at [i] was deleted, the entries behind it have moved up by
    one, and what is typed into the bullets of a later card [j] is
    stored one entry further down than the card's own: in the entry that
    was at [j + 1], or nowhere when the card was the last one.  The
    card's own entry, now at [j - 1], keeps its bullets. *)
Theorem stale_index_after_delete `{Host} (i j : nat) (v : jsstring)
    (ed : editor) :
  (i < j)%nat →
  let before := cvExperience (doc ed) in
  let after :=
    cvExperience (doc (step (BulletsInput j v) (step (Delete i) ed))) in
  after !! j = setBullets (typedLines v) <$> (before !! S j)
  ∧ after !! (j - 1)%nat = before !! j
  ∧ (length before ≤ S j → after = delete i before)%nat.
Proof.
  intros Hij. cbv zeta. cbn [step].
  unfold onBulletsInput, commitBullets, onDelete, withExperience. simpl.
  split_and!.
  - rewrite list_lookup_alter_eq, list_lookup_delete_ge by lia. done.
  - rewrite list_lookup_alter_ne by lia.
    rewrite list_lookup_delete_ge by lia. f_equal. lia.
  - intros Hlen. apply list_eq. intros n.
    destruct (decide (n = j)) as [->|Hne].
    + rewrite list_lookup_alter_eq, list_lookup_delete_ge by lia.
      rewrite (lookup_ge_None_2 _ (S j)) by lia. done.
    + by rewrite list_lookup_alter_ne.
Qed.

(** Three cards; the first is deleted and bullets are typed into the
    second: they land in the entry of the third. *)
Lemma stale_index_after_delete_witness :
  map company
    (cvExperience (doc (@step Latin1.host (BulletsInput 1 (lit "typed"))
                          (@step Latin1.host (Delete 0) threeCards))))
  = [lit "B"; []]
  ∧ bullets <$> (cvExperience
                   (doc (@step Latin1.host (BulletsInput 1 (lit "typed"))
                           (@step Latin1.host (Delete 0) threeCards)))
                 !! 1%nat)
    = Some [lit "typed"].
Proof.
  split; [by vm_compute|].
  pose proof (@stale_index_after_delete Latin1.host 0 1 (lit "typed")
                threeCards ltac:(lia)) as (Hj & _).
  cbv zeta in Hj. rewrite Hj. by vm_compute.
Defined.
(** ** More on the ATS linter *)

Section MoreAts.
Variable JSON_stringify : CV → jsstring.

Lemma effectiveLimit_pos (p : pack) : 1 ≤ effectiveLimit p.
Proof.
  unfold effectiveLimit. destruct (page_limit p) as [[|n]|]; lia.
Qed.

Lemma estimate_exceeds (wc : nat) (l : N) :
  1 ≤ l → (l < estimatedPages wc ↔ 500 * l + 250 ≤ N.of_nat wc).
Proof.
  intros Hl. unfold estimatedPages. set (n := N.of_nat wc).
  pose proof (N.div_mod (n + 250) 500 ltac:(lia)) as Hd.
  pose proof (N.mod_lt (n + 250) 500 ltac:(lia)) as Hm.
  set (q := (n + 250) / 500) in *. set (r := (n + 250) mod 500) in *.
  clearbody q r. lia.
Qed.

Lemma estimatedPages_mono (a b : nat) :
  (a ≤ b)%nat → estimatedPages a ≤ estimatedPages b.
Proof.
  intros Hab. unfold estimatedPages.
  apply N.max_le_compat_l, N.Div0.div_le_mono. lia.
Qed.

Lemma laterWarnings_length (cv : CV) (html : option preview) :
  (length (laterWarnings JSON_stringify cv html) ≤ 4)%nat
  ∧ (length (laterWarnings JSON_stringify cv None) ≤ 1)%nat
  ∧ laterWarnings JSON_stringify cv None
    `prefix_of` laterWarnings JSON_stringify cv html.
Proof.
  unfold laterWarnings. split_and!.
  - rewrite length_app. destruct (dateRegex_test _), html as [h|]; simpl;
      try lia; rewrite !length_app;
      destruct (hasTable h), (hasImage h), (2000 <? elementCount h);
      simpl; lia.
  - rewrite length_app. destruct (dateRegex_test _); simpl; lia.
  - rewrite app_nil_r. by apply prefix_app_r.
Qed.

End MoreAts.

(** The page-limit rule of [lintCV] in words counted: with a limit of
    [l] pages (the pack's [page_limit], 2 when it has none or has 0)
    the page-limit message is among the warnings exactly when the
    document has at least [500 l + 250] words.  The estimate never
    decreases when words are added.  A call returns at most five
    warnings, at most two without a preview, and the warnings without a
    preview come first in the warnings with one. *)
Theorem page_warning_threshold (JSON_stringify : CV → jsstring) (cv : CV)
    (p : pack) (html : option preview) (a b : nat) :
  let words := N.of_nat (wordCount (textContentFromCV cv)) in
  let warnings := lintCV JSON_stringify cv p html in
  1 ≤ effectiveLimit p
  ∧ (pageWarning cv p ∈ warnings ↔ 500 * effectiveLimit p + 250 ≤ words)
  ∧ ((a ≤ b)%nat → estimatedPages a ≤ estimatedPages b)
  ∧ (length warnings ≤ 5)%nat
  ∧ (length (lintCV JSON_stringify cv p None) ≤ 2)%nat
  ∧ lintCV JSON_stringify cv p None `prefix_of` warnings.
Proof.
  cbv zeta. pose proof (effectiveLimit_pos p) as Hl.
  pose proof (estimate_exceeds (wordCount (textContentFromCV cv)) _ Hl) as He.
  destruct (laterWarnings_length JSON_stringify cv html) as (H4 & H1 & Hp).
  rewrite !lintCV_unfold.
  split_and!.
  - done.
  - rewrite <- He. split.
    + destruct (_ <? _) eqn:E; [intros _; by apply N.ltb_lt|].
      intros Hin. simpl in Hin.
      apply (laterWarnings_prefix JSON_stringify) in Hin as [Hin _].
      by rewrite (proj1 (pageWarning_prefix cv p)) in Hin.
    + intros Hlt. apply N.ltb_lt in Hlt. rewrite Hlt. by left.
  - apply estimatedPages_mono.
  - rewrite length_app. destruct (_ <? _); simpl; lia.
  - rewrite length_app. destruct (_ <? _); simpl; lia.
  - by apply prefix_app.
Qed.
(** ** Rendering *)

Section Escape.

Lemma escapeChar_cases (c : N) :
  (isHtmlSpecial c = false ∧ escapeChar c = [c])
  ∨ (c = 38 ∧ escapeChar c = lit "&amp;")
  ∨ (c = 60 ∧ escapeChar c = lit "&lt;")
  ∨ (c = 62 ∧ escapeChar c = lit "&gt;")
  ∨ (c = 34 ∧ escapeChar c = lit "&quot;")
  ∨ (c = 39 ∧ escapeChar c = lit "&#39;").
Proof.
  unfold escapeChar, isHtmlSpecial.
  destruct (c =? 38) eqn:E1; [apply N.eqb_eq in E1; tauto|].
  destruct (c =? 60) eqn:E2; [apply N.eqb_eq in E2; tauto|].
  destruct (c =? 62) eqn:E3; [apply N.eqb_eq in E3; tauto|].
  destruct (c =? 34) eqn:E4; [apply N.eqb_eq in E4; tauto|].
  destruct (c =? 39) eqn:E5; [apply N.eqb_eq in E5; tauto|].
  by left.
Qed.

Lemma escapeHtml_app (s t : jsstring) :
  escapeHtml (s ++ t) = escapeHtml s ++ escapeHtml t.
Proof. apply flat_map_app. Qed.

Lemma escapeHtml_plain (s : jsstring) :
  Forall (λ c, c ≠ 60 ∧ c ≠ 62 ∧ c ≠ 34 ∧ c ≠ 39) (escapeHtml s).
Proof.
  induction s as [|c s IH]; [constructor|].
  change (escapeHtml (c :: s)) with (escapeChar c ++ escapeHtml s).
  apply Forall_app_2; [|done].
  destruct (escapeChar_cases c) as [[Hs ->]|[[-> ->]|[[-> ->]|[[-> ->]|[[-> ->]|[-> ->]]]]]];
    try (repeat constructor; done).
  constructor; [|constructor].
  unfold isHtmlSpecial in Hs.
  repeat (apply orb_false_iff in Hs as [Hs ?]).
  repeat match goal with H : (_ =? _) = false |- _ => apply N.eqb_neq in H end.
  done.
Qed.

Lemma escapeHtml_inj (s t : jsstring) : escapeHtml s = escapeHtml t → s = t.
Proof.
  revert t. induction s as [|c s IH]; intros [|d t].
  - done.
  - change (escapeHtml (d :: t)) with (escapeChar d ++ escapeHtml t).
    destruct (escapeChar_cases d) as [[_ ->]|[[_ ->]|[[_ ->]|[[_ ->]|[[_ ->]|[_ ->]]]]]];
      done.
  - change (escapeHtml (c :: s)) with (escapeChar c ++ escapeHtml s).
    destruct (escapeChar_cases c) as [[_ ->]|[[_ ->]|[[_ ->]|[[_ ->]|[[_ ->]|[_ ->]]]]]];
      done.
  - change (escapeHtml (c :: s)) with (escapeChar c ++ escapeHtml s).
    change (escapeHtml (d :: t)) with (escapeChar d ++ escapeHtml t).
    destruct (escapeChar_cases c) as [[Hc ->]|[[-> ->]|[[-> ->]|[[-> ->]|[[-> ->]|[-> ->]]]]]];
      destruct (escapeChar_cases d) as [[Hd ->]|[[-> ->]|[[-> ->]|[[-> ->]|[[-> ->]|[-> ->]]]]]];
      simpl; intros Heq; try done;
      try (injection Heq as -> Heq; by rewrite (IH _ Heq));
      try (injection Heq as Heq; by rewrite (IH _ Heq));
      try (injection Heq as Heq _; subst; by vm_compute in Hc);
      try (injection Heq as Heq _; subst; by vm_compute in Hd).
Qed.

Lemma escapeHtml_id (s : jsstring) :
  Forall (λ c, isHtmlSpecial c = false) s → escapeHtml s = s.
Proof.
  induction 1 as [|c s Hc _ IH]; [done|].
  change (escapeHtml (c :: s)) with (escapeChar c ++ escapeHtml s).
  rewrite IH.
  destruct (escapeChar_cases c) as [[_ ->]|[[-> _]|[[-> _]|[[-> _]|[[-> _]|[-> _]]]]]];
    done.
Qed.

Lemma escapeHtml_length (s : jsstring) :
  (length s ≤ length (escapeHtml s) ≤ 6 * length s)%nat.
Proof.
  induction s as [|c s IH]; [simpl; lia|].
  change (escapeHtml (c :: s)) with (escapeChar c ++ escapeHtml s).
  rewrite length_app.
  destruct (escapeChar_cases c) as [[_ ->]|[[_ ->]|[[_ ->]|[[_ ->]|[[_ ->]|[_ ->]]]]]];
    simpl; lia.
Qed.

End Escape.

(** [escapeHtml] leaves no angle bracket and no quote in a text: its
    result holds none of the four characters.  It loses nothing: two
    texts with the same result are the same text.  It leaves a text
    without any of its five characters as it is, it works piece by
    piece, and its result is between one and six times as long as the
    text. *)
Theorem escapeHtml_safe (s t : jsstring) :
  Forall (λ c, c ≠ 60 ∧ c ≠ 62 ∧ c ≠ 34 ∧ c ≠ 39) (escapeHtml s)
  ∧ (escapeHtml s = escapeHtml t → s = t)
  ∧ (Forall (λ c, isHtmlSpecial c = false) s → escapeHtml s = s)
  ∧ escapeHtml (s ++ t) = escapeHtml s ++ escapeHtml t
  ∧ (length s ≤ length (escapeHtml s) ≤ 6 * length s)%nat.
Proof.
  split; [apply escapeHtml_plain|].
  split; [apply escapeHtml_inj|].
  split; [apply escapeHtml_id|].
  split; [apply escapeHtml_app|apply escapeHtml_length].
Qed.

Section Markup.

Lemma occurrences_app (c : N) (s t : jsstring) :
  occurrences c (s ++ t) = (occurrences c s + occurrences c t)%nat.
Proof. unfold occurrences. by rewrite List.filter_app, length_app. Qed.

Lemma occurrences_absent (c : N) (s : jsstring) :
  Forall (λ d, d ≠ c) s → occurrences c s = 0%nat.
Proof.
  unfold occurrences. induction 1 as [|d s Hd _ IH]; [done|]. simpl.
  destruct (c =? d) eqn:E; [by apply N.eqb_eq in E|done].
Qed.

Lemma occurrences_escape (s : jsstring) :
  occurrences 60 (escapeHtml s) = 0%nat ∧ occurrences 62 (escapeHtml s) = 0%nat.
Proof.
  pose proof (escapeHtml_plain s) as Hp.
  split; apply occurrences_absent; (eapply Forall_impl; [exact Hp|]);
    by intros c (? & ? & _).
Qed.

Lemma occurrences_concat (c : N) {A} (f : A → jsstring) (n : nat)
    (l : list A) :
  (∀ x, occurrences c (f x) = n) →
  occurrences c (concat (map f l)) = (n * length l)%nat.
Proof.
  intros Hf. induction l as [|x l IH]; [unfold occurrences; simpl; lia|].
  simpl. rewrite occurrences_app, Hf, IH. lia.
Qed.

Lemma occurrences_rows (c : N) {A} (f : A → jsstring) (g : A → nat)
    (l : list A) :
  (∀ x, occurrences c (f x) = g x) →
  occurrences c (concat (map f l)) = sum_list (map g l).
Proof.
  intros Hf. induction l as [|x l IH]; simpl; [done|].
  by rewrite occurrences_app, Hf, IH.
Qed.

End Markup.

(** Occurrences in a string put together from literal markup and from
    escaped text: the sum is split, escaped text counts for nothing and
    the literal pieces are evaluated. *)
Ltac is_numeral n :=
  lazymatch n with
  | O => idtac
  | S ?m => is_numeral m
  end.

Ltac count_literals :=
  repeat match goal with
         | |- context [occurrences ?c ?s] =>
             let v := eval vm_compute in (occurrences c s) in
             is_numeral v; change (occurrences c s) with v
         end.

Ltac count_markup :=
  rewrite ?occurrences_app, ?(proj1 (occurrences_escape _)),
    ?(proj2 (occurrences_escape _));
  repeat match goal with
         | |- context [occurrences ?c (if ?b then _ else _)] =>
             destruct b;
             rewrite ?occurrences_app, ?(proj1 (occurrences_escape _)),
               ?(proj2 (occurrences_escape _))
         end;
  count_literals.

Lemma renderBullets_tags (bs : list jsstring) :
  occurrences 60 (renderBullets bs) = listTags (length bs)
  ∧ occurrences 62 (renderBullets bs) = listTags (length bs).
Proof.
  destruct bs as [|b bs]; [done|].
  unfold renderBullets.
  split; rewrite !occurrences_app;
    rewrite (occurrences_concat _ _ 2) by (intros x; by count_markup);
    count_literals; cbn [length listTags]; lia.
Qed.

Lemma experienceRow_tags (it : experience) :
  occurrences 60 (experienceRow it) = (8 + listTags (length (bullets it)))%nat
  ∧ occurrences 62 (experienceRow it)
    = (8 + listTags (length (bullets it)))%nat.
Proof.
  destruct (renderBullets_tags (bullets it)) as [Hl Hg].
  unfold experienceRow, renderDates. cbv zeta.
  split; count_markup; rewrite ?Hl, ?Hg; lia.
Qed.

Lemma educationRow_tags (it : education) :
  occurrences 60 (educationRow it) = 8%nat
  ∧ occurrences 62 (educationRow it) = 8%nat.
Proof.
  unfold educationRow, renderDates. cbv zeta. split; by count_markup.
Qed.

Lemma projectRow_tags (p : project) :
  occurrences 60 (projectRow p) = (6 + listTags (length (projBullets p)))%nat
  ∧ occurrences 62 (projectRow p)
    = (6 + listTags (length (projBullets p)))%nat.
Proof.
  destruct (renderBullets_tags (projBullets p)) as [Hl Hg].
  unfold projectRow. cbv zeta.
  split; count_markup; rewrite ?Hl, ?Hg; lia.
Qed.

(** The text of a CV never adds markup to its rendering.  In the
    sections that [renderExperience], [renderEducation] and
    [renderProjects] return, the number of opening angle brackets, and
    of closing ones, is that of the tags of the templates: four for the
    section, eight for an experience or education entry, six for a
    project, and the tags of the bullet lists; it does not depend on any
    text of the entries.  A section without entries is the empty
    string. *)
Theorem rendered_markup_is_fixed (exps : list experience)
    (edus : list education) (projs : list project) (c : N) :
  c = 60 ∨ c = 62 →
  (exps ≠ [] →
   occurrences c (renderExperience exps)
   = (4 + sum_list (map (λ it, 8 + listTags (length (bullets it))) exps))%nat)
  ∧ (edus ≠ [] →
     occurrences c (renderEducation edus) = (4 + 8 * length edus)%nat)
  ∧ (projs ≠ [] →
     occurrences c (renderProjects projs)
     = (4 + sum_list (map (λ p, 6 + listTags (length (projBullets p)))
                          projs))%nat)
  ∧ renderExperience [] = [] ∧ renderEducation [] = []
  ∧ renderProjects [] = [].
Proof.
  intros Hc. split_and!; try done.
  - destruct exps as [|e exps]; [done|]. intros _. unfold renderExperience.
    rewrite !occurrences_app.
    rewrite (occurrences_rows c experienceRow
               (λ it, (8 + listTags (length (bullets it)))%nat))
      by (intros it; destruct Hc as [-> | ->]; apply experienceRow_tags).
    destruct Hc as [-> | ->]; count_literals; lia.
  - destruct edus as [|e edus]; [done|]. intros _. unfold renderEducation.
    rewrite !occurrences_app.
    rewrite (occurrences_concat c educationRow 8)
      by (intros it; destruct Hc as [-> | ->]; apply educationRow_tags).
    destruct Hc as [-> | ->]; count_literals; lia.
  - destruct projs as [|p projs]; [done|]. intros _. unfold renderProjects.
    rewrite !occurrences_app.
    rewrite (occurrences_rows c projectRow
               (λ p, (6 + listTags (length (projBullets p)))%nat))
      by (intros it; destruct Hc as [-> | ->]; apply projectRow_tags).
    destruct Hc as [-> | ->]; count_literals; lia.
Qed.

(** The seeded entry, with a script tag typed into its role. *)
Lemma rendered_markup_is_fixed_witness :
  occurrences 60
    (renderExperience
       [ {| company := lit "Acme"; role := lit "<script>alert(1)</script>";
            expLocation := []; start := []; end_ := [];
            bullets := [lit "a < b"] |} ])
  = 16%nat.
Proof.
  pose proof (rendered_markup_is_fixed
    [ {| company := lit "Acme"; role := lit "<script>alert(1)</script>";
         expLocation := []; start := []; end_ := [];
         bullets := [lit "a < b"] |} ] [] [] 60 (or_introl eq_refl))
    as (He & _).
  rewrite He by done. reflexivity.
Defined.
(** ** The proxy *)

Section ProxyFacts.



Lemma filter_trim_id (l : list jsstring) :
  Forall trimmedEntry l → filterBoolean (map trim l) = l.
Proof.
  induction 1 as [|s l [Hne Ht] _ IH]; [done|].
  cbn [map filterBoolean List.filter]. rewrite Ht.
  destruct s; [done|]. cbn [truthy]. f_equal. exact IH.
Qed.

Lemma filter_trim_entries (l : list jsstring) :
  Forall trimmedEntry (filterBoolean (map trim l)).
Proof.
  apply Forall_forall. intros s Hs. unfold filterBoolean in Hs.
  apply list_elem_of_In, filter_In in Hs as [Hs Ht].
  apply in_map_iff in Hs as (v & <- & _).
  split; [by apply truthy_nonempty|apply trim_idem].
Qed.

Lemma map_trim_toStr (l : list jsstring) :
  map (λ v, trim (toStr v)) (map JString l) = map trim l.
Proof. by rewrite map_map. Qed.





End ProxyFacts.


Section BulletsFromJD.
Context `{Host}.

Lemma firstTrimmed_entries (n : nat) (l : list jsval) :
  (length (firstTrimmed n l) ≤ n)%nat
  ∧ Forall trimmedEntry (firstTrimmed n l)
  ∧ ∀ s, s ∈ firstTrimmed n l → ∃ v, v ∈ take n l ∧ s = trim (toStr v).
Proof.
  unfold firstTrimmed, filterBoolean. split_and!.
  - etrans; [apply List.filter_length_le|].
    rewrite length_map, length_take. lia.
  - apply Forall_forall. intros s Hs.
    apply list_elem_of_In, filter_In in Hs as [Hs Ht].
    apply in_map_iff in Hs as (v & <- & _).
    split; [by apply truthy_nonempty|apply trim_idem].
  - intros s Hs. apply list_elem_of_In, filter_In in Hs as [Hs _].
    apply in_map_iff in Hs as (v & <- & Hv). exists v.
    split; [by apply list_elem_of_In|done].
Qed.

Lemma sanitizeBulletList_length (lines : list jsstring) :
  (length (sanitizeBulletList lines) ≤ length lines)%nat.
Proof.
  destruct (sanitizeBulletLoop_spec ∅ lines) as (_ & _ & _ & Hsub & _).
  apply sublist_length in Hsub. by rewrite length_map in Hsub.
Qed.

End BulletsFromJD.

(** The answer of [/api/bulletsFromJD]: at most six bullets and at most
    twelve skills, each entry not empty and without white space at its
    ends, each the trimmed text of one of the first six (twelve) items of
    the model's array.  When the model answered a plain string, the
    bullets are its first six lines that are not blank, trimmed, and
    there are no skills.  The editor stores what [sanitizeBulletList]
    makes of these bullets: at most six lines. *)
Theorem bulletsFromJD_bounds `{Host} (raw : answer) (s : jsstring) :
  let bs := fst (bulletsFromJD raw) in
  let sk := snd (bulletsFromJD raw) in
  (length bs ≤ 6)%nat ∧ (length sk ≤ 12)%nat
  ∧ Forall trimmedEntry bs ∧ Forall trimmedEntry sk
  ∧ (∀ l o x, raw = AnswerObject (Some l) o → x ∈ bs →
       ∃ v, v ∈ take 6 l ∧ x = trim (toStr v))
  ∧ bulletsFromJD (AnswerString s)
    = (take 6 (filterBoolean (map trim (splitOn (N.eqb 10) s))), [])
  ∧ (length (sanitizeBulletList bs) ≤ 6)%nat.
Proof.
  cbv zeta. unfold bulletsFromJD. cbv zeta. cbn [fst snd].
  set (bl := match _ with [] => _ | _ => _ end).
  destruct (firstTrimmed_entries 6 bl) as (Hl & Hf & _).
  set (sl := match raw with AnswerObject _ (Some l) => l | _ => [] end).
  destruct (firstTrimmed_entries 12 sl) as (Hl' & Hf' & _).
  split_and!; try done.
  - intros l o x ->. unfold bl.
    destruct l as [|v l]; [by intros ?%elem_of_nil|].
    apply firstTrimmed_entries.
  - f_equal. unfold firstTrimmed.
    rewrite firstn_map, take_take, Nat.min_id, map_trim_toStr.
    apply filter_trim_id, Forall_take, filter_trim_entries.
  - etrans; [apply sanitizeBulletList_length|done].
Qed.
(** ** Proofreading *)

Section ProofreadFacts.
Import Review.

Lemma norm_oneLine (s : jsstring) : Review.norm s = sanitizeOneLine s.
Proof.
  unfold Review.norm, sanitizeOneLine, collapseSpaces.
  by rewrite (proj2 (collapse_replaceNewlines s)).
Qed.

Lemma changed_spec (out input : jsstring) :
  changed out input = true
  ↔ out ≠ [] ∧ sanitizeOneLine out ≠ sanitizeOneLine input.
Proof.
  unfold changed. rewrite andb_true_iff, negb_true_iff, bool_decide_eq_false.
  rewrite !norm_oneLine. by rewrite truthy_nonempty.
Qed.

Lemma changed_nil (input : jsstring) : changed [] input = false.
Proof. done. Qed.

End ProofreadFacts.

(** [proofreadSmart], as [onProofreadAll] calls it, returns the answer
    of the first tier, in the order device, proxy proofreader, proxy
    writer, that is a change: an answer that is not empty and differs
    from the trimmed input in more than white space (the two differ once
    each is made one line).  A tier that raises counts like one that
    answers nothing, and never stops the later tiers.  The answer is
    returned through [stripMeta].  When no tier answers a change the
    trimmed input comes back, marked as the original; a blank input comes
    back empty without any tier being asked.  When the caller does not
    ask for it all, an answer of the device ends the call even if it is
    no change: what comes back, through [stripMeta], is that answer, or
    the trimmed input when the answer is empty; with the device raising,
    the call goes on to the other tiers as it does otherwise. *)
Theorem proofreadSmart_first_change (b : Review.proofBackends)
    (text out : jsstring) :
  let input := trim text in
  let device := deviceText b in
  let cloud := remoteText (Review.cloudProof b) in
  let writer := remoteText (Review.writerFix b) in
  (Review.changed out input = true
   ↔ out ≠ [] ∧ sanitizeOneLine out ≠ sanitizeOneLine input)
  ∧ (input = [] → ∀ a, Review.proofreadSmart b a text = ([], Review.SourceNone))
  ∧ (input ≠ [] →
     Review.proofreadSmart b true text
     = if Review.changed device input
       then (stripMeta device, Review.SourceDevice)
       else if Review.changed cloud input
       then (stripMeta cloud, Review.SourceCloud)
       else if Review.changed writer input
       then (stripMeta writer, Review.SourceWriter)
       else (input, Review.SourceOriginal))
  ∧ (input ≠ [] → ∀ corrected,
     Review.deviceProof b = Review.ProofAnswers corrected →
     Review.proofreadSmart b false text
     = (stripMeta (orElse corrected input), Review.SourceDevice))
  ∧ (Review.deviceProof b = Review.ProofThrows → ∀ a,
     Review.proofreadSmart b a text = Review.proofreadSmart b true text).
Proof.
  cbv zeta. split; [apply changed_spec|].
  unfold Review.proofreadSmart, deviceText, remoteText, Review.acceptRemote.
  cbv zeta. split_and!.
  - intros -> a. done.
  - intros Hne. apply truthy_nonempty in Hne. rewrite Hne. cbn [negb].
    destruct (Review.deviceProof b) as [|c1], (Review.cloudProof b) as [|c2],
      (Review.writerFix b) as [|c3];
      rewrite ?changed_nil; cbn [negb];
      repeat (match goal with
              | |- context [Review.changed ?a ?i] =>
                  destruct (Review.changed a i)
              end); done.
  - intros Hne corrected ->. apply truthy_nonempty in Hne. rewrite Hne.
    cbn [negb]. destruct (Review.changed corrected (trim text)) eqn:Ec; [|done].
    unfold Review.changed in Ec. apply andb_true_iff in Ec as [Ec _].
    unfold orElse. by rewrite Ec.
  - intros -> a. by destruct (negb (truthy (trim text))).
Qed.

Section Filled.
Context `{Host}.

Lemma sanitizeTitleText_filled (next prev : jsstring) :
  prev ≠ [] → sanitizeTitleText next prev ≠ [].
Proof.
  intros Hp. unfold sanitizeTitleText. cbv zeta. unfold orElse.
  destruct (truthy _) eqn:E; [by apply truthy_nonempty|done].
Qed.

Lemma sanitizeRoleText_filled (next prev : jsstring) :
  prev ≠ [] → sanitizeRoleText next prev ≠ [].
Proof.
  intros Hp. unfold sanitizeRoleText. cbv zeta.
  set (o0 := firstClause (stripBulletMark (sanitizeOneLine next))).
  destruct (ACTION_VERB_RE_test o0) eqn:Ev.
  - unfold orElse.
    destruct (truthy (stripBulletMark (firstClause prev))) eqn:Ep.
    + destruct (firstClause_tidy prev) as [Ht Hr].
      rewrite (oneLine_stripBulletMark _ Ht Hr). by apply truthy_nonempty.
    + destruct (firstClause_tidy (stripBulletMark (sanitizeOneLine next)))
        as [Ht Hr]. fold o0 in Ht, Hr.
      destruct (capWords_tidy o0 MAX_ROLE_WORDS) as [Hc Htr].
      rewrite (sanitizeOneLine_fix _ Hc Htr).
      exact (capWords_verb_nonempty o0 9 Ht Hr Ev).
  - unfold orElse. destruct (truthy _) eqn:E; [by apply truthy_nonempty|done].
Qed.

End Filled.

(** Proofreading neither empties a field nor fills one.  A title, a
    degree, a name or one of the other fields that [onProofreadAll] puts
    through [sanitizeTitleText] is empty afterwards exactly when it was
    empty before, whatever the backends answer; the same holds of the
    role of an experience entry, whose other fields and bullets the role
    step leaves as they were.  With no proofreader answering, the role
    becomes what [sanitizeRoleText] makes of the role itself. *)
Theorem proofreading_keeps_fields_filled `{Host} (f : Review.fixBackends)
    (localeTag before : jsstring) (device : Review.proofAnswer)
    (cloud : remoteOutcome) (e : experience) :
  (Review.proofreadField f localeTag before = [] ↔ before = [])
  ∧ (role (Review.proofreadRole device cloud e) = [] ↔ role e = [])
  ∧ bullets (Review.proofreadRole device cloud e) = bullets e
  ∧ company (Review.proofreadRole device cloud e) = company e
  ∧ Review.proofreadRoleSafe Review.ProofThrows RemoteThrows before
    = sanitizeRoleText before before.
Proof.
  split_and!.
  - unfold Review.proofreadField. destruct before as [|c r]; [done|].
    cbn [truthy]. cbv zeta.
    destruct (bool_decide _); [done|]. split; [|done].
    intros E. by apply sanitizeTitleText_filled in E.
  - unfold Review.proofreadRole. destruct (role e) as [|c r] eqn:Er;
      cbn [truthy]; [by rewrite Er|].
    cbv zeta. destruct (bool_decide _); [by rewrite Er|].
    cbn [setField role]. split; [|done].
    intros E. unfold Review.proofreadRoleSafe in E. cbv zeta in E.
    by apply sanitizeRoleText_filled in E.
  - unfold Review.proofreadRole. destruct (truthy (role e)); [|done].
    cbv zeta. by destruct (bool_decide _).
  - unfold Review.proofreadRole. destruct (truthy (role e)); [|done].
    cbv zeta. by destruct (bool_decide _).
  - unfold Review.proofreadRoleSafe. cbv zeta.
    by rewrite bool_decide_true.
Qed.
(** ** Project cards *)

Section ProjectFacts.
Context `{Host}.





End ProjectFacts.


